(** * graph-builder: the dependency-graph engine of [server/pkg/engine/engine.go]

    A shallow embedding of the engine (level planner [topoSortLevels],
    executor [Run], subgraph resolver [BuildFor], and the state effect of
    [PrettyPrint]) together with the properties of its specification.
    The programs around the engine follow it: the catalog of
    [server/pkg/catalog/catalog.go], the node packages, the handlers
    of [server/main.go], and the integrity test of [server/graph_test.go].

    Conventions of the embedding:
    - a Go [map[string]V] is a [gmap string V]; a [range] loop over a map
      visits its entries in an order the language leaves open, so every
      such loop takes the visiting order as an argument and the theorems
      quantify over all orders;
    - Go's [int] counters are [Z];
    - a run function is a function from the dependency results to a result
      or an error message: within one [Run] it is called at most once.
      [Run] is the executor with run functions that are there and return;
      [RunGo] is the executor with run functions that may be nil or panic,
      and is [Run] when they are there and return ([RunGo_returning]).  A
      run function that does not return has no counterpart.  Where a run
      is compared with a later one, the later run has a node map of its
      own, with the run functions as they answer then ([sameNodes]), and
      what is asked of them is said ([answersAlike]);
    - the goroutines of one level are run under an explicit interleaving
      (the list of the goroutines picked, step by step), and the theorems
      quantify over all interleavings;
    - loops whose termination is not structural carry a fuel argument; the
      fuel the definitions pass is shown to be enough. *)

From Stdlib Require Import ZArith String Ascii List Lia.
From stdpp Require Import base option list relations sorting strings gmap.

Local Open Scope string_scope.
Local Open Scope list_scope.
Local Open Scope Z_scope.

(** ** Data model *)

Section engine.

(** [any] is the opaque payload type of a result, [nil] its zero value. *)
Context {any : Type} (nil : any).

(** [type Result struct { ID string; Data any }] *)
Record Result := mkResult { ResultID : string; Data : any }.

(** The zero value of [Result], what a lookup of a missing map key yields. *)
Definition zeroResult : Result := mkResult "" nil.

(** [type RunFunc func(deps map[string]Result) (Result, error)]: an error
    returned by a run function is represented by its message.  This is a
    run function that is there and returns; what is shown of [Run] is
    shown of engines with such run functions.  A [Node] whose [Run] is
    nil, on which the call [node.Run(depResults)] of [Run] panics, and a
    run function that panics are [GoRunFunc] and [GoNode] below, with the
    executor [RunGo]; a run function that does not return has no
    counterpart.  Within one [Run] a run function is called at most once,
    and its answer is taken not to depend on the interleaving of the
    goroutines.  A closure may answer a later call otherwise than an
    earlier one (state, time, input): a later run is given a node map of
    its own ([sameNodes]), whose run functions are asked no more than to
    answer the calls of the earlier run as they were answered then
    ([answersAlike]). *)
Definition RunFunc : Type := gmap string Result → Result + string.

(** [type Node struct { ID string; DependsOn []string; Run RunFunc }] *)
Record Node := mkNode { ID : string; DependsOn : list string; NodeRun : RunFunc }.

(** The errors the engine builds with [fmt.Errorf]. *)
Inductive error : Type :=
  | ErrUnknownDependency (node dep : string)
  | ErrCycle
  | ErrUnknownNode (id : string)
  | ErrNodeFailed (nodeID : string) (cause : string).

(** The text of each error, as its format string builds it. *)
Definition Error (e : error) : string :=
  match e with
  | ErrUnknownDependency node dep =>
      "node " +:+ node +:+ " depends on unknown node " +:+ dep
  | ErrCycle => "cycle detected in dependency graph"
  | ErrUnknownNode id => "unknown node: " +:+ id
  | ErrNodeFailed nodeID cause => "node " +:+ nodeID +:+ " failed: " +:+ cause
  end.

(** [type Engine struct { nodes map[string]Node; results map[string]Result; mu }] *)
Record Engine := mkEngine {
  nodes : gmap string Node;
  results : gmap string Result
}.

(** [func New(registry map[string]Node) *Engine] *)
Definition New (registry : gmap string Node) : Engine :=
  mkEngine registry ∅.

(** ** Iterating over a map

    A [for k, v := range m] loop meets every entry of [m] once, in an
    order the language does not fix.  [range hint m] is one such order:
    the keys named by [hint] first (as far as they are keys of [m], each
    once), then the keys it leaves out.  Every order of the entries is
    [range hint m] for some [hint] (see [range_any_order]). *)
Definition rangeKeys {V} (hint : list string) (m : gmap string V) : list string :=
  let first := remove_dups (filter (λ k, is_Some (m !! k)) hint) in
  first ++ filter (λ k, k ∉ first) (map_to_list m).*1.

Definition range {V} (hint : list string) (m : gmap string V) : list (string * V) :=
  omap (λ k, (k,.) <$> m !! k) (rangeKeys hint m).

(** The four [range] loops of [topoSortLevels], in source order: a hint
    for each. *)
Record MapOrders := mkOrders {
  ord_init : list string;        (* for id := range e.nodes *)
  ord_check : list string;       (* for _, node := range e.nodes *)
  ord_level0 : list string;      (* for id, degree := range inDegree *)
  ord_dependents : list string   (* for _, node := range e.nodes *)
}.

(** ** Level planner: [topoSortLevels] *)

(** [inDegree[id] = 0] for every key. *)
Definition initInDegree (es : list (string * Node)) : gmap string Z :=
  foldl (λ inDegree e, <[e.1 := 0]> inDegree) ∅ es.

(** The second loop: every dependency must key into [e.nodes], then
    [inDegree[node.ID] = len(node.DependsOn)]. *)
Fixpoint checkDeps (ns : gmap string Node) (es : list (string * Node))
    (inDegree : gmap string Z) : gmap string Z + error :=
  match es with
  | [] => inl inDegree
  | (_, node) :: es =>
      match list_find (λ dep, ns !! dep = None) (DependsOn node) with
      | Some (_, dep) => inr (ErrUnknownDependency (ID node) dep)
      | None =>
          checkDeps ns es (<[ID node := Z.of_nat (length (DependsOn node))]> inDegree)
      end
  end.

(** [currentLevel]: the ids of degree 0, in the order the map yields them. *)
Definition firstLevel (ds : list (string * Z)) : list string :=
  (filter (λ d, d.2 = 0) ds).*1.

(** [dependents[dep] = append(dependents[dep], node.ID)] *)
Definition addDependent (id : string) (dependents : gmap string (list string))
    (dep : string) : gmap string (list string) :=
  <[dep := default [] (dependents !! dep) ++ [id]]> dependents.

Definition buildDependents (es : list (string * Node)) : gmap string (list string) :=
  foldl (λ dependents e, foldl (addDependent (ID e.2)) dependents (DependsOn e.2)) ∅ es.

(** One turn of the innermost loop:
    [inDegree[dependent]--; if inDegree[dependent] == 0 { nextLevel = append(...) }].
    Reading a key the map lacks gives the zero value. *)
Definition decrement (st : gmap string Z * list string) (dependent : string)
    : gmap string Z * list string :=
  let d := default 0 (st.1 !! dependent) - 1 in
  (<[dependent := d]> st.1, if d =? 0 then st.2 ++ [dependent] else st.2).

(** The body of [for _, id := range currentLevel]. *)
Definition processLevel (dependents : gmap string (list string))
    (inDegree : gmap string Z) (currentLevel : list string)
    : gmap string Z * list string :=
  foldl (λ st id, foldl decrement st (default [] (dependents !! id)))
    (inDegree, []) currentLevel.

(** [for len(currentLevel) > 0 { ... }]; [None] when the fuel runs out. *)
Fixpoint levelLoop (fuel : nat) (dependents : gmap string (list string))
    (inDegree : gmap string Z) (currentLevel : list string)
    (levels : list (list string)) (processed : Z)
    : option (list (list string) * Z) :=
  match currentLevel with
  | [] => Some (levels, processed)
  | _ :: _ =>
      match fuel with
      | O => None
      | S fuel =>
          let st := processLevel dependents inDegree currentLevel in
          levelLoop fuel dependents st.1 st.2 (levels ++ [currentLevel])
            (processed + Z.of_nat (length currentLevel))
      end
  end.

(** [func (e *Engine) topoSortLevels() ([][]string, error)].
    Each turn of the level loop but the first follows a counter reaching
    zero, so one more turn than there are counters is enough fuel. *)
Definition topoSortLevels (o : MapOrders) (ns : gmap string Node)
    : option (list (list string) + error) :=
  let inDegree := initInDegree (range (ord_init o) ns) in
  match checkDeps ns (range (ord_check o) ns) inDegree with
  | inr err => Some (inr err)
  | inl inDegree =>
      let currentLevel := firstLevel (range (ord_level0 o) inDegree) in
      let dependents := buildDependents (range (ord_dependents o) ns) in
      match levelLoop (S (size inDegree)) dependents inDegree currentLevel [] 0 with
      | None => None
      | Some (levels, processed) =>
          if bool_decide (processed ≠ Z.of_nat (size ns))
          then Some (inr ErrCycle)
          else Some (inl levels)
      end
  end.


(** ** Well-formed node sets *)

(** The map keys every node by its own [ID], as [Register] and [BuildFor]
    fill it. *)
Definition keyed (ns : gmap string Node) : Prop :=
  map_Forall (λ k node, ID node = k) ns.

(** Every [DependsOn] entry keys into the set. *)
Definition closed (ns : gmap string Node) : Prop :=
  map_Forall (λ _ node, Forall (λ dep, is_Some (ns !! dep)) (DependsOn node)) ns.

(** The node keyed [k] declares the dependency [dep]. *)
Definition dependsOn (ns : gmap string Node) (k dep : string) : Prop :=
  ∃ node, ns !! k = Some node ∧ dep ∈ DependsOn node.

(** No node reaches itself along one or more dependencies. *)
Definition acyclic (ns : gmap string Node) : Prop :=
  ∀ k, ¬ tc (dependsOn ns) k k.

(** [k] sits in level number [i] of [levels]. *)
Definition inLevel (levels : list (list string)) (i : nat) (k : string) : Prop :=
  ∃ level, levels !! i = Some level ∧ k ∈ level.

(** ** Executor: [Run] *)

(** What [Run] hands back: the returned [error] ([None] for [nil]), or a
    panic (a call of the nil run function of a zero [Node]). *)
Inductive outcome : Type :=
  | Returned (err : option error)
  | Panicked.

(** A goroutine of a level takes two steps that touch shared state: under
    the read lock it gathers [depResults]; after [node.Run] it either sends
    on [errCh] or, under the write lock, stores its result. *)
Inductive goroutine : Type :=
  | Spawned (nodeID : string)
  | Running (nodeID : string) (depResults : gmap string Result)
  | Exited.

(** A call [node.Run(depResults)] made by the goroutine of [nodeID]. *)
Definition call : Type := string * gmap string Result.

Record LevelState := mkLevelState {
  goroutines : list goroutine;
  store : gmap string Result;      (* e.results *)
  errCh : list error;              (* the buffered channel, oldest first *)
  callLog : list call              (* ghost: the run functions invoked so far *)
}.

(** [depResults[depID] = e.results[depID]] for every declared dependency. *)
Definition gatherDeps (rs : gmap string Result) (deps : list string)
    : gmap string Result :=
  foldl (λ depResults depID, <[depID := default zeroResult (rs !! depID)]> depResults)
    ∅ deps.

(** Goroutine number [i] takes its next step; [None] is a panic.  A
    goroutine that has exited (or a number past the level) does nothing. *)
Definition goroutineStep (ns : gmap string Node) (st : LevelState) (i : nat)
    : option LevelState :=
  match goroutines st !! i with
  | Some (Spawned nodeID) =>
      match ns !! nodeID with
      | None => None
      | Some node =>
          let depResults := gatherDeps (store st) (DependsOn node) in
          Some (mkLevelState (<[i := Running nodeID depResults]> (goroutines st))
                  (store st) (errCh st) (callLog st ++ [(nodeID, depResults)]))
      end
  | Some (Running nodeID depResults) =>
      match ns !! nodeID with
      | None => None
      | Some node =>
          match NodeRun node depResults with
          | inr err =>
              Some (mkLevelState (<[i := Exited]> (goroutines st)) (store st)
                      (errCh st ++ [ErrNodeFailed nodeID err]) (callLog st))
          | inl result =>
              Some (mkLevelState (<[i := Exited]> (goroutines st))
                      (<[nodeID := result]> (store st)) (errCh st) (callLog st))
          end
      end
  | _ => Some st
  end.

Fixpoint goroutineSteps (ns : gmap string Node) (st : LevelState) (picks : list nat)
    : option LevelState :=
  match picks with
  | [] => Some st
  | i :: picks =>
      match goroutineStep ns st i with
      | None => None
      | Some st => goroutineSteps ns st picks
      end
  end.

(** [wg.Wait()]: whatever the scheduler picked, every goroutine of the
    level has taken both its steps when the barrier opens.  An interleaving
    of the level is the list of its picks; picks of goroutines that have
    exited change nothing, so every list of picks stands for one. *)
Definition barrier (n : nat) : list nat :=
  seq 0 n ++ seq 0 n.

(** One level: [sort.Strings(level)], a goroutine per id, the picks of the
    scheduler, the barrier. *)
Definition runLevel (ns : gmap string Node) (sched : list nat) (level : list string)
    (rs : gmap string Result) (log : list call) : option LevelState :=
  let level := merge_sort String.le level in
  goroutineSteps ns (mkLevelState (Spawned <$> level) rs [] log)
    (sched ++ barrier (length level)).

(** [for levelNum, level := range levels { ... }] *)
Fixpoint runLevels (ns : gmap string Node) (scheds : list (list nat))
    (levels : list (list string)) (rs : gmap string Result) (log : list call)
    : outcome * gmap string Result * list call :=
  match levels with
  | [] => (Returned None, rs, log)
  | level :: levels =>
      match runLevel ns (hd [] scheds) level rs log with
      | None => (Panicked, rs, log)
      | Some st =>
          match errCh st with
          | err :: _ => (Returned (Some err), store st, callLog st)
          | [] => runLevels ns (tl scheds) levels (store st) (callLog st)
          end
      end
  end.

(** [func (e *Engine) Run() error]: the outcome, the engine afterwards and
    the log of the run functions called. *)
Definition Run (o : MapOrders) (scheds : list (list nat)) (e : Engine)
    : option (outcome * Engine * list call) :=
  match topoSortLevels o (nodes e) with
  | None => None
  | Some (inr err) => Some (Returned (Some err), e, [])
  | Some (inl levels) =>
      let '(out, rs, log) := runLevels (nodes e) scheds levels (results e) [] in
      Some (out, mkEngine (nodes e) rs, log)
  end.

(** [func (e *Engine) Results() map[string]Result] *)
Definition Results (e : Engine) : gmap string Result := results e.

(** ** Subgraph resolver: [Builder] *)

(** [type Builder struct { catalog map[string]Node }] *)
Record Builder := mkBuilder { catalog : gmap string Node }.

(** [func NewBuilder(catalog map[string]Node) *Builder] *)
Definition NewBuilder (catalog : gmap string Node) : Builder := mkBuilder catalog.

(** [for _, id := range ids { if err := resolve(id); err != nil { return err } }],
    the shape of both the loop over [node.DependsOn] and the loop over the
    targets; [needed] is the map the closure updates. *)
Fixpoint resolveEach (resolve : string → gmap string Node → option (gmap string Node + error))
    (ids : list string) (needed : gmap string Node)
    : option (gmap string Node + error) :=
  match ids with
  | [] => Some (inl needed)
  | id :: ids =>
      match resolve id needed with
      | Some (inl needed) => resolveEach resolve ids needed
      | stop => stop
      end
  end.

(** The closure [resolve] of [BuildFor]; the fuel bounds the depth of the
    recursion, [None] when it runs out. *)
Fixpoint resolve (fuel : nat) (cat : gmap string Node) (id : string)
    (needed : gmap string Node) : option (gmap string Node + error) :=
  match fuel with
  | O => None
  | S fuel =>
      match needed !! id with
      | Some _ => Some (inl needed)
      | None =>
          match cat !! id with
          | None => Some (inr (ErrUnknownNode id))
          | Some node =>
              resolveEach (resolve fuel cat) (DependsOn node) (<[id := node]> needed)
          end
      end
  end.

(** [BuildFor] with a given recursion depth. *)
Definition BuildForDepth (fuel : nat) (b : Builder) (targetNodeIDs : list string)
    : option (Engine + error) :=
  match resolveEach (resolve fuel (catalog b)) targetNodeIDs ∅ with
  | None => None
  | Some (inr err) => Some (inr err)
  | Some (inl needed) => Some (inl (New needed))
  end.

(** [func (b *Builder) BuildFor(targetNodeIDs ...string)], returning the engine or an error.
    Every nested call of [resolve] but the innermost has added a catalog
    entry to [needed], so the depth never exceeds the catalog size plus one. *)
Definition BuildFor (b : Builder) (targetNodeIDs : list string)
    : option (Engine + error) :=
  BuildForDepth (S (size (catalog b))) b targetNodeIDs.

(** ** [PrettyPrint]: its effect on the engine

    Of [PrettyPrint] only the effect on the engine is kept, not the text.
    [node := e.nodes[id]] copies the struct, but the copy's [DependsOn]
    shares its backing array with the entry of the map, so
    [sort.Strings(node.DependsOn)] reorders the dependencies of the node
    the engine (and the registry it was built from) holds.  Here every
    node has its dependencies to itself: this is the effect of
    [PrettyPrint] on an engine in which no two [DependsOn] slices share
    an element.  [PrettyPrintStored], further down, is the effect on the
    slices as they lie in memory, overlapping or not, in the engine and in
    the catalog that shares them; on slices that lie apart the two agree
    ([PrettyPrintStored_PrettyPrint]).  The rest of [PrettyPrint] sorts
    slices of its own and prints. *)
Definition sortedIDs (ns : gmap string Node) : list string :=
  merge_sort String.le (map_to_list ns).*1.

Definition printNode (ns : gmap string Node) (id : string) : gmap string Node :=
  match ns !! id with
  | None => ns
  | Some node =>
      if bool_decide (0 < length (DependsOn node))%nat
      then <[id := mkNode (ID node) (merge_sort String.le (DependsOn node)) (NodeRun node)]> ns
      else ns
  end.

Definition PrettyPrint (e : Engine) : Engine :=
  mkEngine (foldl printNode (nodes e) (sortedIDs (nodes e))) (results e).

End engine.

Arguments Result : clear implicits.
Arguments Node : clear implicits.
Arguments Engine : clear implicits.
Arguments Builder : clear implicits.
Arguments RunFunc : clear implicits.
Arguments LevelState : clear implicits.
Arguments goroutine : clear implicits.
Arguments call : clear implicits.

(** ** Vocabulary of the proofs

    The counters of the planner, the invariants of its loop and of the
    executor, and what the resolver returns. *)

(** How often [k] occurs in [l]. *)
Definition occ (k : string) (l : list string) : nat :=
  length (filter (λ x, x = k) l).

(** [inDegree[k]], zero when the key is missing. *)
Definition deg (m : gmap string Z) (k : string) : Z := default 0 (m !! k).

(** The ids whose counters one pass over [currentLevel] decrements. *)
Definition fanout (dependents : gmap string (list string)) (level : list string)
    : list string :=
  level ≫= (λ id, default [] (dependents !! id)).

(** The keys whose counter is positive: the measure of the level loop. *)
Definition positive (m : gmap string Z) : gset string :=
  dom (filter (λ kv, 0 < kv.2) m).

Section vocabulary.
Context {any : Type}.
Implicit Types (ns cat needed : gmap string (Node any)).
Implicit Types (rs : gmap string (Result any)) (log c : list (call any)).
Implicit Types (st : LevelState any) (levels rest : list (list string)).

(** What the second loop of [topoSortLevels] leaves in [inDegree] when it
    finds no unknown dependency. *)
Definition countDeps (es : list (string * Node any)) (inDegree : gmap string Z)
    : gmap string Z :=
  foldl (λ m e, <[ID e.2 := Z.of_nat (length (DependsOn e.2))]> m) inDegree es.

(** The dependencies of [n] not yet placed, and those placed by [level]. *)
Definition pending (placed : list string) (n : Node any) : nat :=
  length (filter (λ d, d ∉ placed) (DependsOn n)).

Definition served (level : list string) (n : Node any) : nat :=
  length (filter (λ d, d ∈ level) (DependsOn n)).

(** The invariant at the head of the level loop. *)
Record levelInv ns (inDegree : gmap string Z) (level : list string) levels : Prop := {
  inv_NoDup : NoDup (mjoin levels ++ level);
  inv_nodes : ∀ k, k ∈ mjoin levels ++ level → is_Some (ns !! k);
  inv_deg : ∀ k n, ns !! k = Some n → deg inDegree k = Z.of_nat (pending (mjoin levels) n);
  inv_ready : ∀ k n, ns !! k = Some n →
    (k ∈ mjoin levels ++ level ↔ pending (mjoin levels) n = 0%nat);
  inv_order : ∀ i k d, inLevel levels i k → dependsOn ns k d →
    ∃ j, (j < i)%nat ∧ inLevel levels j d
}.

(** What a level plan of [ns] is: every node in exactly one level, after
    all its dependencies, those without dependencies first. *)
Record planOf ns levels : Prop := {
  plan_NoDup : NoDup (mjoin levels);
  plan_nodes : ∀ k, k ∈ mjoin levels ↔ is_Some (ns !! k);
  plan_order : ∀ i k d, inLevel levels i k → dependsOn ns k d →
    ∃ j, (j < i)%nat ∧ inLevel levels j d;
  plan_first : ∀ k, inLevel levels 0 k ↔ ∃ n, ns !! k = Some n ∧ DependsOn n = []
}.

(** Progress of a goroutine: how far it has come. *)
Definition phase (g : goroutine any) : nat :=
  match g with Spawned _ => 0 | Running _ _ => 1 | Exited => 2 end.

(** The dependency results a node is run with in a level that starts from
    the results [rs0]. *)
Definition gathered (nil : any) (rs0 : gmap string (Result any)) (n : Node any) : gmap string (Result any) :=
  gatherDeps nil rs0 (DependsOn n).

(** Where the goroutine for [id] stands, given the calls [c] made so far. *)
Definition goroutineInv (nil : any) (rs0 : gmap string (Result any)) st c (id : string) (n : Node any)
    (g : goroutine any) : Prop :=
  match g with
  | Spawned id' => id' = id ∧ store st !! id = rs0 !! id ∧ id ∉ c.*1
  | Running id' deps =>
      id' = id ∧ deps = gathered nil rs0 n ∧ store st !! id = rs0 !! id ∧ id ∈ c.*1
  | Exited =>
      id ∈ c.*1 ∧
      match NodeRun n (gathered nil rs0 n) with
      | inl r => store st !! id = Some r
      | inr cause => store st !! id = rs0 !! id ∧ ErrNodeFailed id cause ∈ errCh st
      end
  end.

(** The invariant of a level while its goroutines run: [level] are its
    ids, [rs0] and [log0] the results and the log when they were spawned. *)
Record levelRunInv (nil : any) ns (level : list string)
    (rs0 : gmap string (Result any)) (log0 : list (call any)) st c : Prop := {
  lri_length : length (goroutines st) = length level;
  lri_outside : ∀ k, k ∉ level → store st !! k = rs0 !! k;
  lri_errors : ∀ err, err ∈ errCh st →
    ∃ id n cause, id ∈ level ∧ ns !! id = Some n ∧
      NodeRun n (gathered nil rs0 n) = inr cause ∧ err = ErrNodeFailed id cause;
  lri_log : callLog st = log0 ++ c;
  lri_calls_NoDup : NoDup c.*1;
  lri_calls : ∀ id deps, (id, deps) ∈ c →
    ∃ n, id ∈ level ∧ ns !! id = Some n ∧ deps = gathered nil rs0 n;
  lri_goroutines : ∀ i id, level !! i = Some id →
    ∃ n g, ns !! id = Some n ∧ goroutines st !! i = Some g ∧
           goroutineInv nil rs0 st c id n g
}.

(** What a level leaves behind, whatever the interleaving. *)
Record levelDone (nil : any) ns (level : list string) rs log st c : Prop := {
  ld_log : callLog st = log ++ c;
  ld_called : c.*1 ≡ₚ level;
  ld_calls : ∀ id deps, (id, deps) ∈ c →
    ∃ n, ns !! id = Some n ∧ deps = gatherDeps nil rs (DependsOn n);
  ld_outside : ∀ k, k ∉ level → store st !! k = rs !! k;
  ld_inside : ∀ id n, id ∈ level → ns !! id = Some n →
    match NodeRun n (gatherDeps nil rs (DependsOn n)) with
    | inl r => store st !! id = Some r
    | inr cause => store st !! id = rs !! id ∧ ErrNodeFailed id cause ∈ errCh st
    end;
  ld_errors : ∀ err, err ∈ errCh st →
    ∃ id n cause, id ∈ level ∧ ns !! id = Some n ∧
      NodeRun n (gatherDeps nil rs (DependsOn n)) = inr cause ∧
      err = ErrNodeFailed id cause
}.

(** The state between two levels: [placed] are the ids of the levels run
    so far (all successful), [rest] the levels still to run, [rs0] the
    results the engine held before [Run]. *)
Record runPre (nil : any) ns (rs0 : gmap string (Result any))
    (placed : list string) rest rs log : Prop := {
  pre_NoDup : NoDup (placed ++ mjoin rest);
  pre_nodes : ∀ k, k ∈ mjoin rest → is_Some (ns !! k);
  pre_placed_deps : ∀ k d, k ∈ placed → dependsOn ns k d → d ∈ placed;
  pre_rest_deps : ∀ i k d, inLevel rest i k → dependsOn ns k d →
    d ∈ placed ∨ ∃ j, (j < i)%nat ∧ inLevel rest j d;
  pre_called : log.*1 ≡ₚ placed;
  pre_calls : ∀ id deps, (id, deps) ∈ log →
    ∃ n r, ns !! id = Some n ∧ deps = gatherDeps nil rs (DependsOn n) ∧
           NodeRun n deps = inl r ∧ rs !! id = Some r;
  pre_outside : ∀ k, k ∉ placed → rs !! k = rs0 !! k
}.

(** What [runLevels] leaves: [ran] levels of [rest] have run. *)
Record runPost (nil : any) ns (rs0 : gmap string (Result any))
    (placed : list string) rest (ran : nat) (out : outcome) rs log : Prop := {
  post_ran : (ran ≤ length rest)%nat;
  post_called : log.*1 ≡ₚ placed ++ mjoin (take ran rest);
  post_outside : ∀ k, k ∉ placed ++ mjoin (take ran rest) → rs !! k = rs0 !! k;
  post_calls : ∀ id deps, (id, deps) ∈ log →
    ∃ n, ns !! id = Some n ∧ deps = gatherDeps nil rs (DependsOn n) ∧
      match NodeRun n deps with
      | inl r => rs !! id = Some r
      | inr _ => rs !! id = rs0 !! id
      end;
  post_outcome :
    match out with
    | Returned None =>
        ran = length rest ∧
        ∀ id deps n, (id, deps) ∈ log → ns !! id = Some n → ∃ r, NodeRun n deps = inl r
    | Returned (Some err) =>
        ∃ i id n cause,
          ran = S i ∧ inLevel rest i id ∧ ns !! id = Some n ∧
          (id, gatherDeps nil rs (DependsOn n)) ∈ log ∧
          NodeRun n (gatherDeps nil rs (DependsOn n)) = inr cause ∧
          err = ErrNodeFailed id cause ∧
          ∀ id' deps n', (id', deps) ∈ log → id' ∈ placed ++ mjoin (take i rest) →
            ns !! id' = Some n' → ∃ r, NodeRun n' deps = inl r
    | Panicked => False
    end
}.

(** A call whose run function returned an error. *)
Definition failedCall ns (x : call any) : Prop :=
  ∃ n cause, ns !! x.1 = Some n ∧ NodeRun n x.2 = inr cause.

(** [k] is one of [ids] or a transitive dependency of one, as far as the
    catalog tells. *)
Definition reachable cat (ids : list string) (k : string) : Prop :=
  ∃ id, id ∈ ids ∧ rtc (dependsOn cat) id k.

(** What resolving [ids] from [needed] comes back with: the map grown by
    nodes reachable from [ids], holding [ids] and the dependencies of every
    node added; or an unknown-node error for a reachable id the catalog
    lacks. *)
Definition resolved cat (ids : list string) needed
    (r : gmap string (Node any) + error) : Prop :=
  match r with
  | inl needed' =>
      needed ⊆ needed' ∧ needed' ⊆ cat ∧
      (∀ id, id ∈ ids → is_Some (needed' !! id)) ∧
      (∀ k, is_Some (needed' !! k) → needed !! k = None → reachable cat ids k) ∧
      (∀ k d, is_Some (needed' !! k) → needed !! k = None →
              dependsOn cat k d → is_Some (needed' !! d))
  | inr err =>
      ∃ x, reachable cat ids x ∧ cat !! x = None ∧ err = ErrUnknownNode x
  end.

(** The recursion depth left is enough: more than the catalog entries
    still outside [needed]. *)
Definition deepEnough cat (fuel : nat) needed : Prop :=
  needed ⊆ cat ∧ (size cat < fuel + size needed)%nat.

End vocabulary.

(** ** Decidable well-formedness, further vocabulary *)

Local Open Scope nat_scope.

#[global] Instance keyed_dec {any} (ns : gmap string (Node any)) : Decision (keyed ns).
Proof. unfold keyed. apply _. Defined.

#[global] Instance closed_dec {any} (ns : gmap string (Node any)) : Decision (closed ns).
Proof. unfold closed. apply _. Defined.

(** What [PrettyPrint] leaves of a node. *)
Definition printed {any} (n : Node any) : Node any :=
  if bool_decide (0 < length (DependsOn n))
  then mkNode (ID n) (merge_sort String.le (DependsOn n)) (NodeRun n)
  else n.




(** ** [PrettyPrint] on the slices as they lie in memory

    The [DependsOn] of a [Node] is a slice: a window on a backing array,
    which other slices may share.  [node := e.nodes[id]] copies the
    window, not the array, and so does [BuildFor] when it copies a node
    of the catalog into [needed]; [sort.Strings(node.DependsOn)] sorts
    the elements of the array where they lie.  Here the nodes are kept
    with their windows, the arrays in a memory of their own; [PrettyPrint]
    above is what this comes to when no two windows overlap
    ([PrettyPrintStored_load]). *)

(** A [[]string]: [sliceLen] elements, from index [sliceLow] on, of the
    backing array at the address [sliceArray].  The memory, a
    [gmap nat (list string)], holds the backing arrays by address. *)
Record Slice : Type := mkSlice { sliceArray : nat; sliceLow : nat; sliceLen : nat }.

(** The elements of a slice. *)
Definition elements (m : gmap nat (list string)) (s : Slice) : list string :=
  take (sliceLen s) (drop (sliceLow s) (default [] (m !! sliceArray s))).

(** [sort.Strings(s)]: the elements of the window, sorted, take the place
    of the elements of the window. *)
Definition sortStrings (s : Slice) (m : gmap nat (list string)) : gmap nat (list string) :=
  match m !! sliceArray s with
  | None => m
  | Some a =>
      <[sliceArray s :=
          take (sliceLow s) a
          ++ merge_sort String.le (take (sliceLen s) (drop (sliceLow s) a))
          ++ drop (sliceLow s + sliceLen s) a]> m
  end.

(** [type Node struct], its [DependsOn] a window. *)
Record StoredNode {any : Type} : Type := mkStoredNode {
  StoredID : string;
  StoredDependsOn : Slice;
  StoredRun : RunFunc any
}.
Arguments StoredNode : clear implicits.
Arguments mkStoredNode {any} _ _ _.

(** The node with the elements of its window: what the planner and the
    executor read. *)
Definition load {any} (m : gmap nat (list string)) (n : StoredNode any) : Node any :=
  mkNode (StoredID n) (elements m (StoredDependsOn n)) (StoredRun n).

(** The body of the loop [for _, id := range ids] of [PrettyPrint], as far
    as it touches the nodes. *)
Definition printStored {any} (ns : gmap string (StoredNode any)) (m : gmap nat (list string)) (id : string)
    : gmap nat (list string) :=
  match ns !! id with
  | None => m
  | Some node =>
      if bool_decide (0 < sliceLen (StoredDependsOn node))
      then sortStrings (StoredDependsOn node) m
      else m
  end.

(** The effect of [PrettyPrint] on the memory, [ns] being [e.nodes]. *)
Definition PrettyPrintStored {any} (ns : gmap string (StoredNode any)) (m : gmap nat (list string))
    : gmap nat (list string) :=
  foldl (printStored ns) m (merge_sort String.le (map_to_list ns).*1).

(** Every window lies within its array. *)
Definition validSlices {any} (ns : gmap string (StoredNode any)) (m : gmap nat (list string)) : Prop :=
  map_Forall (λ _ n,
    sliceLow (StoredDependsOn n) + sliceLen (StoredDependsOn n)
      ≤ length (default [] (m !! sliceArray (StoredDependsOn n)))) ns.

(** Two windows that share no element. *)
Definition apart (s t : Slice) : Prop :=
  sliceLen s = 0 ∨ sliceLen t = 0 ∨ sliceArray s ≠ sliceArray t ∨
  sliceLow s + sliceLen s ≤ sliceLow t ∨ sliceLow t + sliceLen t ≤ sliceLow s.

(** No two nodes of [ns] share an element of their dependencies. *)
Definition separate {any} (ns : gmap string (StoredNode any)) : Prop :=
  map_Forall (λ k1 n1,
    map_Forall (λ k2 n2, k1 = k2 ∨ apart (StoredDependsOn n1) (StoredDependsOn n2)) ns) ns.

#[global] Instance validSlices_dec {any} (ns : gmap string (StoredNode any)) m :
  Decision (validSlices ns m).
Proof. unfold validSlices. apply _. Defined.

#[global] Instance separate_dec {any} (ns : gmap string (StoredNode any)) :
  Decision (separate ns).
Proof. unfold separate, apart. apply _. Defined.

(** ** Run functions that are nil or panic

    [Node.Run] may be nil, and a run function may panic instead of
    returning.  Either way the goroutine of [Run] that makes the call
    [node.Run(depResults)] panics and, no [recover] being there, the
    program with it.  [RunGo] is [Run] with such run functions. *)

Section nilable.
Context {any : Type} (nil : any).

(** A [RunFunc] as Go has it: [None] is nil; a call answers [None] when
    it panics. *)
Definition GoRunFunc : Type :=
  option (gmap string (Result any) → option (Result any + string)).

(** [type Node struct { ID string; DependsOn []string; Run RunFunc }] *)
Record GoNode : Type := mkGoNode {
  GoID : string;
  GoDependsOn : list string;
  GoRun : GoRunFunc
}.

(** [type Engine struct] *)
Record GoEngine : Type := mkGoEngine {
  goNodes : gmap string GoNode;
  goResults : gmap string (Result any)
}.

(** [node.Run(depResults)]: [None] is a panic. *)
Definition callRun (f : GoRunFunc) (depResults : gmap string (Result any))
    : option (Result any + string) :=
  match f with
  | None => None
  | Some f => f depResults
  end.

(** The run function of the node is there and returns from every call. *)
Definition returns (n : GoNode) : Prop :=
  ∀ depResults, is_Some (callRun (GoRun n) depResults).

(** The node with what its run function returns.  The planner and the
    resolver read the ID and the dependencies only. *)
Definition returning (n : GoNode) : Node any :=
  mkNode (GoID n) (GoDependsOn n)
    (λ depResults, default (inr "") (callRun (GoRun n) depResults)).

(** A node whose run function is there and returns. *)
Definition ofNode (n : Node any) : GoNode :=
  mkGoNode (ID n) (DependsOn n) (Some (λ depResults, Some (NodeRun n depResults))).

(** The steps of a goroutine, as [goroutineStep] has them; the call
    [node.Run(depResults)] may panic. *)
Definition goroutineStepGo (ns : gmap string GoNode) (st : LevelState any) (i : nat)
    : option (LevelState any) :=
  match goroutines st !! i with
  | Some (Spawned nodeID) =>
      match ns !! nodeID with
      | None => None
      | Some node =>
          let depResults := gatherDeps nil (store st) (GoDependsOn node) in
          Some (mkLevelState (<[i := Running nodeID depResults]> (goroutines st))
                  (store st) (errCh st) (callLog st ++ [(nodeID, depResults)]))
      end
  | Some (Running nodeID depResults) =>
      match ns !! nodeID with
      | None => None
      | Some node =>
          match callRun (GoRun node) depResults with
          | None => None
          | Some (inr err) =>
              Some (mkLevelState (<[i := Exited]> (goroutines st)) (store st)
                      (errCh st ++ [ErrNodeFailed nodeID err]) (callLog st))
          | Some (inl result) =>
              Some (mkLevelState (<[i := Exited]> (goroutines st))
                      (<[nodeID := result]> (store st)) (errCh st) (callLog st))
          end
      end
  | _ => Some st
  end.

Fixpoint goroutineStepsGo (ns : gmap string GoNode) (st : LevelState any) (picks : list nat)
    : option (LevelState any) :=
  match picks with
  | [] => Some st
  | i :: picks =>
      match goroutineStepGo ns st i with
      | None => None
      | Some st => goroutineStepsGo ns st picks
      end
  end.

Definition runLevelGo (ns : gmap string GoNode) (sched : list nat) (level : list string)
    (rs : gmap string (Result any)) (log : list (call any)) : option (LevelState any) :=
  let level := merge_sort String.le level in
  goroutineStepsGo ns (mkLevelState (Spawned <$> level) rs [] log)
    (sched ++ barrier (length level)).

Fixpoint runLevelsGo (ns : gmap string GoNode) (scheds : list (list nat))
    (levels : list (list string)) (rs : gmap string (Result any)) (log : list (call any))
    : outcome * gmap string (Result any) * list (call any) :=
  match levels with
  | [] => (Returned None, rs, log)
  | level :: levels =>
      match runLevelGo ns (hd [] scheds) level rs log with
      | None => (Panicked, rs, log)
      | Some st =>
          match errCh st with
          | err :: _ => (Returned (Some err), store st, callLog st)
          | [] => runLevelsGo ns (tl scheds) levels (store st) (callLog st)
          end
      end
  end.

(** [func (e *Engine) Run() error] *)
Definition RunGo (o : MapOrders) (scheds : list (list nat)) (e : GoEngine)
    : option (outcome * GoEngine * list (call any)) :=
  match topoSortLevels o (returning <$> goNodes e) with
  | None => None
  | Some (inr err) => Some (Returned (Some err), e, [])
  | Some (inl levels) =>
      let '(out, rs, log) := runLevelsGo (goNodes e) scheds levels (goResults e) [] in
      Some (out, mkGoEngine (goNodes e) rs, log)
  end.

End nilable.

Arguments GoRunFunc : clear implicits.
Arguments GoNode : clear implicits.
Arguments GoEngine : clear implicits.

(** ** Concrete graphs *)
Module Examples.

(** A run function that succeeds (its payload counts the dependency
    results it was handed) and one that fails. *)
Definition ok (id : string) : RunFunc nat := λ deps, inl (mkResult id (size deps)).
Definition boom (id : string) : RunFunc nat := λ _, inr ("boom " +:+ id).

(** The diamond of the specification: A; B and C on A; D on B and C. *)
Definition diamond : gmap string (Node nat) :=
  list_to_map [("A", mkNode "A" [] (ok "A")); ("B", mkNode "B" ["A"] (ok "B"));
               ("C", mkNode "C" ["A"] (ok "C")); ("D", mkNode "D" ["C"; "B"] (ok "D"))].

(** The same graph with B and C failing. *)
Definition failing : gmap string (Node nat) :=
  list_to_map [("A", mkNode "A" [] (ok "A")); ("B", mkNode "B" ["A"] (boom "B"));
               ("C", mkNode "C" ["A"] (boom "C")); ("D", mkNode "D" ["C"; "B"] (ok "D"))].

(** X and Y depend on each other; A stands apart. *)
Definition cyclic : gmap string (Node nat) :=
  list_to_map [("A", mkNode "A" [] (ok "A")); ("X", mkNode "X" ["Y"] (ok "X"));
               ("Y", mkNode "Y" ["X"] (ok "Y"))].

(** B depends on Z, which is not there. *)
Definition dangling : gmap string (Node nat) :=
  list_to_map [("A", mkNode "A" [] (ok "A")); ("B", mkNode "B" ["A"; "Z"] (ok "B"))].

(** Hints for the four map loops, and an interleaving: in the second
    level the goroutine of index 1 (node C) takes both steps first. *)
Definition orders : MapOrders := mkOrders ["D"; "C"] ["B"] ["C"; "B"; "A"] ["D"].
Definition lastFirst : list (list nat) := [[]; [1; 1]].

(** The failing graph when it is run again.  The run function of A still
    answers the empty map as before, and other maps with an error; that
    of D, which no run of this graph reaches, fails now. *)
Definition moody (id : string) : RunFunc nat :=
  λ deps, if decide (size deps = 0) then inl (mkResult id 0) else inr "not again".
Definition failingAgain : gmap string (Node nat) :=
  list_to_map [("A", mkNode "A" [] (moody "A")); ("B", mkNode "B" ["A"] (boom "B"));
               ("C", mkNode "C" ["A"] (boom "C")); ("D", mkNode "D" ["C"; "B"] (boom "D"))].

(** The diamond when it is run again: every run function answers the
    maps of the size it was called with as before, and other maps with an
    error. *)
Definition picky (id : string) (k : nat) : RunFunc nat :=
  λ deps, if decide (size deps = k) then inl (mkResult id k) else inr "not again".
Definition diamondAgain : gmap string (Node nat) :=
  list_to_map [("A", mkNode "A" [] (picky "A" 0)); ("B", mkNode "B" ["A"] (picky "B" 1));
               ("C", mkNode "C" ["A"] (picky "C" 1)); ("D", mkNode "D" ["C"; "B"] (picky "D" 2))].

(** The diamond with the run function of C nil, and with that of C
    panicking. *)
Definition nilC : gmap string (GoNode nat) :=
  <["C" := mkGoNode "C" ["A"] None]> (ofNode <$> diamond).
Definition panickingC : gmap string (GoNode nat) :=
  <["C" := mkGoNode "C" ["A"] (Some (λ _, None))]> (ofNode <$> diamond).

End Examples.

(** The diamond as it lies in memory, every [DependsOn] a slice literal
    with an array of its own, and two nodes whose slices overlap:
    [x.DependsOn = base[0:2]], [y.DependsOn = base[1:3]]. *)
Module StoredExamples.

Definition memory : gmap nat (list string) :=
  <[1 := ["A"]]> (<[2 := ["A"]]> (<[3 := ["C"; "B"]]> ∅)).

Definition stored : gmap string (StoredNode nat) :=
  <["A" := mkStoredNode "A" (mkSlice 0 0 0) (Examples.ok "A")]>
  (<["B" := mkStoredNode "B" (mkSlice 1 0 1) (Examples.ok "B")]>
  (<["C" := mkStoredNode "C" (mkSlice 2 0 1) (Examples.ok "C")]>
  (<["D" := mkStoredNode "D" (mkSlice 3 0 2) (Examples.ok "D")]> ∅))).

Definition base : gmap nat (list string) := <[0 := ["c"; "b"; "a"]]> ∅.

Definition overlapping : gmap string (StoredNode nat) :=
  <["x" := mkStoredNode "x" (mkSlice 0 0 2) (Examples.ok "x")]>
  (<["y" := mkStoredNode "y" (mkSlice 0 1 2) (Examples.ok "y")]> ∅).

End StoredExamples.


(** * The programs around the engine

    The catalog the node packages register in, the node packages, the
    handlers of the server with the parsing of their query parameter, and
    the test of the catalog. *)

(** ** The catalog: [server/pkg/catalog/catalog.go]

    The package keeps one map, [var nodes = make(map[string]engine.Node)];
    the functions below take it as an argument and return it updated.  A
    panic is returned as its message. *)
Module catalog.
Section catalog.
Context {any : Type}.

(** [func Register(node engine.Node)] *)
Definition Register (node : Node any) (nodes : gmap string (Node any))
    : gmap string (Node any) + string :=
  match nodes !! ID node with
  | Some _ => inr ("duplicate node registration: " +:+ ID node)
  | None => inl (<[ID node := node]> nodes)
  end.

(** [func Get(id string) (engine.Node, bool)]: the pair as an option. *)
Definition Get (id : string) (nodes : gmap string (Node any)) : option (Node any) :=
  nodes !! id.

(** [func All() map[string]engine.Node] *)
Definition All (nodes : gmap string (Node any)) : gmap string (Node any) := nodes.

(** The [init] functions of the node packages, each a call of [Register],
    run one after the other when the program starts; a panic ends the
    program. *)
Fixpoint initAll (inits : list (Node any)) (nodes : gmap string (Node any))
    : gmap string (Node any) + string :=
  match inits with
  | [] => inl nodes
  | node :: inits =>
      match Register node nodes with
      | inl nodes => initAll inits nodes
      | inr panic => inr panic
      end
  end.

End catalog.
End catalog.


(** ** [splitAndTrim] of [server/main.go] *)

(** [s[lo:hi]]; [None] is the panic of a slice out of range. *)
Definition slice (s : string) (lo hi : nat) : option string :=
  if (lo <=? hi) && (hi <=? String.length s)
  then Some (String.substring lo (hi - lo) s)
  else None.

(** [for len(part) > 0 && part[0] == ' ' { part = part[1:] }] *)
Fixpoint trimLeft (part : string) : string :=
  match part with
  | String c rest => if Ascii.eqb c " " then trimLeft rest else part
  | EmptyString => part
  end.

(** [for len(part) > 0 && part[len(part)-1] == ' ' { part = part[:len(part)-1] }];
    every turn shortens [part], so [turns = len(part)] turns are enough. *)
Fixpoint trimRight (turns : nat) (part : string) : string :=
  match turns with
  | O => part
  | S turns =>
      match String.get (String.length part - 1) part with
      | Some c =>
          if (0 <? String.length part) && Ascii.eqb c " "
          then trimRight turns (String.substring 0 (String.length part - 1) part)
          else part
      | None => part
      end
  end.

(** The two trimming loops, one after the other. *)
Definition trimSpaces (part : string) : string :=
  let part := trimLeft part in
  trimRight (String.length part) part.

(** [for i := 0; i <= len(s); i++ { ... }]: [turns] counts the turns left,
    [len(s) + 1] at the start. *)
Fixpoint splitLoop (s : string) (turns : nat) (i start : nat) (result : list string)
    : option (list string) :=
  match turns with
  | O => Some result
  | S turns =>
      cut ← (if i =? String.length s then Some true
             else (λ c, Ascii.eqb c ",") <$> String.get i s);
      if cut : bool
      then
        part ← slice s start i;
        let part := trimSpaces part in
        splitLoop s turns (i + 1) (i + 1)
          (if bool_decide (part ≠ "") then result ++ [part] else result)
      else splitLoop s turns (i + 1) start result
  end.

(** [func splitAndTrim(s string) []string] *)
Definition splitAndTrim (s : string) : option (list string) :=
  splitLoop s (String.length s + 1) 0 0 [].

(** ** The node packages

    What a [Result] carries in [Data any]: nothing, or the [Output] struct
    of one of the node packages, which are different types although they
    all read [type Output struct { Message string }]. *)
Inductive payload : Type :=
  | Nil
  | Output (pkg : string) (Message : string).

(** [func FromDeps(deps map[string]engine.Result) (Output, error)], the
    same in every node package but for the package's [ID] and [Output]:
    the [Message] of the output, or the error text. *)
Definition FromDeps (ID : string) (deps : gmap string (Result payload)) : string + string :=
  match deps !! ID with
  | None => inr (ID +:+ " result not found in deps")
  | Some result =>
      match Data result with
      | Output pkg Message =>
          if bool_decide (pkg = ID) then inl Message
          else inr ("invalid data type for " +:+ ID)
      | Nil => inr ("invalid data type for " +:+ ID)
      end
  end.

Module node1.
Definition ID : string := "node1".
Definition run : RunFunc payload := λ deps,
  inl (mkResult ID (Output ID "node1 completed successfully")).
Definition node : Node payload := mkNode ID [] run.
End node1.

Module node2b.
Definition ID : string := "node2b".
Definition run : RunFunc payload := λ deps,
  match FromDeps node1.ID deps with
  | inr err => inr err
  | inl _ => inl (mkResult ID (Output ID "node2b completed successfully"))
  end.
Definition node : Node payload := mkNode ID [node1.ID] run.
End node2b.

Module node2c.
Definition ID : string := "node2c".
Definition run : RunFunc payload := λ deps,
  match FromDeps node1.ID deps with
  | inr err => inr err
  | inl _ => inl (mkResult ID (Output ID "node2c completed successfully"))
  end.
Definition node : Node payload := mkNode ID [node1.ID] run.
End node2c.

Module node3.
Definition ID : string := "node3".
Definition run : RunFunc payload := λ deps,
  match FromDeps "node2a" deps with
  | inr err => inr err
  | inl _ =>
      match FromDeps node2b.ID deps with
      | inr err => inr err
      | inl _ =>
          match FromDeps node2c.ID deps with
          | inr err => inr err
          | inl _ => inl (mkResult ID (Output ID "node3 completed - all nodes passed"))
          end
      end
  end.
Definition node : Node payload := mkNode ID ["node2a"; node2b.ID; node2c.ID] run.
End node3.

Module node4.
Definition ID : string := "node4".
Definition run : RunFunc payload := λ deps,
  match FromDeps node1.ID deps with
  | inr err => inr err
  | inl _ => inl (mkResult ID (Output ID "node4 completed successfully"))
  end.
Definition node : Node payload := mkNode ID [node1.ID] run.
End node4.

(** ** The handlers of [server/main.go] *)

(** What a handler writes: [respondJSON(w, data)], with the status 200 of
    a response written without one, or [http.Error(w, error, code)]. *)
Inductive Response : Type :=
  | JSON (data : gmap string (Result payload))
  | HttpError (error : string) (code : nat).

Definition StatusBadRequest : nat := 400.
Definition StatusInternalServerError : nat := 500.

(** The part the three handlers share, from [e.PrettyPrint()] on.  No
    response ([None]) when [Run] panics. *)
Definition runAndRespond (o : MapOrders) (scheds : list (list nat)) (e : Engine payload)
    : option Response :=
  let e := PrettyPrint e in
  match Run Nil o scheds e with
  | Some (Returned (Some err), _, _) =>
      Some (HttpError (Error err) StatusInternalServerError)
  | Some (Returned None, e, _) => Some (JSON (Results e))
  | Some (Panicked, _, _) | None => None
  end.

(** [func handleSmallGraph(builder *engine.Builder) http.HandlerFunc] *)
Definition handleSmallGraph (builder : Builder payload) (o : MapOrders)
    (scheds : list (list nat)) : option Response :=
  match BuildFor builder [node4.ID] with
  | None => None
  | Some (inr err) => Some (HttpError (Error err) StatusInternalServerError)
  | Some (inl e) => runAndRespond o scheds e
  end.

(** [func handleFullGraph(builder *engine.Builder) http.HandlerFunc] *)
Definition handleFullGraph (builder : Builder payload) (o : MapOrders)
    (scheds : list (list nat)) : option Response :=
  match BuildFor builder [node3.ID] with
  | None => None
  | Some (inr err) => Some (HttpError (Error err) StatusInternalServerError)
  | Some (inl e) => runAndRespond o scheds e
  end.

(** [func handleCustomGraph(builder *engine.Builder) http.HandlerFunc];
    [nodesParam] is [r.URL.Query().Get("nodes")], empty when the
    parameter is missing. *)
Definition handleCustomGraph (builder : Builder payload) (nodesParam : string)
    (o : MapOrders) (scheds : list (list nat)) : option Response :=
  if bool_decide (nodesParam = "")
  then Some (HttpError "missing 'nodes' query param (e.g. ?nodes=node2a,node4)"
               StatusBadRequest)
  else
    parts ← splitAndTrim nodesParam;
    let targetNodes := filter (λ n, n ≠ "") parts in
    match BuildFor builder targetNodes with
    | None => None
    | Some (inr err) => Some (HttpError (Error err) StatusBadRequest)
    | Some (inl e) => runAndRespond o scheds e
    end.


(** ** The integrity test of the catalog: [server/graph_test.go]

    [TestGraphIntegrity] runs over [catalog.All()].  What the test reports
    through [t.Fatal] and [t.Errorf] is returned as a list, in the order
    of the calls; the texts are kept as their arguments.  The third
    subtest, which parses the source files of the node packages, is not
    part of this model. *)
Module integrity.

Inductive failure : Type :=
  | NoNodes                                   (* "no nodes registered in catalog" *)
  | MissingDependency (id dep : string)       (* "node %q declares dependency on %q which doesn't exist in catalog" *)
  | CycleDetected (cyclePath : list string).  (* "cycle detected: %v" *)

(** The variables the closure [hasCycle] captures. *)
Record search : Type := mkSearch {
  visited : gmap string bool;
  recStack : gmap string bool;
  cyclePath : list string
}.

(** [m[k]] for a [map[string]bool]: [false] for a missing key. *)
Definition flag (m : gmap string bool) (k : string) : bool := default false (m !! k).

Section integrity.
Context {any : Type}.
Implicit Types (nodes : gmap string (Node any)) (st : search).

(** The subtest [dependencies_exist]. *)
Definition dependencies_exist (hint : list string) nodes : list failure :=
  '(id, node) ← range hint nodes;
  dep ← DependsOn node;
  match nodes !! dep with
  | Some _ => []
  | None => [MissingDependency id dep]
  end.

(** The loop [for _, dep := range nodes[id].DependsOn] of [hasCycle], the
    recursive call passed as [hasCycle]. *)
Fixpoint visit (hasCycle : string → search → option (bool * search))
    (deps : list string) st : option (bool * search) :=
  match deps with
  | [] => Some (false, st)
  | dep :: deps =>
      if negb (flag (visited st) dep) then
        match hasCycle dep st with
        | Some (false, st) => visit hasCycle deps st
        | found => found
        end
      else if flag (recStack st) dep then
        Some (true, mkSearch (visited st) (recStack st) (cyclePath st ++ [dep]))
      else visit hasCycle deps st
  end.

(** [hasCycle = func(id string) bool], with the captured variables passed
    in and out.  [nodes[id]] is the zero [Node], without dependencies,
    for an [id] that is no key.  No result ([None]) when the recursion is
    deeper than [depth]. *)
Fixpoint hasCycle (depth : nat) nodes (id : string) st : option (bool * search) :=
  match depth with
  | O => None
  | S depth =>
      let st := mkSearch (<[id := true]> (visited st)) (<[id := true]> (recStack st))
                  (cyclePath st ++ [id]) in
      match visit (hasCycle depth nodes) (from_option DependsOn [] (nodes !! id)) st with
      | Some (false, st) =>
          Some (false, mkSearch (visited st) (<[id := false]> (recStack st))
                         (take (length (cyclePath st) - 1) (cyclePath st)))
      | found => found
      end
  end.

(** [for id := range nodes { if !visited[id] && hasCycle(id) { ...; break } }] *)
Fixpoint searchAll (depth : nat) nodes (ids : list string) st : option (list failure) :=
  match ids with
  | [] => Some []
  | id :: ids =>
      if flag (visited st) id then searchAll depth nodes ids st
      else
        match hasCycle depth nodes id st with
        | None => None
        | Some (true, st) => Some [CycleDetected (cyclePath st)]
        | Some (false, st) => searchAll depth nodes ids st
        end
  end.

(** Every string the search can meet: the keys and the dependencies. *)
Definition ids nodes : gset string :=
  dom nodes ∪ list_to_set (map_to_list nodes ≫= λ kn, DependsOn kn.2).

(** The subtest [no_cycles].  The recursion of [hasCycle] is given the
    depth [size (ids nodes)]. *)
Definition no_cycles (hint : list string) nodes : option (list failure) :=
  searchAll (size (ids nodes)) nodes (rangeKeys hint nodes) (mkSearch ∅ ∅ []).

(** [func TestGraphIntegrity(t *testing.T)], its first two subtests;
    [nodes] is [catalog.All()]. *)
Definition TestGraphIntegrity (hint1 hint2 : list string) nodes : option (list failure) :=
  if decide (size nodes = 0) then Some [NoNodes]
  else (dependencies_exist hint1 nodes ++.) <$> no_cycles hint2 nodes.

End integrity.
End integrity.

(** ** Vocabulary of the search for cycles *)

(** Each element of the list is related to the next. *)
Fixpoint chain {A} (R : relation A) (l : list A) : Prop :=
  match l with
  | a :: (b :: _) as l' => R a b ∧ chain R l'
  | _ => True
  end.

(** The path printed for a cycle: a chain of dependencies whose last
    node has been met before on it, and on which no other node repeats. *)
Definition cycleFound {any} (nodes : gmap string (Node any)) (path : list string) : Prop :=
  ∃ pre a mid, path = pre ++ a :: mid ++ [a] ∧
    chain (dependsOn nodes) path ∧ NoDup (pre ++ a :: mid).

(** The search is done with [k]: visited and off the recursion stack. *)
Definition black (st : integrity.search) (k : string) : Prop :=
  integrity.flag (integrity.visited st) k = true ∧
  integrity.flag (integrity.recStack st) k = false.

(** The ids not visited yet. *)
Definition unvisited {any} (nodes : gmap string (Node any)) (st : integrity.search)
    : gset string :=
  filter (λ k, integrity.flag (integrity.visited st) k = false) (integrity.ids nodes).

(** What holds of the captured variables between the steps of the search:
    the recursion stack is the path, a chain of dependencies of visited
    nodes; the nodes done depend on nodes done only and lie on no cycle. *)
Record searchInv {any} (nodes : gmap string (Node any)) (st : integrity.search) : Prop := {
  search_stack : ∀ k, integrity.flag (integrity.recStack st) k = true ↔ k ∈ integrity.cyclePath st;
  search_visited : ∀ k, k ∈ integrity.cyclePath st → integrity.flag (integrity.visited st) k = true;
  search_ids : ∀ k, integrity.flag (integrity.visited st) k = true → k ∈ integrity.ids nodes;
  search_chain : chain (dependsOn nodes) (integrity.cyclePath st);
  search_NoDup : NoDup (integrity.cyclePath st);
  search_closed : ∀ k d, black st k → dependsOn nodes k d → black st d;
  search_acyclic : ∀ k, black st k → ¬ tc (dependsOn nodes) k k
}.

(** What a part of the search that found no cycle has changed: nothing
    but the nodes visited, which are more. *)
Record searchOn {any} (nodes : gmap string (Node any)) (st st' : integrity.search) : Prop := {
  on_path : integrity.cyclePath st' = integrity.cyclePath st;
  on_stack : ∀ k, integrity.flag (integrity.recStack st') k = integrity.flag (integrity.recStack st) k;
  on_visited : ∀ k, integrity.flag (integrity.visited st) k = true →
                    integrity.flag (integrity.visited st') k = true;
  on_inv : searchInv nodes st'
}.

(** ** Further vocabulary of the proofs *)

(** [rs] holds, for every node of [ns], the result its run function
    returns on the results [rs] holds for its dependencies. *)
Definition solves {any} (nil : any) (ns : gmap string (Node any))
    (rs : gmap string (Result any)) : Prop :=
  ∀ id n, ns !! id = Some n →
    ∃ r, NodeRun n (gatherDeps nil rs (DependsOn n)) = inl r ∧ rs !! id = Some r.

(** Two node maps that differ at most in the order in which their nodes
    list the dependencies. *)
Definition sameGraph {any} (ns ns' : gmap string (Node any)) : Prop :=
  ∀ k, option_Forall2 (λ n n', ID n = ID n' ∧ NodeRun n = NodeRun n' ∧
                               DependsOn n ≡ₚ DependsOn n') (ns !! k) (ns' !! k).

(** The nodes of [ns'] are those of [ns] but for their run functions:
    what a closure answers when it is called again may be something
    else. *)
Definition sameNodes {any} (ns ns' : gmap string (Node any)) : Prop :=
  ∀ k, option_Forall2 (λ n n', ID n = ID n' ∧ DependsOn n = DependsOn n')
                      (ns !! k) (ns' !! k).

(** The run functions of [ns'] answer the calls of [log] as those of
    [ns] do. *)
Definition answersAlike {any} (ns ns' : gmap string (Node any))
    (log : list (call any)) : Prop :=
  ∀ id deps n n', (id, deps) ∈ log → ns !! id = Some n → ns' !! id = Some n' →
    NodeRun n' deps = NodeRun n deps.

(** The characters of a string. *)
Definition chars (s : string) : list ascii := list_ascii_of_string s.

(** What a part [splitAndTrim] returns looks like: not empty, no comma,
    no space at either end. *)
Definition trimmed (p : string) : Prop :=
  p ≠ "" ∧ (","%char ∉ chars p) ∧ (head (chars p) ≠ Some " "%char) ∧
  (last (chars p) ≠ Some " "%char).

(** [n] spaces. *)
Fixpoint spaces (n : nat) : string :=
  match n with O => "" | S n => String " " (spaces n) end.

(** The pieces of [s] between its commas. *)
Fixpoint fields (s : string) : list string :=
  match s with
  | EmptyString => [""]
  | String c s =>
      if Ascii.eqb c ","
      then "" :: fields s
      else match fields s with
           | f :: fs => String c f :: fs
           | [] => [String c ""]
           end
  end.

#[global] Instance trimmed_dec (p : string) : Decision (trimmed p).
Proof. unfold trimmed. apply _. Defined.

(** The nodes of the small graph and the results they leave. *)
Definition smallGraph : gmap string (Node payload) :=
  <[node1.ID := node1.node]> (<[node4.ID := node4.node]> ∅).

Definition smallResults : gmap string (Result payload) :=
  <[node1.ID := mkResult node1.ID (Output node1.ID "node1 completed successfully")]>
    (<[node4.ID := mkResult node4.ID (Output node4.ID "node4 completed successfully")]> ∅).

(** ** What the handlers answer

    The answer to a request for the graph of [targets], told from the
    catalog and the run functions alone. *)




(** ** A catalog of the node packages at hand *)
Module Server.

(** The [init] functions of the packages whose source is at hand, in the
    order of the imports; the package node2a is not among them. *)
Definition inits : list (Node payload) :=
  [node1.node; node2b.node; node2c.node; node3.node; node4.node].

Definition registered : gmap string (Node payload) :=
  match catalog.initAll inits ∅ with
  | inl nodes => catalog.All nodes
  | inr _ => ∅
  end.

Definition builder : Builder payload := NewBuilder registered.

End Server.


Local Open Scope Z_scope.

(** * Proofs *)

(** ** Lists *)
Section list_facts.
Context {A : Type}.
Implicit Types (l : list A).

Lemma filter_all (P : A → Prop) `{!∀ x, Decision (P x)} l :
  Forall P l → filter P l = l.
Proof.
  induction 1 as [|x l Hx _ IH]; [done | ].
  by rewrite filter_cons_True, IH.
Qed.

Lemma filter_none (P : A → Prop) `{!∀ x, Decision (P x)} l :
  Forall (λ x, ¬ P x) l → filter P l = [].
Proof.
  induction 1 as [|x l Hx _ IH]; [done | ].
  by rewrite filter_cons_False.
Qed.

Lemma remove_dups_id `{!EqDecision A} l : NoDup l → remove_dups l = l.
Proof.
  induction 1 as [|x l Hx _ IH]; [done | ].
  cbn. destruct (decide_rel elem_of x l); [done | ]. by rewrite IH.
Qed.
End list_facts.

(** ** Facts about [range] *)
Section range_facts.
Context {V : Type}.
Implicit Types (m : gmap string V) (hint ks : list string).

Lemma rangeKeys_NoDup hint m : NoDup (rangeKeys hint m).
Proof.
  unfold rangeKeys. apply NoDup_app. split_and!.
  - apply NoDup_remove_dups.
  - intros k Hk [Hk' _]%list_elem_of_filter. done.
  - apply NoDup_filter, NoDup_fst_map_to_list.
Qed.

Lemma elem_of_rangeKeys hint m k : k ∈ rangeKeys hint m ↔ is_Some (m !! k).
Proof.
  unfold rangeKeys. rewrite elem_of_app, elem_of_remove_dups, !list_elem_of_filter.
  rewrite elem_of_remove_dups, list_elem_of_filter.
  split.
  - intros [[? _]|[_ Hk]]; [done| ].
    apply list_elem_of_fmap in Hk as [[k' v] [-> Hk]].
    apply elem_of_map_to_list in Hk. by eexists.
  - intros [v Hv].
    destruct (decide (k ∈ hint)) as [Hin|Hin]; [left; eauto| ].
    right. split; [tauto| ].
    apply list_elem_of_fmap. exists (k, v). split; [done| ].
    by apply elem_of_map_to_list.
Qed.

Lemma rangeKeys_Permutation hint m : rangeKeys hint m ≡ₚ (map_to_list m).*1.
Proof.
  apply NoDup_Permutation; [apply rangeKeys_NoDup|apply NoDup_fst_map_to_list| ].
  intros k. rewrite elem_of_rangeKeys. split.
  - intros [v Hv]. apply list_elem_of_fmap. exists (k, v).
    split; [done| ]. by apply elem_of_map_to_list.
  - intros [[k' v] [-> Hk]]%list_elem_of_fmap.
    apply elem_of_map_to_list in Hk. by eexists.
Qed.

Lemma range_fst hint m : (range hint m).*1 = rangeKeys hint m.
Proof.
  unfold range.
  assert (Hall : Forall (λ k, is_Some (m !! k)) (rangeKeys hint m)).
  { apply Forall_forall. intros k. by rewrite elem_of_rangeKeys. }
  induction Hall as [|k ks [v Hv] _ IH]; [done| ].
  cbn. rewrite Hv. cbn. by rewrite IH.
Qed.

Lemma elem_of_range hint m k v : (k, v) ∈ range hint m ↔ m !! k = Some v.
Proof.
  unfold range. rewrite list_elem_of_omap. split.
  - intros (k' & _ & Hk'). destruct (m !! k') eqn:E; simplify_eq/=. done.
  - intros Hv. exists k. split; [|by rewrite Hv].
    apply elem_of_rangeKeys. by eexists.
Qed.

Lemma range_NoDup_fst hint m : NoDup (range hint m).*1.
Proof. rewrite range_fst. apply rangeKeys_NoDup. Qed.

Lemma range_Permutation hint m : range hint m ≡ₚ map_to_list m.
Proof.
  apply NoDup_Permutation.
  - eapply NoDup_fmap_1, range_NoDup_fst.
  - apply NoDup_map_to_list.
  - intros [k v]. by rewrite elem_of_range, elem_of_map_to_list.
Qed.

(** Every order in which the entries of [m] can be met is a [range]. *)
Lemma range_any_order m (es : list (string * V)) :
  es ≡ₚ map_to_list m → range es.*1 m = es.
Proof.
  intros Hes.
  assert (Hnd : NoDup es.*1).
  { rewrite Hes. apply NoDup_fst_map_to_list. }
  assert (Hin : ∀ k v, (k, v) ∈ es → m !! k = Some v).
  { intros k v. rewrite Hes. apply elem_of_map_to_list. }
  assert (Hks : rangeKeys es.*1 m = es.*1).
  { unfold rangeKeys. rewrite filter_all.
    - rewrite remove_dups_id by done. rewrite filter_none; [apply app_nil_r | ].
      apply Forall_forall. intros k Hk Hk'. apply Hk'. by rewrite Hes.
    - apply Forall_forall. intros k [[k' v] [-> Hk]]%list_elem_of_fmap.
      cbn. rewrite (Hin _ _ Hk). by eexists. }
  unfold range. rewrite Hks. clear Hks Hes Hnd.
  induction es as [|[k v] es IH]; [done | ].
  cbn. rewrite (Hin k v) by left. cbn. f_equal. apply IH.
  intros k' v' ?. apply Hin. by right.
Qed.
End range_facts.

(** ** The counters of the level loop *)

Lemma occ_nil k : occ k [] = 0%nat.
Proof. done. Qed.

Lemma occ_cons k x l :
  occ k (x :: l) = ((if decide (x = k) then 1 else 0) + occ k l)%nat.
Proof. unfold occ. rewrite filter_cons. by destruct (decide (x = k)). Qed.

Lemma occ_app k l1 l2 : occ k (l1 ++ l2) = (occ k l1 + occ k l2)%nat.
Proof. unfold occ. by rewrite filter_app, length_app. Qed.

Lemma occ_pos k l : (0 < occ k l)%nat ↔ k ∈ l.
Proof.
  induction l as [|x l IH]; [rewrite occ_nil, elem_of_nil; lia | ].
  rewrite occ_cons, elem_of_cons. destruct (decide (x = k)); [ | rewrite <- IH; cbn ].
  - split; [auto | lia].
  - split; [tauto | ]. intros [?|?]; [congruence | done].
Qed.

Lemma occ_zero k l : k ∉ l → occ k l = 0%nat.
Proof. rewrite <- occ_pos. lia. Qed.

Lemma deg_insert m k v k' :
  deg (<[k := v]> m) k' = if decide (k = k') then v else deg m k'.
Proof. unfold deg. rewrite lookup_insert. by destruct (decide (k = k')). Qed.

Lemma decrement_eq m next d :
  decrement (m, next) d =
    (<[d := deg m d - 1]> m, if deg m d - 1 =? 0 then next ++ [d] else next).
Proof. done. Qed.

(** The whole of a run of [decrement]s: every counter drops by the number
    of times its key came by, and the keys appended are those whose
    counter was positive and came down to zero, each once. *)
Lemma foldl_decrement D : ∀ m next,
  (∀ k, (foldl decrement (m, next) D).1 !! k =
        if decide (k ∈ D) then Some (deg m k - Z.of_nat (occ k D)) else m !! k) ∧
  ∃ new, (foldl decrement (m, next) D).2 = next ++ new ∧ NoDup new ∧
         ∀ k, k ∈ new ↔ 1 ≤ deg m k ≤ Z.of_nat (occ k D).
Proof.
  induction D as [|d D IH]; intros m next.
  { split; [done | ]. exists []. rewrite app_nil_r. split_and!; [done|constructor| ].
    intros k. split; [by intros ?%elem_of_nil | rewrite occ_nil; lia]. }
  cbn [foldl]. rewrite decrement_eq.
  destruct (IH (<[d := deg m d - 1]> m)
              (if deg m d - 1 =? 0 then next ++ [d] else next)) as [Hm (new & Hnext & Hnd & Hnew)].
  split.
  - intros k. rewrite Hm, deg_insert, lookup_insert, occ_cons.
    destruct (decide (d = k)) as [->|Hne].
    + rewrite (decide_True (P := k ∈ k :: D)) by left.
      destruct (decide (k ∈ D)); f_equal; [lia | ].
      rewrite occ_zero by done. lia.
    + destruct (decide (k ∈ D)) as [Hin|Hin], (decide (k ∈ d :: D)) as [Hin'|Hin'];
        try done.
      * exfalso. apply Hin'. by right.
      * apply elem_of_cons in Hin' as [?|?]; congruence.
  - exists ((if deg m d - 1 =? 0 then [d] else []) ++ new). split_and!.
    + rewrite Hnext. destruct (deg m d - 1 =? 0); by rewrite <- ?app_assoc.
    + destruct (Z.eqb_spec (deg m d - 1) 0) as [Hz|Hz]; [ | done].
      apply NoDup_cons. split; [ | done]. rewrite Hnew, deg_insert, decide_True by done. lia.
    + intros k. rewrite elem_of_app, Hnew, deg_insert, occ_cons.
      destruct (decide (d = k)) as [->|Hne].
      * destruct (Z.eqb_spec (deg m k - 1) 0) as [Hz|Hz].
        -- split; [intros _; lia | intros _; left; by apply list_elem_of_singleton].
        -- split; [intros [[]%elem_of_nil|?]; lia | intros ?; right; lia].
      * destruct (deg m d - 1 =? 0);
          [rewrite list_elem_of_singleton | rewrite elem_of_nil]; cbn; split; try tauto.
        intros [?|?]; [congruence | done].
Qed.

Lemma deg_foldl_decrement D m next k :
  deg (foldl decrement (m, next) D).1 k = deg m k - Z.of_nat (occ k D).
Proof.
  unfold deg at 1. rewrite (proj1 (foldl_decrement D m next)).
  destruct (decide (k ∈ D)); [done | ]. rewrite occ_zero by done.
  unfold deg. lia.
Qed.

Lemma processLevel_fanout dependents m level :
  processLevel dependents m level = foldl decrement (m, []) (fanout dependents level).
Proof.
  unfold processLevel, fanout. generalize (m, @nil string).
  induction level as [|id level IH]; intros st; [done | ].
  cbn. by rewrite foldl_app, IH.
Qed.

Lemma elem_of_positive m k : k ∈ positive m ↔ 0 < deg m k.
Proof.
  unfold positive, deg. rewrite elem_of_dom. unfold is_Some.
  setoid_rewrite map_lookup_filter_Some. cbn. split.
  - intros (v & -> & ?). done.
  - destruct (m !! k) as [v|]; cbn; [eauto | lia].
Qed.

Lemma positive_size m : (size (positive m) ≤ size m)%nat.
Proof.
  rewrite <- (size_dom (D := gset string) m). apply subseteq_size.
  unfold positive. apply subseteq_dom, map_filter_subseteq.
Qed.

Lemma processLevel_measure dependents m level :
  (size (positive (processLevel dependents m level).1)
     + length (processLevel dependents m level).2 ≤ size (positive m))%nat.
Proof.
  rewrite processLevel_fanout. set (D := fanout dependents level).
  destruct (foldl_decrement D m []) as [_ (new & -> & Hnd & Hnew)]. cbn [app].
  rewrite <- (size_list_to_set (C := gset string) new) by done.
  rewrite <- size_union.
  - apply subseteq_size. intros k. rewrite elem_of_union, elem_of_list_to_set.
    rewrite !elem_of_positive, deg_foldl_decrement, Hnew. lia.
  - apply elem_of_disjoint. intros k.
    rewrite elem_of_list_to_set, elem_of_positive, deg_foldl_decrement, Hnew. lia.
Qed.

(** The level loop ends: a turn that finds a next level has brought at
    least one positive counter to zero. *)
Lemma levelLoop_terminates fuel dependents : ∀ m level levels processed,
  level = [] ∨ (size (positive m) < fuel)%nat →
  is_Some (levelLoop fuel dependents m level levels processed).
Proof.
  induction fuel as [|fuel IH]; intros m level levels processed Hfuel.
  { destruct level; [by eexists | ]. destruct Hfuel; [done | lia]. }
  destruct level as [|id level]; [by eexists | ].
  cbn [levelLoop]. apply IH.
  destruct Hfuel as [? | Hfuel]; [done | ].
  pose proof (processLevel_measure dependents m (id :: level)) as Hm.
  destruct (processLevel dependents m (id :: level)) as [m' next].
  cbn [fst snd] in *. destruct next; [by left | right].
  cbn [length] in Hm. lia.
Qed.

(** ** The loops before the level loop *)
Section setup.
Context {any : Type}.
Implicit Types (ns : gmap string (Node any)) (es : list (string * Node any)).

Lemma initInDegree_lookup es k :
  initInDegree es !! k = if decide (k ∈ es.*1) then Some 0 else None.
Proof.
  unfold initInDegree.
  enough (H : ∀ m : gmap string Z,
    foldl (λ inDegree e, <[e.1 := 0]> inDegree) m es !! k =
      if decide (k ∈ es.*1) then Some 0 else m !! k) by apply H.
  induction es as [|[k' n] es IH]; intros m; [done | ].
  cbn [foldl fst]. rewrite IH, lookup_insert. cbn [fmap list_fmap fst].
  destruct (decide (k ∈ es.*1)) as [Hk|Hk].
  - rewrite decide_True; [done | by right].
  - destruct (decide (k' = k)) as [->|Hne].
    + rewrite decide_True; [done | by left].
    + rewrite decide_False; [done | ]. intros [?|?]%elem_of_cons; congruence.
Qed.

Lemma checkDeps_spec ns es : ∀ inDegree,
  match checkDeps ns es inDegree with
  | inl m =>
      m = countDeps es inDegree ∧
      ∀ k n d, (k, n) ∈ es → d ∈ DependsOn n → is_Some (ns !! d)
  | inr err =>
      ∃ k n d, (k, n) ∈ es ∧ d ∈ DependsOn n ∧ ns !! d = None ∧
               err = ErrUnknownDependency (ID n) d
  end.
Proof.
  induction es as [|[k n] es IH]; intros inDegree; cbn [checkDeps].
  { split; [done | ]. intros ??? []%elem_of_nil. }
  destruct (list_find _ (DependsOn n)) as [[i d]|] eqn:Hfind.
  - apply list_find_Some in Hfind as (Hd & Hnone & _).
    exists k, n, d. split_and!; [left | by eapply list_elem_of_lookup_2 | done | done].
  - specialize (IH (<[ID n := Z.of_nat (length (DependsOn n))]> inDegree)).
    destruct (checkDeps ns es _) as [m|err].
    + destruct IH as [-> IH]. split; [done | ].
      intros k' n' d [[= -> ->]|Hin]%elem_of_cons Hd; [ | by eapply IH].
      apply list_find_None in Hfind. rewrite Forall_forall in Hfind.
      apply not_eq_None_Some. by apply Hfind.
    + destruct IH as (k' & n' & d & ? & ? & ? & ?). exists k', n', d.
      split_and!; [by right | done..].
Qed.

Lemma countDeps_lookup es : ∀ m k,
  NoDup es.*1 → (∀ k n, (k, n) ∈ es → ID n = k) →
  countDeps es m !! k =
    match list_to_map (M := gmap string (Node any)) es !! k with
    | Some n => Some (Z.of_nat (length (DependsOn n)))
    | None => m !! k
    end.
Proof.
  unfold countDeps.
  induction es as [|[k' n] es IH]; intros m k Hnd Hkey; [done | ].
  cbn [foldl fmap list_fmap fst snd] in *. apply NoDup_cons in Hnd as [Hk' Hnd].
  rewrite IH; [ | done | intros ???; apply Hkey; by right].
  rewrite (Hkey k' n) by left. cbn [list_to_map foldr]. cbn.
  rewrite !lookup_insert. destruct (decide (k' = k)) as [->|Hne]; [ | done].
  by rewrite (not_elem_of_list_to_map_1 _ _ Hk').
Qed.

Lemma list_to_map_range hint ns : list_to_map (range hint ns) = ns.
Proof.
  rewrite (list_to_map_proper _ (map_to_list ns)).
  - apply list_to_map_to_list.
  - apply range_NoDup_fst.
  - apply range_Permutation.
Qed.

Lemma keyed_range hint ns k n : keyed ns → (k, n) ∈ range hint ns → ID n = k.
Proof. intros Hkey Hin%elem_of_range. by apply (Hkey k n). Qed.

(** With every node under its own ID, [inDegree] counts the declared
    dependencies of each node. *)
Lemma inDegree_keyed h1 h2 ns k :
  keyed ns →
  countDeps (range h2 ns) (initInDegree (range h1 ns)) !! k =
    (λ n, Z.of_nat (length (DependsOn n))) <$> ns !! k.
Proof.
  intros Hkey. rewrite countDeps_lookup.
  - rewrite list_to_map_range. destruct (ns !! k) as [n|] eqn:Hk; [done | ].
    rewrite initInDegree_lookup, decide_False; [done | ].
    rewrite range_fst, elem_of_rangeKeys, Hk. by intros [??].
  - apply range_NoDup_fst.
  - intros ??. by apply keyed_range.
Qed.

Lemma firstLevel_NoDup hint (m : gmap string Z) : NoDup (firstLevel (range hint m)).
Proof.
  unfold firstLevel. apply (sublist_NoDup _ (range hint m).*1).
  - apply range_NoDup_fst.
  - apply fmap_sublist, sublist_filter.
Qed.

Lemma elem_of_firstLevel hint (m : gmap string Z) k :
  k ∈ firstLevel (range hint m) ↔ m !! k = Some 0.
Proof.
  unfold firstLevel. rewrite list_elem_of_fmap. split.
  - intros ([k' v] & -> & [Hv Hin]%list_elem_of_filter). cbn in *. subst v.
    by apply elem_of_range in Hin.
  - intros Hk. exists (k, 0). split; [done | ].
    apply list_elem_of_filter. split; [done | ]. by apply elem_of_range.
Qed.

(** How often [k] is listed among the dependents of [d]. *)
Lemma addDependent_occ id k d deps : ∀ dependents,
  occ k (default [] (foldl (addDependent id) dependents deps !! d)) =
    (occ k (default [] (dependents !! d))
       + if decide (id = k) then occ d deps else 0)%nat.
Proof.
  induction deps as [|x deps IH]; intros dependents.
  { cbn. destruct (decide (id = k)); rewrite ?occ_nil; lia. }
  cbn [foldl]. rewrite IH. unfold addDependent. rewrite lookup_insert, occ_cons.
  destruct (decide (x = d)) as [->|Hne]; cbn [default from_option Datatypes.id].
  - rewrite occ_app, occ_cons, occ_nil. destruct (decide (id = k)); lia.
  - destruct (decide (id = k)); lia.
Qed.

Lemma buildDependents_occ es k d :
  occ k (default [] (buildDependents es !! d)) =
    sum_list_with (λ e, if decide (ID e.2 = k) then occ d (DependsOn e.2) else 0%nat) es.
Proof.
  unfold buildDependents.
  enough (H : ∀ dependents : gmap string (list string),
    occ k (default [] (foldl (λ dependents e,
        foldl (addDependent (ID e.2)) dependents (DependsOn e.2)) dependents es !! d)) =
    (occ k (default [] (dependents !! d)) +
      sum_list_with (λ e, if decide (ID e.2 = k) then occ d (DependsOn e.2) else 0%nat) es)%nat).
  { by rewrite H, lookup_empty. }
  induction es as [|e es IH]; intros dependents; cbn [foldl sum_list_with]; [lia | ].
  rewrite IH, addDependent_occ. lia.
Qed.

Lemma sum_keyed es (g : Node any → nat) k :
  NoDup es.*1 → (∀ k n, (k, n) ∈ es → ID n = k) →
  sum_list_with (λ e, if decide (ID e.2 = k) then g e.2 else 0%nat) es =
    from_option g 0%nat (list_to_map (M := gmap string (Node any)) es !! k).
Proof.
  induction es as [|[k' n] es IH]; intros Hnd Hkey; [done | ].
  cbn [fmap list_fmap fst snd] in *. apply NoDup_cons in Hnd as [Hk' Hnd].
  cbn [sum_list_with list_to_map foldr snd]. cbn.
  rewrite IH; [ | done | intros ???; apply Hkey; by right].
  rewrite (Hkey k' n) by left. rewrite lookup_insert.
  destruct (decide (k' = k)) as [->|Hne]; [ | done].
  rewrite (not_elem_of_list_to_map_1 _ _ Hk'). cbn. lia.
Qed.

Lemma dependents_keyed hint ns k d :
  keyed ns →
  occ k (default [] (buildDependents (range hint ns) !! d)) =
    from_option (λ n, occ d (DependsOn n)) 0%nat (ns !! k).
Proof.
  intros Hkey.
  rewrite buildDependents_occ, (sum_keyed _ (λ n, occ d (DependsOn n))).
  - by rewrite list_to_map_range.
  - apply range_NoDup_fst.
  - intros ??. by apply keyed_range.
Qed.
End setup.

(** ** The level loop on a keyed, closed node set *)
Section level_loop.
Context {any : Type} (ns : gmap string (Node any)).
Context (dependents : gmap string (list string)).
Implicit Types (n : Node any).
Hypothesis dependents_occ : ∀ k d,
  occ k (default [] (dependents !! d)) =
    from_option (λ n, occ d (DependsOn n)) 0%nat (ns !! k).

Lemma served_nil n : served [] n = 0%nat.
Proof.
  unfold served. rewrite filter_none; [done | ].
  apply Forall_forall. intros d _ []%elem_of_nil.
Qed.

Lemma served_cons x level n :
  x ∉ level → served (x :: level) n = (occ x (DependsOn n) + served level n)%nat.
Proof.
  intros Hx. unfold served, occ.
  induction (DependsOn n) as [|d ds IH]; [done | ].
  rewrite !filter_cons.
  destruct (decide (d = x)) as [->|Hne].
  - rewrite decide_True by left. rewrite decide_False by done. cbn. lia.
  - destruct (decide (d ∈ level)) as [Hd|Hd].
    + rewrite decide_True by (by right). cbn. lia.
    + rewrite decide_False; [done | ]. intros [?|?]%elem_of_cons; congruence.
Qed.

Lemma occ_fanout level k :
  NoDup level →
  occ k (fanout dependents level) = from_option (λ n, served level n) 0%nat (ns !! k).
Proof.
  unfold fanout. induction 1 as [|x level Hx _ IH].
  { destruct (ns !! k) as [n|]; [ | done]. cbn. by rewrite served_nil. }
  rewrite bind_cons, occ_app, IH, dependents_occ.
  destruct (ns !! k) as [n|]; cbn; [ | done]. by rewrite served_cons.
Qed.

Lemma pending_served placed level n :
  (∀ x, x ∈ level → x ∉ placed) →
  pending placed n = (served level n + pending (placed ++ level) n)%nat.
Proof.
  intros Hdisj. unfold pending, served.
  induction (DependsOn n) as [|d ds IH]; [done | ].
  rewrite !filter_cons.
  destruct (decide (d ∈ level)) as [Hd|Hd].
  - rewrite decide_True by auto. rewrite decide_False; [cbn; lia | ].
    rewrite elem_of_app. tauto.
  - destruct (decide (d ∉ placed)) as [Hp|Hp].
    + rewrite decide_True; [cbn; lia | ]. rewrite elem_of_app. tauto.
    + rewrite decide_False; [done | ]. rewrite elem_of_app. tauto.
Qed.

Lemma pending_zero placed n :
  pending placed n = 0%nat ↔ ∀ d, d ∈ DependsOn n → d ∈ placed.
Proof.
  unfold pending. rewrite length_zero_iff_nil. split.
  - intros Hnil d Hd. destruct (decide (d ∈ placed)) as [ | Hp]; [done | ].
    by destruct (filter_nil_not_elem_of _ _ d Hnil Hp).
  - intros Hall. apply filter_none, Forall_forall. intros d Hd Hp. by apply Hp, Hall.
Qed.

Lemma pending_nil n : pending [] n = length (DependsOn n).
Proof.
  unfold pending. f_equal. apply filter_all, Forall_forall. intros d _ []%elem_of_nil.
Qed.

Lemma join_snoc (levels : list (list string)) level :
  mjoin (levels ++ [level]) = mjoin levels ++ level.
Proof. rewrite join_app. cbn. by rewrite app_nil_r. Qed.

Lemma inLevel_join levels k : k ∈ mjoin levels ↔ ∃ i, inLevel levels i k.
Proof.
  rewrite list_elem_of_join. unfold inLevel. split.
  - intros (l & Hk & [i Hi]%list_elem_of_lookup_1). eauto.
  - intros (i & l & Hi & Hk). exists l. split; [done | ]. by eapply list_elem_of_lookup_2.
Qed.

Lemma inLevel_lt levels i k : inLevel levels i k → (i < length levels)%nat.
Proof. intros (l & Hi & _). by eapply lookup_lt_Some. Qed.

Lemma inLevel_snoc levels level i k :
  inLevel (levels ++ [level]) i k ↔
    inLevel levels i k ∨ (i = length levels ∧ k ∈ level).
Proof.
  unfold inLevel. split.
  - intros (l & Hi & Hk). apply lookup_snoc_Some in Hi as [[? Hi]|[-> ->]]; eauto.
  - intros [(l & Hi & Hk)|[-> Hk]].
    + exists l. split; [ | done]. apply lookup_app_l_Some. done.
    + exists level. split; [ | done]. apply list_lookup_middle. done.
Qed.

Lemma levelInv_step inDegree level levels :
  levelInv ns inDegree level levels →
  levelInv ns (processLevel dependents inDegree level).1
           (processLevel dependents inDegree level).2 (levels ++ [level]).
Proof.
  intros [Hnd Hnodes Hdeg Hready Horder].
  rewrite processLevel_fanout. set (D := fanout dependents level).
  assert (Hdeg' : ∀ k, deg (foldl decrement (inDegree, []) D).1 k =
                       deg inDegree k - Z.of_nat (occ k D))
    by (intros; apply deg_foldl_decrement).
  destruct (foldl_decrement D inDegree []) as [_ (new & -> & Hnew_nd & Hnew)].
  cbn [app]. revert Hdeg'. generalize (foldl decrement (inDegree, []) D).1.
  intros inDegree' Hdeg'.
  apply NoDup_app in Hnd as Hnd3. destruct Hnd3 as (_ & Hdisj & Hlevel).
  assert (Hocc : ∀ k, occ k D = from_option (λ n, served level n) 0%nat (ns !! k))
    by (intros; by apply occ_fanout).
  assert (Hsplit : ∀ n, pending (mjoin levels) n =
      (served level n + pending (mjoin levels ++ level) n)%nat).
  { intros n. apply pending_served. intros x Hx Hx'. by apply (Hdisj x). }
  assert (Hnew_nodes : ∀ k, k ∈ new → is_Some (ns !! k)).
  { intros k [Hk1 Hk2]%Hnew. rewrite Hocc in Hk2.
    destruct (ns !! k); [by eexists | cbn in Hk2; lia]. }
  split; rewrite ?join_snoc.
  - apply NoDup_app. split_and!; [done | | done].
    intros k Hk Hk'. destruct (Hnodes k Hk) as [n Hn].
    apply Hnew in Hk'. rewrite (Hdeg k n Hn) in Hk'.
    apply (Hready k n Hn) in Hk. lia.
  - intros k [Hk|Hk]%elem_of_app; auto.
  - intros k n Hn. rewrite Hdeg', (Hdeg k n Hn), Hocc, Hn, (Hsplit n). cbn. lia.
  - intros k n Hn. rewrite elem_of_app, (Hready k n Hn), Hnew, (Hdeg k n Hn), Hocc, Hn.
    rewrite (Hsplit n). cbn. lia.
  - intros i k d [Hi|[-> Hk]]%inLevel_snoc Hdep.
    + destruct (Horder i k d Hi Hdep) as (j & ? & ?). exists j. split; [done | ].
      apply inLevel_snoc. by left.
    + destruct Hdep as (n & Hn & Hd).
      assert (Hp : pending (mjoin levels) n = 0%nat).
      { apply (Hready k n Hn), elem_of_app. by right. }
      rewrite pending_zero in Hp. apply Hp, inLevel_join in Hd as [j Hj].
      exists j. split; [by eapply inLevel_lt | ]. apply inLevel_snoc. by left.
Qed.

(** What the level loop returns: the invariant holds of the levels with
    nothing left to place, and [processed] counts the ids placed. *)
Lemma levelLoop_inv fuel : ∀ inDegree level levels processed levels' processed',
  levelInv ns inDegree level levels →
  levelLoop fuel dependents inDegree level levels processed = Some (levels', processed') →
  (∃ inDegree', levelInv ns inDegree' [] levels') ∧
  processed' = processed + Z.of_nat (length (mjoin levels' ) - length (mjoin levels)) ∧
  (levels ++ match level with [] => [] | _ => [level] end) `prefix_of` levels'.
Proof.
  induction fuel as [|fuel IH]; intros inDegree level levels processed levels' processed' Hinv Hloop.
  - destruct level; [ | done]. cbn in Hloop. simplify_eq.
    split_and!; [by exists inDegree | lia | by rewrite app_nil_r].
  - destruct level as [|id level].
    { cbn in Hloop. simplify_eq.
      split_and!; [by exists inDegree | lia | by rewrite app_nil_r]. }
    cbn [levelLoop] in Hloop. apply levelInv_step in Hinv.
    destruct (IH _ _ _ _ _ _ Hinv Hloop) as (Hex & -> & Hpre).
    split_and!; [done | | ].
    + assert (length (mjoin (levels ++ [id :: level])) ≤ length (mjoin levels'))%nat.
      { destruct Hpre as [rest ->].
        rewrite <- (app_assoc (levels ++ _)), (join_app (levels ++ _)), length_app. lia. }
      rewrite join_snoc, length_app in *. lia.
    + etrans; [ | apply Hpre]. apply prefix_app_r. done.
Qed.
End level_loop.

Section planner.
Context {any : Type}.
Implicit Types (ns : gmap string (Node any)) (levels : list (list string)).

(** [topoSortLevels] always returns. *)
Lemma topoSortLevels_total o ns : is_Some (topoSortLevels o ns).
Proof.
  unfold topoSortLevels. destruct (checkDeps _ _ _) as [inDegree|err]; [ | by eexists].
  destruct (levelLoop_terminates (S (size inDegree))
    (buildDependents (range (ord_dependents o) ns)) inDegree
    (firstLevel (range (ord_level0 o) inDegree)) [] 0) as [[levels processed] ->].
  { right. pose proof (positive_size inDegree). lia. }
  by destruct (bool_decide _); eexists.
Qed.

Lemma closed_dependsOn ns k d : closed ns → dependsOn ns k d → is_Some (ns !! d).
Proof.
  intros Hclosed (n & Hn & Hd). specialize (Hclosed k n Hn). cbn in Hclosed.
  rewrite Forall_forall in Hclosed. auto.
Qed.

(** On an acyclic closed set the dependencies are well founded. *)
Lemma acyclic_sn ns k : closed ns → acyclic ns → sn (dependsOn ns) k.
Proof.
  intros Hclosed Hacyclic. apply tc_finite_sn; [exact Hacyclic | ].
  exists (map_to_list ns).*1. intros d Hd.
  assert (Hsome : is_Some (ns !! d)).
  { induction Hd; eauto using closed_dependsOn. }
  destruct Hsome as [n Hn]. apply list_elem_of_fmap. exists (d, n).
  split; [done | ]. by apply elem_of_map_to_list.
Qed.

Lemma levelInv_complete ns inDegree levels :
  closed ns → acyclic ns → levelInv ns inDegree [] levels →
  ∀ k, is_Some (ns !! k) → k ∈ mjoin levels.
Proof.
  intros Hclosed Hacyclic Hinv k.
  induction (acyclic_sn ns k Hclosed Hacyclic) as [k _ IH]. intros [n Hn].
  rewrite <- (app_nil_r (mjoin levels)). apply (inv_ready _ _ _ _ Hinv k n Hn).
  apply pending_zero. intros d Hd. apply IH.
  - exists n. done.
  - apply (closed_dependsOn ns k); [done | by exists n].
Qed.

Lemma order_tc ns levels :
  (∀ i k d, inLevel levels i k → dependsOn ns k d → ∃ j, (j < i)%nat ∧ inLevel levels j d) →
  ∀ k d, tc (dependsOn ns) k d →
  ∀ i, inLevel levels i k → ∃ j, (j < i)%nat ∧ inLevel levels j d.
Proof.
  intros Horder k d Htc. induction Htc as [k d Hd|k z d Hz _ IH]; intros i Hi.
  - by apply (Horder i k).
  - destruct (Horder i k z Hi Hz) as (j & Hj & Hjz).
    destruct (IH j Hjz) as (j' & ? & ?). exists j'. split; [lia | done].
Qed.

(** A node set all of whose nodes a plan orders has no cycle. *)
Lemma order_acyclic ns levels :
  (∀ i k d, inLevel levels i k → dependsOn ns k d → ∃ j, (j < i)%nat ∧ inLevel levels j d) →
  (∀ k, is_Some (ns !! k) → k ∈ mjoin levels) →
  acyclic ns.
Proof.
  intros Horder Hall k Hcycle.
  assert (Hk : k ∈ mjoin levels).
  { apply Hall. inversion Hcycle as [?? (n & Hn & _)|??? (n & Hn & _)]; by eexists. }
  apply inLevel_join in Hk as [i Hi]. revert k Hcycle Hi.
  induction (lt_wf i) as [i _ IH]. intros k Hcycle Hi.
  destruct (order_tc ns levels Horder k k Hcycle i Hi) as (j & Hj & Hjk).
  by apply (IH j Hj k).
Qed.

Lemma placed_size ns levels :
  NoDup (mjoin levels) → (∀ k, k ∈ mjoin levels → is_Some (ns !! k)) →
  (length (mjoin levels) = size ns ↔ ∀ k, is_Some (ns !! k) → k ∈ mjoin levels).
Proof.
  intros Hnd Hsub. rewrite <- (length_map_to_list ns), <- (length_fmap fst (map_to_list ns)).
  assert (Hkeys : ∀ k, k ∈ (map_to_list ns).*1 ↔ is_Some (ns !! k)).
  { intros k. rewrite list_elem_of_fmap. split.
    - intros ([k' n] & -> & Hin%elem_of_map_to_list). by eexists.
    - intros [n Hn]. exists (k, n). by rewrite elem_of_map_to_list. }
  split.
  - intros Hlen k Hk%Hkeys.
    assert (Hperm : mjoin levels ≡ₚ (map_to_list ns).*1).
    { apply submseteq_length_Permutation; [ | lia].
      apply NoDup_submseteq; [done | ]. intros x Hx. by apply Hkeys, Hsub. }
    by rewrite Hperm.
  - intros Hall. apply Permutation_length, NoDup_Permutation;
      [done | apply NoDup_fst_map_to_list | ].
    intros k. rewrite Hkeys. split; auto.
Qed.

(** The planner on a keyed, closed node set: the levels it builds satisfy
    the invariant of the loop with nothing left, the first level holds the
    nodes without dependencies, and the result is the levels or the cycle
    error according to the number of nodes placed. *)
Lemma topoSortLevels_keyed o ns :
  keyed ns → closed ns →
  ∃ levels inDegree,
    levelInv ns inDegree [] levels ∧
    (∀ k, inLevel levels 0 k ↔ ∃ n, ns !! k = Some n ∧ DependsOn n = []) ∧
    topoSortLevels o ns =
      Some (if decide (length (mjoin levels) = size ns) then inl levels else inr ErrCycle).
Proof.
  intros Hkey Hclosed. unfold topoSortLevels.
  pose proof (checkDeps_spec ns (range (ord_check o) ns)
                (initInDegree (range (ord_init o) ns))) as Hcheck.
  destruct (checkDeps _ _ _) as [inDegree|err].
  2:{ destruct Hcheck as (k & n & d & Hkn%elem_of_range & Hd & Hnone & _).
      destruct (closed_dependsOn ns k d Hclosed) as [? ?]; [by exists n | congruence]. }
  destruct Hcheck as [-> _].
  set (inDegree := countDeps _ _).
  assert (Hdeg : ∀ k, inDegree !! k = (λ n, Z.of_nat (length (DependsOn n))) <$> ns !! k).
  { intros k. by apply inDegree_keyed. }
  set (level0 := firstLevel (range (ord_level0 o) inDegree)).
  set (dependents := buildDependents (range (ord_dependents o) ns)).
  assert (Hlevel0 : ∀ k, k ∈ level0 ↔ ∃ n, ns !! k = Some n ∧ DependsOn n = []).
  { intros k. unfold level0. rewrite elem_of_firstLevel, Hdeg. split.
    - destruct (ns !! k) as [n|]; [ | done]. intros [= Hlen]. exists n.
      split; [done | ]. apply length_zero_iff_nil. lia.
    - intros (n & -> & Hn). cbn. by rewrite Hn. }
  assert (Hinv : levelInv ns inDegree level0 []).
  { split; cbn [mjoin list_join app].
    - apply firstLevel_NoDup.
    - intros k (n & Hn & _)%Hlevel0. by eexists.
    - intros k n Hn. unfold deg. rewrite Hdeg, Hn, pending_nil. done.
    - intros k n Hn. rewrite Hlevel0, Hn, pending_nil, length_zero_iff_nil. split.
      + by intros (n' & [= <-] & ?).
      + intros ?. by exists n.
    - intros i k d (l & Hl & _). done. }
  clearbody level0.
  destruct (levelLoop_terminates (S (size inDegree)) dependents inDegree level0 [] 0)
    as [[levels processed] Hloop].
  { right. pose proof (positive_size inDegree). lia. }
  rewrite Hloop.
  destruct (levelLoop_inv ns dependents (λ k d, dependents_keyed _ ns k d Hkey)
              _ _ _ _ _ _ _ Hinv Hloop) as ([inDegree' Hinv'] & -> & Hpre).
  exists levels, inDegree'. split_and!; [done | | ].
  - intros k. rewrite <- Hlevel0. cbn [app] in Hpre. destruct level0 as [|id level0].
    + cbn in Hloop. simplify_eq. split; [ | by intros ?%elem_of_nil].
      intros (l & Hl & _). done.
    + destruct Hpre as [rest ->]. unfold inLevel. cbn. split.
      * by intros (l & [= <-] & ?).
      * intros ?. by eexists.
  - cbn [mjoin list_join length]. rewrite Nat.sub_0_r, Z.add_0_l.
    destruct (decide (length (mjoin levels) = size ns)) as [Heq|Hne].
    + rewrite bool_decide_eq_false_2; [done | ]. intros Hne. apply Hne. by rewrite Heq.
    + rewrite bool_decide_eq_true_2; [done | ]. intros Heq. apply Hne. lia.
Qed.

Lemma levelInv_plan ns inDegree levels :
  levelInv ns inDegree [] levels →
  (∀ k, inLevel levels 0 k ↔ ∃ n, ns !! k = Some n ∧ DependsOn n = []) →
  (∀ k, is_Some (ns !! k) → k ∈ mjoin levels) →
  planOf ns levels.
Proof.
  intros [Hnd Hnodes _ _ Horder] Hfirst Hall. rewrite app_nil_r in *.
  split; [done | | done | done]. intros k. split; auto.
Qed.

(** Planning an acyclic set succeeds with a plan of the whole set. *)
Lemma topoSortLevels_acyclic o ns :
  keyed ns → closed ns → acyclic ns →
  ∃ levels, topoSortLevels o ns = Some (inl levels) ∧ planOf ns levels.
Proof.
  intros Hkey Hclosed Hacyclic.
  destruct (topoSortLevels_keyed o ns Hkey Hclosed) as (levels & inDegree & Hinv & Hfirst & ->).
  pose proof (levelInv_complete ns inDegree levels Hclosed Hacyclic Hinv) as Hall.
  exists levels. split; [ | by eapply levelInv_plan].
  rewrite decide_True; [done | ].
  destruct Hinv as [Hnd Hnodes _ _ _]. rewrite app_nil_r in *. by apply placed_size.
Qed.

(** Planning a set with a cycle fails with the cycle error. *)
Lemma topoSortLevels_cyclic o ns :
  keyed ns → closed ns → ¬ acyclic ns →
  topoSortLevels o ns = Some (inr ErrCycle).
Proof.
  intros Hkey Hclosed Hcyclic.
  destruct (topoSortLevels_keyed o ns Hkey Hclosed) as (levels & inDegree & Hinv & Hfirst & ->).
  rewrite decide_False; [done | ]. intros Hlen. apply Hcyclic.
  destruct Hinv as [Hnd Hnodes _ _ Horder]. rewrite app_nil_r in *.
  apply (order_acyclic ns levels Horder). by apply placed_size.
Qed.

(** A plan returned for a keyed set is a plan of the whole set, which is
    then closed and acyclic. *)
Lemma topoSortLevels_inl o ns levels :
  keyed ns → topoSortLevels o ns = Some (inl levels) →
  closed ns ∧ acyclic ns ∧ planOf ns levels.
Proof.
  intros Hkey Hplan.
  assert (Hclosed : closed ns).
  { unfold topoSortLevels in Hplan.
    pose proof (checkDeps_spec ns (range (ord_check o) ns)
                  (initInDegree (range (ord_init o) ns))) as Hcheck.
    destruct (checkDeps _ _ _) as [inDegree|err]; [ | done].
    destruct Hcheck as [_ Hcheck]. intros k n Hn. apply Forall_forall. intros d Hd.
    apply (Hcheck k n d); [ | done]. by apply elem_of_range. }
  destruct (topoSortLevels_keyed o ns Hkey Hclosed) as (levels' & inDegree & Hinv & Hfirst & Heq).
  rewrite Hplan in Heq. destruct (decide _) as [Hlen|]; [ | done].
  assert (levels' = levels) as -> by congruence. clear Heq.
  assert (Hall : ∀ k, is_Some (ns !! k) → k ∈ mjoin levels).
  { destruct Hinv as [Hnd Hnodes _ _ _]. rewrite app_nil_r in *. by apply placed_size. }
  split_and!; [done | | by eapply levelInv_plan].
  destruct Hinv as [_ _ _ _ Horder]. by apply (order_acyclic ns levels).
Qed.
End planner.

Local Open Scope nat_scope.

(** ** The executor: one level *)
Section gather.
Context {any : Type} (nil : any).
Implicit Types (rs : gmap string (Result any)) (deps : list string).

Lemma gatherDeps_lookup rs deps d :
  gatherDeps nil rs deps !! d =
    if decide (d ∈ deps) then Some (default (zeroResult nil) (rs !! d)) else None.
Proof.
  unfold gatherDeps.
  enough (H : ∀ m : gmap string (Result any),
    foldl (λ depResults depID,
        <[depID := default (zeroResult nil) (rs !! depID)]> depResults) m deps !! d =
      if decide (d ∈ deps) then Some (default (zeroResult nil) (rs !! d)) else m !! d)
    by apply H.
  induction deps as [|x deps IH]; intros m; [done | ].
  cbn [foldl]. rewrite IH, lookup_insert.
  destruct (decide (d ∈ deps)) as [Hd|Hd].
  - rewrite decide_True; [done | by right].
  - destruct (decide (x = d)) as [->|Hne].
    + rewrite decide_True; [done | by left].
    + rewrite decide_False; [done | ]. intros [?|?]%elem_of_cons; congruence.
Qed.

Lemma gatherDeps_ext rs rs' deps :
  (∀ d, d ∈ deps → rs !! d = rs' !! d) →
  gatherDeps nil rs deps = gatherDeps nil rs' deps.
Proof.
  intros Hext. apply map_eq. intros d. rewrite !gatherDeps_lookup.
  destruct (decide (d ∈ deps)); [ | done]. by rewrite Hext.
Qed.

Lemma gatherDeps_dom rs deps :
  dom (gatherDeps nil rs deps) = list_to_set (C := gset string) deps.
Proof.
  apply set_eq. intros d.
  rewrite elem_of_dom, gatherDeps_lookup, elem_of_list_to_set.
  destruct (decide (d ∈ deps)); split; try done; by eexists.
Qed.
End gather.

Section progress.
Context {any : Type} (nil : any) (ns : gmap string (Node any)).
Implicit Types (st : LevelState any).

Lemma goroutineSteps_app st picks1 picks2 :
  goroutineSteps nil ns st (picks1 ++ picks2) =
    goroutineSteps nil ns st picks1 ≫= λ st, goroutineSteps nil ns st picks2.
Proof.
  revert st. induction picks1 as [|i picks1 IH]; intros st; [done | ].
  cbn. destruct (goroutineStep nil ns st i); [apply IH | done].
Qed.

Lemma goroutineStep_phase st i st' :
  goroutineStep nil ns st i = Some st' →
  ∀ j g, goroutines st !! j = Some g →
    ∃ g', goroutines st' !! j = Some g' ∧ phase g ≤ phase g' ∧
          (j = i → Nat.min 2 (S (phase g)) ≤ phase g').
Proof.
  unfold goroutineStep. intros Hstep j g Hj.
  destruct (goroutines st !! i) as [[id|id deps| ]|] eqn:Hi.
  - destruct (ns !! id) as [n|]; [ | done]. simplify_eq. cbn.
    destruct (decide (j = i)) as [->|Hne].
    + rewrite list_lookup_insert_eq by (by eapply lookup_lt_Some).
      eexists. split; [done | ]. rewrite Hi in Hj. simplify_eq. cbn. lia.
    + rewrite list_lookup_insert_ne by done. exists g. split_and!; [done | lia | done].
  - destruct (ns !! id) as [n|]; [ | done].
    destruct (NodeRun n deps); simplify_eq; cbn.
    all: destruct (decide (j = i)) as [->|Hne];
      [ rewrite list_lookup_insert_eq by (by eapply lookup_lt_Some);
        eexists; split; [done | ]; rewrite Hi in Hj; simplify_eq; cbn; lia
      | rewrite list_lookup_insert_ne by done; exists g; split_and!; [done | lia | done] ].
  - simplify_eq. exists g. split_and!; [done | lia | ].
    intros ->. rewrite Hi in Hj. simplify_eq. cbn. lia.
  - simplify_eq. exists g. split_and!; [done | lia | ].
    intros ->. congruence.
Qed.

Lemma goroutineSteps_phase picks : ∀ st st',
  goroutineSteps nil ns st picks = Some st' →
  ∀ j g, goroutines st !! j = Some g →
    ∃ g', goroutines st' !! j = Some g' ∧ phase g ≤ phase g' ∧
          (j ∈ picks → Nat.min 2 (S (phase g)) ≤ phase g').
Proof.
  induction picks as [|i picks IH]; intros st st' Hsteps j g Hj.
  { cbn in Hsteps. simplify_eq. exists g. split_and!; [done | lia | ].
    by intros ?%elem_of_nil. }
  cbn in Hsteps. destruct (goroutineStep nil ns st i) as [st1|] eqn:Hstep; [ | done].
  destruct (goroutineStep_phase st i st1 Hstep j g Hj) as (g1 & Hg1 & Hle1 & Hi1).
  destruct (IH st1 st' Hsteps j g1 Hg1) as (g' & Hg' & Hle' & Hi').
  exists g'. split_and!; [done | lia | ].
  intros [->|Hin]%elem_of_cons; [specialize (Hi1 eq_refl) | specialize (Hi' Hin)]; lia.
Qed.

(** After the barrier every goroutine has exited. *)
Lemma barrier_exited st sched st' :
  goroutineSteps nil ns st (sched ++ barrier (length (goroutines st))) = Some st' →
  ∀ j, j < length (goroutines st) → goroutines st' !! j = Some Exited.
Proof.
  unfold barrier. rewrite goroutineSteps_app. intros Hsteps j Hj.
  destruct (goroutineSteps nil ns st sched) as [st1|] eqn:H1; [ | done].
  cbn in Hsteps. rewrite goroutineSteps_app in Hsteps.
  destruct (goroutineSteps nil ns st1 (seq 0 _)) as [st2|] eqn:H2; [ | done].
  cbn in Hsteps.
  destruct (lookup_lt_is_Some_2 _ _ Hj) as [g Hg].
  destruct (goroutineSteps_phase _ _ _ H1 j g Hg) as (g1 & Hg1 & ? & _).
  destruct (goroutineSteps_phase _ _ _ H2 j g1 Hg1) as (g2 & Hg2 & ? & Hin2).
  destruct (goroutineSteps_phase _ _ _ Hsteps j g2 Hg2) as (g3 & Hg3 & ? & Hin3).
  assert (Hseq : j ∈ seq 0 (length (goroutines st))) by (apply elem_of_seq; lia).
  specialize (Hin2 Hseq). specialize (Hin3 Hseq).
  rewrite Hg3. f_equal. destruct g3; cbn [phase] in *; [lia | lia | done].
Qed.
End progress.

Section level_run.
Context {any : Type} (nil : any) (ns : gmap string (Node any)).
(** The level, the results and the log when its goroutines are spawned. *)
Context (level : list string) (rs0 : gmap string (Result any)) (log0 : list (call any)).
Implicit Types (st : LevelState any) (c : list (call any)).

(** The level holds nodes, each once, none depending on another of it. *)
Hypothesis level_NoDup : NoDup level.
Hypothesis level_nodes : ∀ id, id ∈ level → is_Some (ns !! id).
Hypothesis level_deps : ∀ id d, id ∈ level → dependsOn ns id d → d ∉ level.

Lemma goroutineInv_mono st c st' c' id n g :
  goroutineInv nil rs0 st c id n g →
  store st' !! id = store st !! id →
  (∀ err, err ∈ errCh st → err ∈ errCh st') →
  (∀ x, x ∈ c.*1 → x ∈ c'.*1) →
  (id ∉ c.*1 → id ∉ c'.*1) →
  goroutineInv nil rs0 st' c' id n g.
Proof.
  intros Hg Hstore Herr Hc Hc'. destruct g as [id'|id' deps| ]; cbn in *.
  - destruct Hg as (-> & ? & ?). split_and!; [done | congruence | auto].
  - destruct Hg as (-> & -> & ? & ?). split_and!; [done | done | congruence | auto].
  - destruct Hg as [? Hg]. split; [auto | ].
    destruct (NodeRun n (gathered nil rs0 n)); [congruence | ].
    destruct Hg. split; [congruence | auto].
Qed.

Lemma gathered_now st c id n :
  levelRunInv nil ns level rs0 log0 st c → id ∈ level → ns !! id = Some n →
  gatherDeps nil (store st) (DependsOn n) = gathered nil rs0 n.
Proof.
  intros Hinv Hid Hn. apply gatherDeps_ext. intros d Hd.
  apply (lri_outside _ _ _ _ _ _ _ Hinv), (level_deps id); [done | by exists n].
Qed.

(** A step of any goroutine keeps the invariant and does not panic. *)
Lemma goroutineStep_inv st c i :
  levelRunInv nil ns level rs0 log0 st c →
  ∃ st' c', goroutineStep nil ns st i = Some st' ∧ levelRunInv nil ns level rs0 log0 st' c'.
Proof.
  intros Hinv. unfold goroutineStep.
  destruct (goroutines st !! i) as [g|] eqn:Hi; [ | by exists st, c].
  assert (Hlt : i < length level).
  { rewrite <- (lri_length _ _ _ _ _ _ _ Hinv). by eapply lookup_lt_Some. }
  destruct (lookup_lt_is_Some_2 _ _ Hlt) as [id Hid].
  assert (Hin : id ∈ level) by (by eapply list_elem_of_lookup_2).
  destruct (lri_goroutines _ _ _ _ _ _ _ Hinv i id Hid) as (n & g' & Hn & Hg' & Hg).
  rewrite Hi in Hg'. simplify_eq.
  assert (Hother : ∀ j idj, level !! j = Some idj → j ≠ i → idj ≠ id).
  { intros j idj Hj Hne ->. apply Hne. by eapply NoDup_lookup. }
  destruct g' as [id'|id' deps| ]; cbn in Hg.
  - (* the goroutine gathers its dependency results *)
    destruct Hg as (-> & Hstore & Hfresh). rewrite Hn.
    rewrite (gathered_now st c id n) by done.
    eexists _, (c ++ [(id, gathered nil rs0 n)]). split; [done | ].
    destruct Hinv as [Hlen Hout Herr Hlog Hnd Hcalls Hgs].
    split; cbn [goroutines store errCh callLog].
    + by rewrite length_insert.
    + done.
    + done.
    + by rewrite Hlog, app_assoc.
    + rewrite fmap_app. apply NoDup_app. split_and!; [done | | apply NoDup_singleton].
      intros x Hx [= ->]%list_elem_of_singleton. done.
    + intros id' deps [?|[= -> ->]%list_elem_of_singleton]%elem_of_app; eauto.
    + intros j idj Hj. destruct (decide (j = i)) as [->|Hne].
      * simplify_eq. exists n. eexists. split; [done | ].
        rewrite list_lookup_insert_eq by (by rewrite Hlen). split; [done | ].
        cbn. split_and!; [done.. | ]. rewrite fmap_app, elem_of_app. right. by left.
      * destruct (Hgs j idj Hj) as (nj & gj & Hnj & Hgj & Hinvj).
        exists nj, gj. rewrite list_lookup_insert_ne by done. split_and!; [done.. | ].
        eapply goroutineInv_mono; [exact Hinvj | done | done | | ].
        -- intros x Hx. rewrite fmap_app, elem_of_app. by left.
        -- intros Hx. rewrite fmap_app, elem_of_app. intros [?|?%list_elem_of_singleton]; [done | ].
           by apply (Hother j idj).
  - (* the run function has returned *)
    destruct Hg as (-> & -> & Hstore & Hcalled). rewrite Hn.
    destruct Hinv as [Hlen Hout Herr Hlog Hnd Hcalls Hgs].
    destruct (NodeRun n (gathered nil rs0 n)) as [r|cause] eqn:Hrun.
    + eexists _, c. split; [done | ].
      split; cbn [goroutines store errCh callLog]; try done.
      * by rewrite length_insert.
      * intros k Hk. rewrite lookup_insert_ne; [auto | ]. by intros ->.
      * intros j idj Hj. destruct (decide (j = i)) as [->|Hne].
        -- simplify_eq. exists n. eexists. split; [done | ].
           rewrite list_lookup_insert_eq by (by rewrite Hlen). split; [done | ].
           cbn. rewrite Hrun. split; [done | ]. by rewrite lookup_insert_eq.
        -- destruct (Hgs j idj Hj) as (nj & gj & Hnj & Hgj & Hinvj).
           exists nj, gj. rewrite list_lookup_insert_ne by done. split_and!; [done.. | ].
           eapply goroutineInv_mono; [exact Hinvj | | done | done | done].
           cbn. rewrite lookup_insert_ne; [done | ]. intros Heq. by apply (Hother j idj).
    + eexists _, c. split; [done | ].
      split; cbn [goroutines store errCh callLog]; try done.
      * by rewrite length_insert.
      * intros err [?|[= ->]%list_elem_of_singleton]%elem_of_app; [auto | ].
        exists id, n, cause. done.
      * intros j idj Hj. destruct (decide (j = i)) as [->|Hne].
        -- simplify_eq. exists n. eexists. split; [done | ].
           rewrite list_lookup_insert_eq by (by rewrite Hlen). split; [done | ].
           cbn. rewrite Hrun. split_and!; [done.. | ]. rewrite elem_of_app. right. by left.
        -- destruct (Hgs j idj Hj) as (nj & gj & Hnj & Hgj & Hinvj).
           exists nj, gj. rewrite list_lookup_insert_ne by done. split_and!; [done.. | ].
           eapply goroutineInv_mono; [exact Hinvj | done | | done | done].
           cbn. intros err Herr'. rewrite elem_of_app. by left.
  - by exists st, c.
Qed.

Lemma goroutineSteps_inv picks : ∀ st c,
  levelRunInv nil ns level rs0 log0 st c →
  ∃ st' c', goroutineSteps nil ns st picks = Some st' ∧ levelRunInv nil ns level rs0 log0 st' c'.
Proof.
  induction picks as [|i picks IH]; intros st c Hinv; [by exists st, c | ].
  cbn. destruct (goroutineStep_inv st c i Hinv) as (st1 & c1 & -> & Hinv1).
  by apply (IH st1 c1).
Qed.

Lemma levelRunInv_spawn :
  levelRunInv nil ns level rs0 log0 (mkLevelState (Spawned <$> level) rs0 [] log0) [].
Proof.
  split; cbn [goroutines store errCh callLog].
  - by rewrite length_fmap.
  - done.
  - by intros ? ?%elem_of_nil.
  - by rewrite app_nil_r.
  - constructor.
  - by intros ?? ?%elem_of_nil.
  - intros i id Hi. destruct (level_nodes id) as [n Hn]; [by eapply list_elem_of_lookup_2 | ].
    exists n, (Spawned id). rewrite list_lookup_fmap, Hi. split_and!; [done.. | ].
    cbn. split_and!; [done.. | ]. by intros ?%elem_of_nil.
Qed.
End level_run.

Section executor.
Context {any : Type} (nil : any) (ns : gmap string (Node any)).
Implicit Types (rs : gmap string (Result any)) (log c : list (call any)).

Lemma runLevel_done sched level rs log :
  NoDup level →
  (∀ id, id ∈ level → is_Some (ns !! id)) →
  (∀ id d, id ∈ level → dependsOn ns id d → d ∉ level) →
  ∃ st c, runLevel nil ns sched level rs log = Some st ∧ levelDone nil ns level rs log st c.
Proof.
  intros Hnd Hnodes Hdeps. unfold runLevel.
  set (sorted := merge_sort String.le level).
  assert (Hperm : sorted ≡ₚ level) by apply merge_sort_Permutation.
  assert (Hin : ∀ x, x ∈ sorted ↔ x ∈ level) by (intros; by rewrite Hperm).
  assert (Hnd' : NoDup sorted).
  { by apply (NoDup_Permutation_proper _ _ Hperm). }
  assert (Hnodes' : ∀ id, id ∈ sorted → is_Some (ns !! id)).
  { intros id Hid. apply Hnodes. by apply (proj1 (Hin id)). }
  assert (Hdeps' : ∀ id d, id ∈ sorted → dependsOn ns id d → d ∉ sorted).
  { intros id d Hid Hd Hd'. apply (Hdeps id d); [ | done | ].
    - by apply (proj1 (Hin id)).
    - by apply (proj1 (Hin d)). }
  pose proof (levelRunInv_spawn nil ns sorted rs log Hnodes') as Hspawn.
  destruct (goroutineSteps_inv nil ns sorted rs log Hnd' Hdeps'
              (sched ++ barrier (length sorted)) _ _ Hspawn) as (st & c & Hsteps & Hinv).
  exists st, c. split; [done | ].
  assert (Hexited : ∀ j, j < length sorted → goroutines st !! j = Some Exited).
  { intros j Hj.
    apply (barrier_exited nil ns (mkLevelState (Spawned <$> sorted) rs [] log) sched);
      cbn [goroutines]; by rewrite length_fmap. }
  destruct Hinv as [Hlen Hout Herr Hlog Hcnd Hcalls Hgs].
  assert (Hdone : ∀ id n, id ∈ sorted → ns !! id = Some n →
    id ∈ c.*1 ∧
    match NodeRun n (gatherDeps nil rs (DependsOn n)) with
    | inl r => store st !! id = Some r
    | inr cause => store st !! id = rs !! id ∧ ErrNodeFailed id cause ∈ errCh st
    end).
  { intros id n [i Hi]%list_elem_of_lookup_1 Hn.
    destruct (Hgs i id Hi) as (n' & g & Hn' & Hg & Hinv). simplify_eq.
    rewrite Hexited in Hg by (by eapply lookup_lt_Some). by simplify_eq. }
  split.
  - done.
  - rewrite <- Hperm. apply NoDup_Permutation; [done.. | ]. intros id. split.
    + intros ([id' deps] & -> & Hc)%list_elem_of_fmap.
      by destruct (Hcalls _ _ Hc) as (n & ? & _).
    + intros Hid. destruct (Hnodes' id Hid) as [n Hn]. by apply (Hdone id n).
  - intros id deps Hc. destruct (Hcalls _ _ Hc) as (n & _ & ? & ?). by exists n.
  - intros k Hk. apply Hout. by rewrite Hin.
  - intros id n ?%Hin Hn. by apply Hdone.
  - intros err Herr'. destruct (Herr err Herr') as (id & n & cause & ?%Hin & ? & ? & ?).
    by exists id, n, cause.
Qed.

Lemma runLevels_post rs0 rest : ∀ scheds placed rs log out rs' log',
  runPre nil ns rs0 placed rest rs log →
  runLevels nil ns scheds rest rs log = (out, rs', log') →
  ∃ ran, runPost nil ns rs0 placed rest ran out rs' log'.
Proof.
  induction rest as [|level rest IH]; intros scheds placed rs log out rs' log' Hpre Hrun.
  { cbn in Hrun. simplify_eq. exists 0.
    destruct Hpre as [Hnd Hnodes Hpdeps Hrdeps Hcalled Hcalls Hout].
    split; cbn [take mjoin list_join length]; rewrite ?app_nil_r; try done.
    - intros id deps Hin. destruct (Hcalls id deps Hin) as (n & r & ? & ? & Hr & ?).
      exists n. by rewrite Hr.
    - split; [done | ]. intros id deps n Hin Hn.
      destruct (Hcalls id deps Hin) as (n' & r & ? & ? & Hr & ?). simplify_eq. by exists r. }
  destruct Hpre as [Hnd Hnodes Hpdeps Hrdeps Hcalled Hcalls Hout].
  cbn [mjoin list_join] in Hnd, Hnodes.
  apply NoDup_app in Hnd as Hnd'. destruct Hnd' as (Hnd_placed & Hdisj & Hnd_rest).
  apply NoDup_app in Hnd_rest as (Hnd_level & Hdisj' & Hnd_rest).
  assert (Hlevel_placed : ∀ k, k ∈ level → k ∉ placed).
  { intros k Hk Hk'. apply (Hdisj k Hk'), elem_of_app. by left. }
  assert (Hlevel_deps : ∀ k d, k ∈ level → dependsOn ns k d → d ∈ placed).
  { intros k d Hk Hd. destruct (Hrdeps 0 k d) as [?|(j & ? & _)]; [ | done | done | lia].
    exists level. done. }
  destruct (runLevel_done (hd [] scheds) level rs log) as (st & c & Hlevel & Hdone).
  { done. }
  { intros id Hid. apply Hnodes, elem_of_app. by left. }
  { intros id d Hid Hd Hd'. by apply (Hlevel_placed d), (Hlevel_deps id). }
  cbn [runLevels] in Hrun. rewrite Hlevel in Hrun.
  destruct Hdone as [Hlog Hc Hccalls Hcout Hcin Hcerr].
  assert (Hgather : ∀ k n, k ∈ placed ++ level → ns !! k = Some n →
    gatherDeps nil rs (DependsOn n) = gatherDeps nil (store st) (DependsOn n)).
  { intros k n Hk Hn. apply gatherDeps_ext. intros d Hd. symmetry. apply Hcout.
    intros Hd'. apply (Hlevel_placed d Hd').
    apply elem_of_app in Hk as [Hk|Hk].
    - apply (Hpdeps k); [done | by exists n].
    - apply (Hlevel_deps k); [done | by exists n]. }
  assert (Hc_level : ∀ id deps, (id, deps) ∈ c → id ∈ level).
  { intros id deps Hin. rewrite <- Hc. apply list_elem_of_fmap. by exists (id, deps). }
  assert (Hlog_placed : ∀ id deps, (id, deps) ∈ log → id ∈ placed).
  { intros id deps Hin. rewrite <- Hcalled. apply list_elem_of_fmap. by exists (id, deps). }
  assert (Hcalls' : ∀ id deps, (id, deps) ∈ log ++ c →
    ∃ n, ns !! id = Some n ∧ deps = gatherDeps nil (store st) (DependsOn n) ∧
      match NodeRun n deps with
      | inl r => store st !! id = Some r
      | inr _ => store st !! id = rs0 !! id
      end).
  { intros id deps [Hin|Hin]%elem_of_app.
    - destruct (Hcalls id deps Hin) as (n & r & Hn & -> & Hr & Hrs). exists n.
      pose proof (Hlog_placed _ _ Hin) as Hid.
      split_and!; [done | apply (Hgather id); [apply elem_of_app; by left | done] | ].
      rewrite Hr, Hcout; [done | ]. intros Hid'. by apply (Hlevel_placed id).
    - destruct (Hccalls id deps Hin) as (n & Hn & ->). exists n.
      pose proof (Hc_level _ _ Hin) as Hid.
      split_and!; [done | apply (Hgather id); [apply elem_of_app; by right | done] | ].
      specialize (Hcin id n Hid Hn). destruct (NodeRun n _); [done | ].
      destruct Hcin as [-> _]. apply Hout. by apply Hlevel_placed. }
  destruct (errCh st) as [|err errs] eqn:Herrs.
  - (* the level had no failure: on to the next *)
    assert (Hsucc : ∀ id n, id ∈ level → ns !! id = Some n →
      ∃ r, NodeRun n (gatherDeps nil rs (DependsOn n)) = inl r ∧ store st !! id = Some r).
    { intros id n Hid Hn. specialize (Hcin id n Hid Hn).
      destruct (NodeRun n _) as [r|cause]; [by exists r | ].
      destruct Hcin as [_ Herr]. by apply elem_of_nil in Herr. }
    destruct (IH (tl scheds) (placed ++ level) (store st) (callLog st) out rs' log')
      as [ran Hpost]; [ | done | ].
    { split.
      + by rewrite <- app_assoc.
      + intros k Hk. apply Hnodes, elem_of_app. by right.
      + intros k d [Hk|Hk]%elem_of_app Hd; apply elem_of_app; left; eauto.
      + intros i k d (l & Hl & Hk) Hd.
        destruct (Hrdeps (S i) k d) as [?|(j & Hj & l' & Hl' & Hd')]; [by exists l | done | | ].
        * left. apply elem_of_app. by left.
        * destruct j as [|j]; cbn in Hl'.
          -- simplify_eq. left. apply elem_of_app. by right.
          -- right. exists j. split; [lia | by exists l'].
      + by rewrite Hlog, fmap_app, Hcalled, Hc.
      + rewrite Hlog. intros id deps Hin.
        destruct (Hcalls' id deps Hin) as (n & Hn & -> & Hmatch).
        apply elem_of_app in Hin as [Hin|Hin].
        * destruct (Hcalls id _ Hin) as (n' & r & Hn' & Heq & Hr & Hrs).
          assert (n' = n) as -> by congruence.
          exists n, r. split_and!; [done.. | | ].
          -- congruence.
          -- rewrite Hcout; [done | ]. intros ?. by eapply Hlevel_placed, Hlog_placed.
        * pose proof (Hc_level _ _ Hin) as Hid.
          destruct (Hsucc id n Hid Hn) as (r & Hr & Hst). exists n, r.
          split_and!; [done.. | | done].
          rewrite <- (Hgather id n); [done | | done]. apply elem_of_app. by right.
      + intros k Hk. rewrite Hcout, Hout; [done | | ]; intros ?; apply Hk, elem_of_app; auto. }
    exists (S ran). destruct Hpost as [Hran Hcalled' Hout' Hcalls'' Houtcome].
    split; cbn [take mjoin list_join length]; rewrite ?(app_assoc placed level).
    + lia.
    + done.
    + done.
    + done.
    + destruct out as [[err| ]| ]; [ | | done].
      * destruct Houtcome as (i & id & n & cause & -> & (l & Hl & Hid) & Hn & Hin & Hr & -> & Hall).
        exists (S i), id, n, cause. split_and!; [done | by exists l | done.. | ].
        cbn [take mjoin list_join]. by rewrite (app_assoc placed level).
      * destruct Houtcome as [-> Hall]. done.
  - (* some node of the level failed: [Run] returns the first error sent *)
    simplify_eq. exists 1.
    split; cbn [take mjoin list_join length]; rewrite ?app_nil_r.
    + lia.
    + by rewrite Hlog, fmap_app, Hcalled, Hc.
    + intros k Hk. rewrite Hcout, Hout; [done | | ]; intros ?; apply Hk, elem_of_app; auto.
    + by rewrite Hlog.
    + destruct (Hcerr err) as (id & n & cause & Hid & Hn & Hrun & ->).
      { by left. }
      exists 0, id, n, cause.
      assert (Hg := Hgather id n (proj2 (elem_of_app _ _ _) (or_intror Hid)) Hn).
      split_and!; [done | by exists level | done | | by rewrite <- Hg | done | ].
      * rewrite Hlog, elem_of_app. right. rewrite <- Hg.
        assert (Hidc : id ∈ c.*1) by (by rewrite Hc).
        apply list_elem_of_fmap in Hidc as ([id' deps] & -> & Hin).
        destruct (Hccalls _ _ Hin) as (n' & Hn' & ->). cbn in *. by simplify_eq.
      * cbn [take mjoin list_join]. rewrite app_nil_r.
        intros id' deps n' Hin Hid' Hn'. rewrite Hlog in Hin.
        apply elem_of_app in Hin as [Hin|Hin].
        -- destruct (Hcalls _ _ Hin) as (n'' & r & ? & ? & ? & ?). simplify_eq. by exists r.
        -- destruct (Hlevel_placed id'); [by eapply Hc_level | done].
Qed.
End executor.

Section run.
Context {any : Type} (nil : any).
Implicit Types (ns : gmap string (Node any)) (e : Engine any).
Implicit Types (rs : gmap string (Result any)) (log : list (call any)).

Lemma planOf_runPre ns levels rs :
  planOf ns levels → runPre nil ns rs [] levels rs [].
Proof.
  intros [Hnd Hnodes Horder _]. split; cbn [app fmap list_fmap]; try done.
  - intros k Hk. by apply Hnodes.
  - by intros ?? ?%elem_of_nil.
  - intros i k d Hk Hd. right. by apply (Horder i k).
  - by intros ?? ?%elem_of_nil.
Qed.

Lemma take_join_level (levels : list (list string)) i k :
  k ∈ mjoin (take (S i) levels) → k ∉ mjoin (take i levels) → inLevel levels i k.
Proof.
  intros Hin Hnot. destruct (levels !! i) as [l|] eqn:Hi.
  - rewrite (take_S_r _ _ _ Hi), join_snoc, elem_of_app in Hin.
    destruct Hin; [done | by exists l].
  - apply lookup_ge_None in Hi. rewrite !take_ge in * by lia. done.
Qed.

Lemma join_take_inLevel (levels : list (list string)) i k :
  k ∈ mjoin (take i levels) ↔ ∃ j, j < i ∧ inLevel levels j k.
Proof.
  rewrite inLevel_join. unfold inLevel. split.
  - intros (j & l & Hl & Hk). apply lookup_take_Some in Hl as [Hl Hj]. eauto.
  - intros (j & Hj & l & Hl & Hk). exists j, l. split; [ | done].
    by apply lookup_take_Some.
Qed.

(** [Run] on a keyed engine: planning fails and nothing runs, or the
    levels run as [runPost] tells. *)
Lemma Run_keyed o scheds e :
  keyed (nodes e) →
  (∃ err, topoSortLevels o (nodes e) = Some (inr err) ∧
          Run nil o scheds e = Some (Returned (Some err), e, [])) ∨
  (∃ levels ran out rs log,
      topoSortLevels o (nodes e) = Some (inl levels) ∧ planOf (nodes e) levels ∧
      Run nil o scheds e = Some (out, mkEngine (nodes e) rs, log) ∧
      runPost nil (nodes e) (results e) [] levels ran out rs log).
Proof.
  intros Hkey. unfold Run.
  destruct (topoSortLevels_total o (nodes e)) as [[levels|err] Hplan]; rewrite Hplan.
  2:{ left. by exists err. }
  right. destruct (topoSortLevels_inl o _ _ Hkey Hplan) as (_ & _ & Hplanof).
  destruct (runLevels nil (nodes e) scheds levels (results e) []) as [[out rs] log] eqn:Hrun.
  destruct (runLevels_post nil (nodes e) (results e) levels scheds [] (results e) [] out rs log)
    as [ran Hpost]; [by apply planOf_runPre | done | ].
  by exists levels, ran, out, rs, log.
Qed.
End run.

(** ** The subgraph resolver *)
Section resolver.
Context {any : Type} (cat : gmap string (Node any)).
Implicit Types (needed : gmap string (Node any)) (ids : list string).

Lemma resolveEach_resolved fuel
    (rec : string → gmap string (Node any) → option (gmap string (Node any) + error)) :
  (∀ id needed, deepEnough cat fuel needed →
     ∃ r, rec id needed = Some r ∧ resolved cat [id] needed r) →
  ∀ ids needed, deepEnough cat fuel needed →
    ∃ r, resolveEach rec ids needed = Some r ∧ resolved cat ids needed r.
Proof.
  intros Hrec ids. induction ids as [|id ids IH]; intros needed Hdeep.
  { exists (inl needed). split; [done | ]. destruct Hdeep as [Hsub _].
    split_and!; [done | done | | | ].
    - by intros ? ?%elem_of_nil.
    - intros k [n Hn] Hnone. congruence.
    - intros k d [n Hn] Hnone. congruence. }
  cbn [resolveEach]. destruct (Hrec id needed Hdeep) as ([needed1|err] & -> & Hr1).
  2:{ exists (inr err). split; [done | ].
      destruct Hr1 as (x & (id' & ->%list_elem_of_singleton & Hx) & ? & ->).
      exists x. split_and!; [ | done..]. exists id. split; [by left | done]. }
  destruct Hr1 as (Hsub1 & Hcat1 & Hid1 & Hreach1 & Hclosed1).
  destruct (IH needed1) as (r & -> & Hr2).
  { destruct Hdeep as [_ Hfuel]. split; [done | ].
    pose proof (map_subseteq_size _ _ Hsub1). lia. }
  exists r. split; [done | ]. destruct r as [needed2|err].
  - destruct Hr2 as (Hsub2 & Hcat2 & Hid2 & Hreach2 & Hclosed2).
    assert (Hkeep : ∀ k, is_Some (needed1 !! k) → is_Some (needed2 !! k)).
    { intros k [n Hn]. exists n. by eapply lookup_weaken. }
    split_and!; [by etrans | done | | | ].
    + intros id' [->|Hin]%elem_of_cons; [ | by apply Hid2].
      apply Hkeep, Hid1. by left.
    + intros k Hk Hnone. destruct (needed1 !! k) as [n|] eqn:Hk1.
      * destruct (Hreach1 k) as (id' & ->%list_elem_of_singleton & ?); [by eexists | done | ].
        exists id. split; [by left | done].
      * destruct (Hreach2 k Hk Hk1) as (id' & ? & ?). exists id'. split; [by right | done].
    + intros k d Hk Hnone Hd. destruct (needed1 !! k) as [n|] eqn:Hk1.
      * apply Hkeep, (Hclosed1 k); [by eexists | done..].
      * by apply (Hclosed2 k).
  - destruct Hr2 as (x & (id' & ? & ?) & ? & ->). exists x.
    split_and!; [ | done..]. exists id'. split; [by right | done].
Qed.

Lemma resolve_resolved fuel : ∀ id needed,
  deepEnough cat fuel needed →
  ∃ r, resolve fuel cat id needed = Some r ∧ resolved cat [id] needed r.
Proof.
  induction fuel as [|fuel IH]; intros id needed [Hsub Hfuel].
  { pose proof (map_subseteq_size _ _ Hsub). lia. }
  cbn [resolve]. destruct (needed !! id) as [n|] eqn:Hid.
  { exists (inl needed). split; [done | ]. split_and!; [done | done | | | ].
    - intros ? ->%list_elem_of_singleton. by eexists.
    - intros k [n' Hn'] Hnone. congruence.
    - intros k d [n' Hn'] Hnone. congruence. }
  destruct (cat !! id) as [node|] eqn:Hcat.
  2:{ exists (inr (ErrUnknownNode id)). split; [done | ]. exists id.
      split_and!; [ | done..]. exists id. split; [by left | done]. }
  destruct (resolveEach_resolved fuel (resolve fuel cat) IH (DependsOn node)
              (<[id := node]> needed)) as (r & -> & Hr).
  { split; [by apply insert_subseteq_l | ]. rewrite map_size_insert_None by done. lia. }
  exists r. split; [done | ].
  assert (Hstep : ∀ d k, d ∈ DependsOn node → rtc (dependsOn cat) d k →
                         rtc (dependsOn cat) id k).
  { intros d k Hd Hk. eapply rtc_l; [ | done]. by exists node. }
  destruct r as [needed'|err].
  - destruct Hr as (Hsub' & Hcat' & Hdeps & Hreach & Hclosed).
    assert (Hid' : needed' !! id = Some node).
    { eapply lookup_weaken; [ | done]. by rewrite lookup_insert_eq. }
    split_and!; [ | done | | | ].
    + etrans; [by apply insert_subseteq | done].
    + intros ? ->%list_elem_of_singleton. by eexists.
    + intros k Hk Hnone. exists id. split; [by left | ].
      destruct (decide (k = id)) as [->|Hne]; [done | ].
      destruct (Hreach k Hk) as (d & Hd & Hdk); [by rewrite lookup_insert_ne | ].
      by eapply Hstep.
    + intros k d Hk Hnone Hd. destruct (decide (k = id)) as [->|Hne].
      * destruct Hd as (n' & Hn' & Hd). apply Hdeps. congruence.
      * apply (Hclosed k); [done | by rewrite lookup_insert_ne | done].
  - destruct Hr as (x & (d & Hd & Hdx) & ? & ->). exists x.
    split_and!; [ | done..]. exists id. split; [by left | by eapply Hstep].
Qed.

(** More depth changes nothing once the recursion has returned. *)
Lemma resolveEach_mono
    (rec rec' : string → gmap string (Node any) → option (gmap string (Node any) + error)) :
  (∀ id needed r, rec id needed = Some r → rec' id needed = Some r) →
  ∀ ids needed r, resolveEach rec ids needed = Some r → resolveEach rec' ids needed = Some r.
Proof.
  intros Hrec ids. induction ids as [|id ids IH]; intros needed r; [done | ].
  cbn [resolveEach]. destruct (rec id needed) as [[needed1|err]| ] eqn:Hr; [ | | done].
  - rewrite (Hrec _ _ _ Hr). apply IH.
  - by rewrite (Hrec _ _ _ Hr).
Qed.

Lemma resolve_mono fuel : ∀ fuel' id needed r,
  fuel ≤ fuel' → resolve fuel cat id needed = Some r → resolve fuel' cat id needed = Some r.
Proof.
  induction fuel as [|fuel IH]; intros fuel' id needed r Hle; [done | ].
  destruct fuel' as [|fuel']; [lia | ]. cbn [resolve].
  destruct (needed !! id); [done | ]. destruct (cat !! id); [ | done].
  apply resolveEach_mono. intros ???. apply IH. lia.
Qed.
End resolver.

(** ** Facts about [Run] *)
Section run_facts.
Context {any : Type} (nil : any).
Implicit Types (ns cat : gmap string (Node any)) (e : Engine any).
Implicit Types (o : MapOrders) (scheds : list (list nat)).
Implicit Types (log : list (call any)) (levels : list (list string)).

Lemma inLevel_unique levels i j k :
  NoDup (mjoin levels) → inLevel levels i k → inLevel levels j k → i = j.
Proof.
  intros Hnd.
  enough (H : ∀ i j, i < j → inLevel levels i k → inLevel levels j k → False).
  { intros Hi Hj. destruct (Nat.lt_trichotomy i j) as [?|[?|?]]; [ | done | ].
    - by destruct (H i j).
    - by destruct (H j i). }
  clear i j. intros i j Hlt Hi (l & Hl & Hk).
  rewrite <- (take_drop j levels), join_app in Hnd.
  apply NoDup_app in Hnd as (_ & Hdisj & _). apply (Hdisj k).
  - apply join_take_inLevel. by exists i.
  - apply list_elem_of_join. exists l. split; [done | ].
    apply (list_elem_of_lookup_2 _ 0). rewrite lookup_drop. by rewrite Nat.add_0_r.
Qed.

(** An execution in which some call failed: planning had succeeded, the
    levels up to one level [i] ran, all failed calls are of that level and
    the error returned is that of one of them. *)
Lemma Run_failed o scheds e out e' log :
  keyed (nodes e) → Run nil o scheds e = Some (out, e', log) →
  (∃ x, x ∈ log ∧ failedCall (nodes e) x) →
  ∃ levels i id n cause rs,
    topoSortLevels o (nodes e) = Some (inl levels) ∧ planOf (nodes e) levels ∧
    e' = mkEngine (nodes e) rs ∧
    out = Returned (Some (ErrNodeFailed id cause)) ∧
    runPost nil (nodes e) (results e) [] levels (S i) out rs log ∧
    inLevel levels i id ∧ nodes e !! id = Some n ∧
    (id, gatherDeps nil rs (DependsOn n)) ∈ log ∧
    NodeRun n (gatherDeps nil rs (DependsOn n)) = inr cause ∧
    (∀ z, z ∈ log → failedCall (nodes e) z → inLevel levels i z.1).
Proof.
  intros Hkey Hrun ([idx depsx] & Hx & nx & causex & Hnx & Hfx). cbn in Hnx, Hfx.
  destruct (Run_keyed nil o scheds e Hkey)
    as [(err & _ & Hrun')|(levels & ran & out' & rs & log' & Hplan & Hof & Hrun' & Hpost)];
    rewrite Hrun in Hrun'; simplify_eq.
  { by apply elem_of_nil in Hx. }
  pose proof Hpost as [Hran Hcalled Hout Hcalls Houtcome].
  destruct out' as [[err| ]| ]; [ | | done].
  2:{ destruct Houtcome as [_ Hall].
      destruct (Hall idx depsx nx Hx Hnx) as [r Hr]. congruence. }
  destruct Houtcome as (i & id & n & cause & -> & Hid & Hn & Hin & Hr & -> & Hbefore).
  exists levels, i, id, n, cause, rs. split_and!; try done.
  intros [idz depsz] Hz (nz & causez & Hnz & Hfz). cbn in *.
  apply take_join_level.
  - rewrite <- Hcalled. apply list_elem_of_fmap. by exists (idz, depsz).
  - intros Hearly. destruct (Hbefore idz depsz nz Hz Hearly Hnz) as [r Hr']. congruence.
Qed.

(** [Run] leaves the nodes of the engine as they are. *)
Lemma Run_nodes o scheds e out e' log :
  Run nil o scheds e = Some (out, e', log) → nodes e' = nodes e.
Proof.
  unfold Run. destruct (topoSortLevels o (nodes e)) as [[levels|err]| ]; [ | | done].
  - destruct (runLevels _ _ _ _ _ _) as [[out' rs] log']. by intros [= <- <- <-].
  - by intros [= <- <- <-].
Qed.
End run_facts.


(** ** Facts about [BuildFor] *)
Section builder_facts.
Context {any : Type}.
Implicit Types (cat : gmap string (Node any)) (b : Builder any).

Lemma range_empty {V} hint : range hint (∅ : gmap string V) = [].
Proof.
  unfold range, rangeKeys. rewrite map_to_list_empty. cbn.
  rewrite filter_none; [done | ].
  apply Forall_forall. intros k _ [v Hv]. by rewrite lookup_empty in Hv.
Qed.

(** The loop over the targets returns, with what [resolved] tells. *)
Lemma BuildFor_resolved cat targets :
  ∃ r, resolveEach (resolve (S (size cat)) cat) targets ∅ = Some r ∧
       resolved cat targets ∅ r.
Proof.
  apply (resolveEach_resolved cat (S (size cat))).
  - apply resolve_resolved.
  - split; [apply map_empty_subseteq | ]. rewrite map_size_empty. lia.
Qed.

(** A map holding the targets and the dependencies of all it holds has
    every reachable id. *)
Lemma reachable_resolved cat targets needed k :
  resolved cat targets ∅ (inl needed) → reachable cat targets k → is_Some (needed !! k).
Proof.
  intros (_ & _ & Htargets & _ & Hclosed) (t & Ht & Hk).
  revert k Hk. apply (rtc_ind_r (λ k, is_Some (needed !! k))); [by apply Htargets | ].
  intros k d _ Hkd IH. apply (Hclosed k); [done | apply lookup_empty | done].
Qed.

(** The engine [BuildFor] returns holds catalog entries, as they are. *)
Lemma BuildFor_nodes b targets e :
  BuildFor b targets = Some (inl e) → nodes e ⊆ catalog b.
Proof.
  unfold BuildFor, BuildForDepth.
  destruct (BuildFor_resolved (catalog b) targets) as ([needed|err] & -> & Hr); [ | done].
  intros [= <-]. by destruct Hr as (_ & Hsub & _).
Qed.
End builder_facts.


(** ** [PrettyPrint] *)
Section pretty.
Context {any : Type}.
Implicit Types (ns : gmap string (Node any)) (e : Engine any).

Lemma printNode_lookup ns id k :
  printNode ns id !! k = if decide (k = id) then printed <$> ns !! k else ns !! k.
Proof.
  unfold printNode, printed. destruct (decide (k = id)) as [->|Hne].
  - destruct (ns !! id) as [n|] eqn:Hn; [ | by rewrite Hn]. cbn.
    destruct (bool_decide _); [by rewrite lookup_insert_eq | done].
  - destruct (ns !! id) as [n|]; [ | done].
    destruct (bool_decide _); [by rewrite lookup_insert_ne | done].
Qed.

Lemma foldl_printNode_lookup ids : ∀ ns k,
  NoDup ids →
  foldl printNode ns ids !! k = if decide (k ∈ ids) then printed <$> ns !! k else ns !! k.
Proof.
  induction ids as [|id ids IH]; intros ns k Hnd; [done | ].
  apply NoDup_cons in Hnd as [Hid Hnd]. cbn [foldl]. rewrite IH, !printNode_lookup by done.
  destruct (decide (k = id)) as [->|Hne].
  - rewrite decide_False by done. rewrite decide_True; [done | by left].
  - destruct (decide (k ∈ ids)).
    + rewrite decide_True; [done | by right].
    + rewrite decide_False; [done | ]. intros [?|?]%elem_of_cons; done.
Qed.

(** [PrettyPrint] keeps the results, and of every node the ID, the run
    function and the dependencies up to their order, which it makes
    ascending. *)
Lemma PrettyPrint_nodes e k :
  results (PrettyPrint e) = results e ∧
  nodes (PrettyPrint e) !! k = printed <$> nodes e !! k.
Proof.
  split; [done | ]. unfold PrettyPrint, sortedIDs. cbn [nodes].
  rewrite foldl_printNode_lookup.
  - destruct (decide _) as [ | Hk]; [done | ].
    destruct (nodes e !! k) as [n|] eqn:Hn; [ | done]. destruct Hk.
    rewrite merge_sort_Permutation. apply list_elem_of_fmap. exists (k, n).
    split; [done | ]. by apply elem_of_map_to_list.
  - eapply NoDup_Permutation_proper; [apply merge_sort_Permutation | ].
    apply NoDup_fst_map_to_list.
Qed.

Lemma printed_frame (n : Node any) :
  ID (printed n) = ID n ∧ NodeRun (printed n) = NodeRun n ∧
  DependsOn (printed n) ≡ₚ DependsOn n ∧ Sorted String.le (DependsOn (printed n)).
Proof.
  unfold printed. destruct (bool_decide_reflect (0 < length (DependsOn n))) as [Hlen|Hlen]; cbn.
  - split_and!; [done | done | apply merge_sort_Permutation | ].
    apply (Sorted_merge_sort String.le).
  - destruct (DependsOn n); [ | cbn in Hlen; lia]. by split_and!.
Qed.
End pretty.

(** ** The concrete graphs *)

Ltac by_evaluation := refine (bool_decide_unpack _ _); vm_compute; exact I.

Lemma diamond_keyed : keyed Examples.diamond.
Proof. by_evaluation. Qed.
Lemma diamond_closed : closed Examples.diamond.
Proof. by_evaluation. Qed.
Lemma diamond_acyclic : acyclic Examples.diamond.
Proof.
  eapply (topoSortLevels_inl Examples.orders); [exact diamond_keyed | ].
  vm_compute. reflexivity.
Qed.
Lemma failing_keyed : keyed Examples.failing.
Proof. by_evaluation. Qed.

Lemma cyclic_keyed : keyed Examples.cyclic.
Proof. by_evaluation. Qed.
Lemma cyclic_closed : closed Examples.cyclic.
Proof. by_evaluation. Qed.
Lemma cyclic_cycle : tc (dependsOn Examples.cyclic) "X" "X".
Proof.
  apply tc_l with "Y"; [ | apply tc_once]; eexists; (split; [reflexivity | ]);
    apply list_elem_of_singleton; reflexivity.
Qed.

Lemma dangling_open : ¬ closed Examples.dangling.
Proof. intros H. pose proof (bool_decide_pack _ H) as Hb. vm_compute in Hb. exact Hb. Qed.

(** ** [Run] with a solution at hand *)
Section solutions.
Context {any : Type} (nil : any).
Implicit Types (ns : gmap string (Node any)) (e : Engine any).
Implicit Types (o : MapOrders) (scheds : list (list nat)).
Implicit Types (rs : gmap string (Result any)) (log : list (call any)).
Implicit Types (levels : list (list string)).

Lemma elem_of_log_fst log id : id ∈ log.*1 ↔ ∃ deps, (id, deps) ∈ log.
Proof.
  rewrite list_elem_of_fmap. split.
  - intros ([id' deps] & -> & ?). by exists deps.
  - intros [deps ?]. by exists (id, deps).
Qed.

(** Whatever [Run] called got the results of a solution, and returned
    what the solution holds. *)
Lemma runPost_solution ns levels rs0 ran out rs log sol :
  planOf ns levels → runPost nil ns rs0 [] levels ran out rs log →
  solves nil ns sol →
  ∀ i id, inLevel levels i id → id ∈ log.*1 → rs !! id = sol !! id.
Proof.
  intros [Hnd Hnodes Horder _] [Hran Hcalled Houtside Hcalls _] Hsol i.
  cbn [app] in *. induction (lt_wf i) as [i _ IH]. intros id Hi Hid.
  assert (Hlt : i < ran).
  { rewrite Hcalled in Hid. apply join_take_inLevel in Hid as (j & ? & Hj).
    by rewrite (inLevel_unique levels i j id Hnd Hi Hj). }
  apply elem_of_log_fst in Hid as [deps Hdeps].
  destruct (Hcalls id deps Hdeps) as (n & Hn & -> & Hrun).
  destruct (Hsol id n Hn) as (r & Hr & ->).
  rewrite (gatherDeps_ext nil rs sol) in Hrun; [by rewrite Hr in Hrun | ].
  intros d Hd. destruct (Horder i id d Hi) as (j & Hj & Hdj); [by exists n | ].
  apply (IH j Hj d Hdj). rewrite Hcalled. apply join_take_inLevel.
  exists j. split; [lia | done].
Qed.

(** With a solution at hand no call fails: [Run] goes through all levels
    and leaves the solution on the nodes of the set. *)
Lemma runPost_solved ns levels rs0 ran out rs log sol :
  planOf ns levels → runPost nil ns rs0 [] levels ran out rs log →
  solves nil ns sol →
  out = Returned None ∧
  (∀ k, rs !! k = if decide (is_Some (ns !! k)) then sol !! k else rs0 !! k) ∧
  NoDup log.*1 ∧
  ∀ id deps, (id, deps) ∈ log ↔
    ∃ n, ns !! id = Some n ∧ deps = gatherDeps nil sol (DependsOn n).
Proof.
  intros Hplan Hpost Hsol.
  pose proof (runPost_solution ns levels rs0 ran out rs log sol Hplan Hpost Hsol) as Hagree.
  destruct Hplan as [Hnd Hnodes Horder Hfirst].
  destruct Hpost as [Hran Hcalled Houtside Hcalls Hout]. cbn [app] in *.
  assert (Hdeps : ∀ id n, ns !! id = Some n → id ∈ log.*1 →
            gatherDeps nil rs (DependsOn n) = gatherDeps nil sol (DependsOn n)).
  { intros id n Hn Hid. apply gatherDeps_ext. intros d Hd.
    rewrite Hcalled in Hid. apply join_take_inLevel in Hid as (i & Hi & Hid).
    destruct (Horder i id d Hid) as (j & Hj & Hdj); [by exists n | ].
    apply (Hagree j d Hdj). rewrite Hcalled. apply join_take_inLevel.
    exists j. split; [lia | done]. }
  assert (Hall : out = Returned None ∧ ran = length levels).
  { destruct out as [[err|]|]; [ | destruct Hout as [-> _]; by split | done].
    destruct Hout as (i & id & n & cause & -> & Hi & Hn & Hin & Hfail & _).
    rewrite (Hdeps id n Hn) in Hfail.
    - destruct (Hsol id n Hn) as (r & Hr & _). congruence.
    - apply elem_of_log_fst. by eexists. }
  destruct Hall as [-> ->]. rewrite firstn_all in *.
  assert (Hin : ∀ k, k ∈ log.*1 ↔ is_Some (ns !! k)).
  { intros k. by rewrite Hcalled, Hnodes. }
  split_and!; [done | | by rewrite Hcalled | ].
  - intros k. destruct (decide _) as [Hk|Hk].
    + pose proof Hk as Hi. apply Hnodes, inLevel_join in Hi as [i Hi].
      apply (Hagree i k Hi). by apply Hin.
    + apply Houtside. by rewrite Hnodes.
  - intros id deps. split.
    + intros Hcall. destruct (Hcalls id deps Hcall) as (n & Hn & -> & _).
      exists n. split; [done | ]. apply (Hdeps id n Hn), elem_of_log_fst. by eexists.
    + intros (n & Hn & ->).
      assert (Hid : id ∈ log.*1) by (apply Hin; by eexists).
      apply elem_of_log_fst in Hid as Hcall. destruct Hcall as [deps Hcall].
      destruct (Hcalls id deps Hcall) as (n' & Hn' & -> & _).
      assert (n' = n) as -> by congruence. by rewrite <- (Hdeps id n Hn Hid).
Qed.

(** The results a successful [Run] leaves are a solution. *)
Lemma runPost_solves ns levels rs0 rs log :
  planOf ns levels → runPost nil ns rs0 [] levels (length levels) (Returned None) rs log →
  solves nil ns rs.
Proof.
  intros [Hnd Hnodes Horder Hfirst] [Hran Hcalled Houtside Hcalls [_ Hok]] id n Hn.
  cbn [app] in *. rewrite firstn_all in *.
  assert (Hid : id ∈ log.*1) by (rewrite Hcalled, Hnodes; by eexists).
  apply elem_of_log_fst in Hid as [deps Hcall].
  destruct (Hcalls id deps Hcall) as (n' & Hn' & -> & Hrun).
  assert (n' = n) as -> by congruence.
  destruct (Hok id _ n Hcall Hn) as [r Hr]. rewrite Hr in Hrun. by exists r.
Qed.

(** What [Run] does with a solution at hand. *)
Lemma Run_solution o scheds e sol :
  keyed (nodes e) → closed (nodes e) → acyclic (nodes e) → solves nil (nodes e) sol →
  ∃ rs log,
    Run nil o scheds e = Some (Returned None, mkEngine (nodes e) rs, log) ∧
    (∀ k, rs !! k = if decide (is_Some (nodes e !! k)) then sol !! k else results e !! k) ∧
    NoDup log.*1 ∧
    ∀ id deps, (id, deps) ∈ log ↔
      ∃ n, nodes e !! id = Some n ∧ deps = gatherDeps nil sol (DependsOn n).
Proof.
  intros Hkey Hclosed Hacyclic Hsol.
  destruct (Run_keyed nil o scheds e Hkey)
    as [(err & Hplan & _)|(levels & ran & out & rs & log & _ & Hplan & HRun & Hpost)].
  { destruct (topoSortLevels_acyclic o (nodes e) Hkey Hclosed Hacyclic) as (levels & ? & _).
    congruence. }
  destruct (runPost_solved _ _ _ _ _ _ _ _ Hplan Hpost Hsol) as (-> & ? & ? & ?).
  by exists rs, log.
Qed.

End solutions.

(** ** The error channel of the level that failed *)
Section error_channel.
Context {any : Type} (nil : any) (ns : gmap string (Node any)).
Implicit Types (rs : gmap string (Result any)) (log : list (call any)).
Implicit Types (levels : list (list string)) (scheds : list (list nat)).
Implicit Types (st : LevelState any).



End error_channel.

Section schedules.
Context {any : Type} (nil : any) (ns : gmap string (Node any)).
Implicit Types (rs : gmap string (Result any)) (log : list (call any)).
Implicit Types (levels : list (list string)) (scheds : list (list nat)).
Implicit Types (st : LevelState any).




End schedules.

Section failed_level.
Context {any : Type} (nil : any).
Implicit Types (ns cat : gmap string (Node any)) (e : Engine any).
Implicit Types (o : MapOrders) (scheds : list (list nat)).
Implicit Types (log : list (call any)) (levels : list (list string)).


End failed_level.

(** * The claims *)

Section claims_planner.
Context {any : Type} (nil : any).
Implicit Types (ns cat : gmap string (Node any)) (e : Engine any).
Implicit Types (o : MapOrders) (scheds : list (list nat)).

(** C1. On an acyclic node set whose dependencies all key into the set,
    [topoSortLevels] returns levels in which every node of the set appears
    exactly once ([NoDup] of the concatenation, whose members are the keys
    of the set), every dependency of a node sits in a level of strictly
    smaller index, and level 0 holds exactly the nodes without
    dependencies.  The set is a map from ID to node ([keyed]). *)
Theorem topoSortLevels_levels o ns :
  keyed ns → closed ns → acyclic ns →
  ∃ levels,
    topoSortLevels o ns = Some (inl levels) ∧
    NoDup (mjoin levels) ∧
    (∀ k, k ∈ mjoin levels ↔ is_Some (ns !! k)) ∧
    (∀ i k d, inLevel levels i k → dependsOn ns k d → ∃ j, j < i ∧ inLevel levels j d) ∧
    (∀ k, inLevel levels 0 k ↔ ∃ n, ns !! k = Some n ∧ DependsOn n = []).
Proof.
  intros Hkey Hclosed Hacyclic.
  destruct (topoSortLevels_acyclic o ns Hkey Hclosed Hacyclic) as (levels & Hplan & Hof).
  exists levels. by destruct Hof.
Qed.

(** C6. On a node set with a dependency cycle (dependencies all keying
    into the set) [topoSortLevels] returns the cycle error and no levels;
    that error and its text differ from every unknown-dependency error. *)
Theorem topoSortLevels_cycle o ns :
  keyed ns → closed ns → (∃ k, tc (dependsOn ns) k k) →
  topoSortLevels o ns = Some (inr ErrCycle) ∧
  ∀ node dep, ErrCycle ≠ ErrUnknownDependency node dep ∧
              Error ErrCycle ≠ Error (ErrUnknownDependency node dep).
Proof.
  intros Hkey Hclosed [k Hk]. split.
  - apply topoSortLevels_cyclic; [done.. | ]. intros Hacyclic. by apply (Hacyclic k).
  - intros node dep. split; [done | ]. cbn. discriminate.
Qed.

(** C7. When planning fails, because a dependency is missing from the set
    or because of a cycle, [Run] returns the planning error (an unknown
    dependency error naming a missing id, or the cycle error), the engine
    (its results among it) is as before and no run function was called. *)
Theorem Run_planning_fails o scheds e :
  ¬ closed (nodes e) ∨ (keyed (nodes e) ∧ closed (nodes e) ∧ ¬ acyclic (nodes e)) →
  ∃ err,
    topoSortLevels o (nodes e) = Some (inr err) ∧
    Run nil o scheds e = Some (Returned (Some err), e, []) ∧
    ((∃ node dep, err = ErrUnknownDependency node dep ∧ nodes e !! dep = None) ∨
     err = ErrCycle).
Proof.
  intros Hbad.
  assert (Hplan : ∃ err, topoSortLevels o (nodes e) = Some (inr err) ∧
    ((∃ node dep, err = ErrUnknownDependency node dep ∧ nodes e !! dep = None) ∨
     err = ErrCycle)).
  { destruct Hbad as [Hopen|(Hkey & Hclosed & Hcyclic)].
    - unfold topoSortLevels.
      pose proof (checkDeps_spec (nodes e) (range (ord_check o) (nodes e))
                    (initInDegree (range (ord_init o) (nodes e)))) as Hcheck.
      destruct (checkDeps _ _ _) as [inDegree|err].
      + destruct Hopen. intros k n Hn. apply Forall_forall. intros d Hd.
        destruct Hcheck as [_ Hcheck]. apply (Hcheck k n d); [ | done].
        by apply elem_of_range.
      + destruct Hcheck as (k & n & d & _ & _ & Hnone & ->).
        eexists. split; [done | ]. left. by exists (ID n), d.
    - exists ErrCycle. split; [by apply topoSortLevels_cyclic | by right]. }
  destruct Hplan as (err & Hplan & Hkind). exists err. split_and!; [done | | done].
  unfold Run. by rewrite Hplan.
Qed.
End claims_planner.

Section claims_executor.
Context {any : Type} (nil : any).
Implicit Types (ns cat : gmap string (Node any)) (e : Engine any).
Implicit Types (o : MapOrders) (scheds : list (list nat)).
Implicit Types (log : list (call any)) (levels : list (list string)).

(** C2. On an acyclic, dependency-closed execution set whose run functions
    all succeed, [Run] on the fresh engine returns [nil]; afterwards the
    keys of [Results()] are the IDs of the set; every node's run function
    was called once, with a mapping whose keys are its [DependsOn] entries
    and whose values are the results stored for them, each call's own
    result being the one stored under its ID.  That the run functions
    succeed is [solves]: there are results [sol] such that the run
    function of every node, given the results of its dependencies,
    returns the result of the node; nothing is asked of a run function on
    other arguments. *)
Theorem Run_succeeds o scheds ns sol :
  keyed ns → closed ns → acyclic ns → solves nil ns sol →
  ∃ e' log,
    Run nil o scheds (New ns) = Some (Returned None, e', log) ∧
    dom (Results e') =@{gset string} dom ns ∧
    log.*1 ≡ₚ (map_to_list ns).*1 ∧
    ∀ id deps, (id, deps) ∈ log →
      ∃ n r, ns !! id = Some n ∧
        dom deps =@{gset string} list_to_set (DependsOn n) ∧
        (∀ d, d ∈ DependsOn n → is_Some (deps !! d) ∧ deps !! d = Results e' !! d) ∧
        NodeRun n deps = inl r ∧ Results e' !! id = Some r.
Proof.
  intros Hkey Hclosed Hacyclic Hsol.
  destruct (Run_solution nil o scheds (New ns) sol Hkey Hclosed Hacyclic Hsol)
    as (rs & log & Hrun & Hrs & Hnd & Hlog).
  cbn [nodes New results] in *.
  assert (Hstored : ∀ k n, ns !! k = Some n →
            ∃ r, NodeRun n (gatherDeps nil sol (DependsOn n)) = inl r ∧ rs !! k = Some r).
  { intros k n Hn. destruct (Hsol k n Hn) as (r & Hr & Hk). exists r. split; [done | ].
    rewrite Hrs, decide_True; [done | by eexists]. }
  exists (mkEngine ns rs), log. split_and!; [done | | | ].
  - apply set_eq. intros k. rewrite !elem_of_dom. cbn. rewrite Hrs. split.
    + destruct (decide (is_Some (ns !! k))); [done | ]. rewrite lookup_empty. by intros [? ?].
    + intros [n Hn]. destruct (Hstored k n Hn) as (r & _ & Hk). rewrite <- Hrs, Hk. by eexists.
  - apply NoDup_Permutation; [done | apply NoDup_fst_map_to_list | ].
    intros k. rewrite elem_of_log_fst, list_elem_of_fmap. split.
    + intros (deps & (n & Hn & _)%Hlog). exists (k, n). by rewrite elem_of_map_to_list.
    + intros ([k' n] & -> & Hin%elem_of_map_to_list). eexists. apply Hlog. by exists n.
  - intros id deps (n & Hn & ->)%Hlog. destruct (Hstored id n Hn) as (r & Hr & Hid).
    exists n, r. split_and!; [done | apply gatherDeps_dom | | done | done].
    intros d Hd. rewrite gatherDeps_lookup, decide_True by done. cbn.
    destruct (closed_dependsOn ns id d Hclosed) as [nd Hnd']; [by exists n | ].
    destruct (Hsol d nd Hnd') as (rd & _ & Hsold). rewrite Hsold. cbn [default].
    split; [by eexists | ]. unfold Results. cbn [results].
    rewrite Hrs, decide_True by (by eexists). done.
Qed.

(** C3. In an execution in which some run function failed, [Run] returns
    an error tagged with the ID of a node whose run function failed; the
    nodes called are exactly those of the levels up to the level [i] of
    that node, so no node of a later level was started; and every result
    a call returned, in an earlier level or beside the failure, is in
    [Results()]. *)
Theorem Run_fails o scheds e out e' log :
  keyed (nodes e) → Run nil o scheds e = Some (out, e', log) →
  (∃ x, x ∈ log ∧ failedCall (nodes e) x) →
  ∃ levels i id deps cause,
    topoSortLevels o (nodes e) = Some (inl levels) ∧
    out = Returned (Some (ErrNodeFailed id cause)) ∧
    inLevel levels i id ∧ (id, deps) ∈ log ∧
    (∃ n, nodes e !! id = Some n ∧ NodeRun n deps = inr cause) ∧
    log.*1 ≡ₚ mjoin (take (S i) levels) ∧
    (∀ j k, i < j → inLevel levels j k → k ∉ log.*1) ∧
    (∀ x n r, x ∈ log → nodes e !! x.1 = Some n → NodeRun n x.2 = inl r →
              Results e' !! x.1 = Some r).
Proof.
  intros Hkey Hrun Hfail.
  destruct (Run_failed nil o scheds e out e' log Hkey Hrun Hfail)
    as (levels & i & id & n & cause & rs & Hplan & Hof & -> & -> & Hpost & Hid & Hn & Hin & Hr & _).
  destruct Hpost as [_ Hcalled _ Hcalls _]. cbn [app] in Hcalled.
  exists levels, i, id, (gatherDeps nil rs (DependsOn n)), cause.
  split_and!; [done.. | by exists n | done | | ].
  - intros j k Hlt Hj Hk. rewrite Hcalled in Hk.
    apply join_take_inLevel in Hk as (j' & Hj' & Hk).
    pose proof (inLevel_unique levels j j' k (plan_NoDup _ _ Hof) Hj Hk). lia.
  - intros [idx depsx] nx r Hx Hnx Hrx. cbn in *.
    destruct (Hcalls idx depsx Hx) as (n' & Hn' & _ & Hmatch).
    assert (n' = nx) as -> by congruence. by rewrite Hrx in Hmatch.
Qed.

End claims_executor.

Section claims_builder.
Context {any : Type} (nil : any).
Implicit Types (cat : gmap string (Node any)) (b : Builder any) (e : Engine any).

(** C5. With at least one target: when every target and every id they
    reach is in the catalog, [BuildFor] returns a fresh engine whose node
    map has exactly the reachable ids as keys (a map: each once, whatever
    the number of paths), each with its catalog entry; when some reachable
    id is missing, it returns an unknown-node error, for a reachable id
    that is missing, and no engine. *)
Theorem BuildFor_reachable cat targets :
  targets ≠ [] →
  ((∀ k, reachable cat targets k → is_Some (cat !! k)) →
   ∃ e, BuildFor (NewBuilder cat) targets = Some (inl e) ∧ results e = ∅ ∧
        ∀ k n, nodes e !! k = Some n ↔ reachable cat targets k ∧ cat !! k = Some n) ∧
  ((∃ k, reachable cat targets k ∧ cat !! k = None) →
   ∃ x, BuildFor (NewBuilder cat) targets = Some (inr (ErrUnknownNode x)) ∧
        reachable cat targets x ∧ cat !! x = None).
Proof.
  intros _. unfold BuildFor, BuildForDepth. cbn [catalog NewBuilder].
  destruct (BuildFor_resolved cat targets) as ([needed|err] & -> & Hr).
  - pose proof (λ k, reachable_resolved cat targets needed k Hr) as Hall.
    pose proof Hr as (_ & Hsub & _ & Hreach & _). split.
    + intros _. exists (New needed). split_and!; [done.. | ]. intros k n. cbn. split.
      * intros Hk. split; [ | by eapply lookup_weaken].
        apply Hreach; [by eexists | apply lookup_empty].
      * intros [Hk Hn]. destruct (Hall k) as [n' Hn']; [done | ].
        rewrite Hn'. f_equal. pose proof (lookup_weaken _ _ _ _ Hn' Hsub). congruence.
    + intros (k & Hk & Hnone). destruct (Hall k) as [n' Hn']; [done | ].
      pose proof (lookup_weaken _ _ _ _ Hn' Hsub). congruence.
  - destruct Hr as (x & Hx & Hnone & ->). split.
    + intros Hall. destruct (Hall x Hx) as [n Hn]. congruence.
    + intros _. by exists x.
Qed.

(** C9. [BuildFor] returns on every catalog, cyclic or not: the recursion
    of [resolve] never goes deeper than the catalog size plus one, since a
    node already in [needed] is not descended into again; any greater
    depth gives the same result. *)
Theorem BuildFor_terminates b targets :
  (∃ r, BuildFor b targets = Some r) ∧
  ∀ fuel, S (size (catalog b)) ≤ fuel → BuildForDepth fuel b targets = BuildFor b targets.
Proof.
  unfold BuildFor, BuildForDepth.
  destruct (BuildFor_resolved (catalog b) targets) as (r & Hr & _).
  split.
  - rewrite Hr. destruct r; by eexists.
  - intros fuel Hfuel.
    rewrite (resolveEach_mono (resolve (S (size (catalog b))) (catalog b))
               (resolve fuel (catalog b)) (λ id needed r', resolve_mono (catalog b) _ fuel id needed r' Hfuel)
               _ _ _ Hr).
    by rewrite Hr.
Qed.

(** C10. [BuildFor] without targets returns, without error, an engine over
    the empty node set; on the empty node set [topoSortLevels] returns no
    level and no error, and [Run] returns [nil], calls nothing and leaves
    [Results()] empty. *)
Theorem BuildFor_no_targets b o scheds :
  BuildFor b [] = Some (inl (New ∅)) ∧
  topoSortLevels o (∅ : gmap string (Node any)) = Some (inl []) ∧
  Run nil o scheds (New ∅) = Some (Returned None, New ∅, []) ∧
  Results (New (∅ : gmap string (Node any))) = ∅.
Proof.
  assert (Hplan : topoSortLevels o (∅ : gmap string (Node any)) = Some (inl [])).
  { unfold topoSortLevels. rewrite !range_empty. cbn. by rewrite range_empty. }
  split_and!; [done | done | | done].
  unfold Run. cbn [nodes New]. by rewrite Hplan.
Qed.
End claims_builder.

(** C8. The claim fails for [PrettyPrint]: it sorts the [DependsOn] slice
    of the node the engine holds.  Node D of the diamond is registered
    with the dependencies C, B and holds B, C after [PrettyPrint]. *)
Lemma PrettyPrint_reorders_DependsOn :
  DependsOn <$> nodes (New Examples.diamond) !! "D" = Some ["C"; "B"] ∧
  DependsOn <$> nodes (PrettyPrint (New Examples.diamond)) !! "D" = Some ["B"; "C"].
Proof. split; vm_compute; reflexivity. Qed.

(** ** The claims on the concrete graphs *)

Lemma topoSortLevels_levels_witness :
  ∃ levels,
    topoSortLevels Examples.orders Examples.diamond = Some (inl levels) ∧
    NoDup (mjoin levels) ∧
    (∀ k, k ∈ mjoin levels ↔ is_Some (Examples.diamond !! k)) ∧
    (∀ i k d, inLevel levels i k → dependsOn Examples.diamond k d →
              ∃ j, j < i ∧ inLevel levels j d) ∧
    (∀ k, inLevel levels 0 k ↔ ∃ n, Examples.diamond !! k = Some n ∧ DependsOn n = []).
Proof.
  apply (topoSortLevels_levels Examples.orders Examples.diamond).
  - exact diamond_keyed.
  - exact diamond_closed.
  - exact diamond_acyclic.
Defined.

Lemma failing_run :
  ∃ e' log x y,
    Run 0 Examples.orders Examples.lastFirst (New Examples.failing)
      = Some (Returned (Some (ErrNodeFailed "C" "boom C")), e', log) ∧
    x ∈ log ∧ y ∈ log ∧ x.1 = "C" ∧ y.1 = "B" ∧
    failedCall Examples.failing x ∧ failedCall Examples.failing y.
Proof.
  do 4 eexists. split; [vm_compute; reflexivity | ].
  split_and!.
  - apply (list_elem_of_lookup_2 _ 1). reflexivity.
  - apply (list_elem_of_lookup_2 _ 2). reflexivity.
  - reflexivity.
  - reflexivity.
  - do 2 eexists. split; reflexivity.
  - do 2 eexists. split; reflexivity.
Qed.

Lemma Run_fails_witness :
  ∃ out e' log levels i id deps cause,
    Run 0 Examples.orders Examples.lastFirst (New Examples.failing) = Some (out, e', log) ∧
    topoSortLevels Examples.orders Examples.failing = Some (inl levels) ∧
    out = Returned (Some (ErrNodeFailed id cause)) ∧
    inLevel levels i id ∧ (id, deps) ∈ log ∧
    log.*1 ≡ₚ mjoin (take (S i) levels) ∧
    (∀ j k, i < j → inLevel levels j k → k ∉ log.*1).
Proof.
  destruct failing_run as (e' & log & x & y & Hrun & Hx & _ & _ & _ & Hfx & _).
  destruct (Run_fails 0 Examples.orders Examples.lastFirst (New Examples.failing)
              _ e' log failing_keyed Hrun)
    as (levels & i & id & deps & cause & Hplan & Hout & Hid & Hin & _ & Hlog & Hlater & _).
  { exists x. split; assumption. }
  cbn [nodes New] in Hplan.
  exists (Returned (Some (ErrNodeFailed "C" "boom C"))), e', log, levels, i, id, deps, cause.
  split_and!; assumption.
Defined.



Lemma topoSortLevels_cycle_witness :
  topoSortLevels Examples.orders Examples.cyclic = Some (inr ErrCycle) ∧
  ∀ node dep, ErrCycle ≠ ErrUnknownDependency node dep ∧
              Error ErrCycle ≠ Error (ErrUnknownDependency node dep).
Proof.
  apply (topoSortLevels_cycle Examples.orders Examples.cyclic).
  - exact cyclic_keyed.
  - exact cyclic_closed.
  - exists "X". exact cyclic_cycle.
Defined.

Lemma Run_planning_fails_witness :
  ∃ err,
    topoSortLevels Examples.orders Examples.dangling = Some (inr err) ∧
    Run 0 Examples.orders Examples.lastFirst (New Examples.dangling)
      = Some (Returned (Some err), New Examples.dangling, []).
Proof.
  destruct (Run_planning_fails 0 Examples.orders Examples.lastFirst
              (New Examples.dangling)) as (err & Hplan & Hrun & _).
  - left. exact dangling_open.
  - exists err. split; assumption.
Defined.

Lemma BuildFor_reachable_witness :
  (∃ e, BuildFor (NewBuilder Examples.diamond) ["B"] = Some (inl e) ∧
        ∀ k n, nodes e !! k = Some n ↔
               reachable Examples.diamond ["B"] k ∧ Examples.diamond !! k = Some n) ∧
  (∃ x, BuildFor (NewBuilder Examples.dangling) ["B"] = Some (inr (ErrUnknownNode x)) ∧
        Examples.dangling !! x = None).
Proof.
  split.
  - destruct (BuildFor_reachable Examples.diamond ["B"]) as [Hall _]; [done | ].
    destruct Hall as (e & Hbuild & _ & Hnodes).
    + intros k (t & ->%list_elem_of_singleton & Hk). revert k Hk.
      apply (rtc_ind_r (λ k, is_Some (Examples.diamond !! k))); [eexists; reflexivity | ].
      intros k d _ Hd _. exact (closed_dependsOn Examples.diamond k d diamond_closed Hd).
    + by exists e.
  - destruct (BuildFor_reachable Examples.dangling ["B"]) as [_ Hmiss]; [done | ].
    destruct Hmiss as (x & Hbuild & _ & Hx).
    + exists "Z". split; [ | reflexivity]. exists "B". split; [by left | ].
      apply rtc_once. eexists. split; [reflexivity | ]. right. by left.
    + by exists x.
Defined.

Lemma BuildFor_terminates_witness :
  (∃ r, BuildFor (NewBuilder Examples.cyclic) ["X"] = Some r) ∧
  BuildForDepth 10 (NewBuilder Examples.cyclic) ["X"]
    = BuildFor (NewBuilder Examples.cyclic) ["X"].
Proof.
  destruct (BuildFor_terminates (NewBuilder Examples.cyclic) ["X"]) as [Hret Hdepth].
  split; [exact Hret | ]. apply Hdepth. vm_compute. lia.
Defined.


(** ** Further evaluations *)

(** The scenario of the specification: the full diamond runs in three
    levels and leaves four results; built for B alone it keeps A and B. *)
Example diamond_levels :
  topoSortLevels Examples.orders Examples.diamond = Some (inl [["A"]; ["C"; "B"]; ["D"]]).
Proof. vm_compute. reflexivity. Qed.

Example diamond_results :
  (λ r, (map_to_list (Results r.1.2)).*1) <$>
    Run 0 Examples.orders Examples.lastFirst (New Examples.diamond)
  = Some ["C"; "A"; "B"; "D"].
Proof. vm_compute. reflexivity. Qed.

Example diamond_for_B :
  (λ r, match r with
        | inl e => inl ((map_to_list (nodes e)).*1, topoSortLevels Examples.orders (nodes e))
        | inr err => inr err
        end) <$> BuildFor (NewBuilder Examples.diamond) ["B"]
  = Some (inl (["A"; "B"], Some (inl [["A"]; ["B"]]))).
Proof. vm_compute. reflexivity. Qed.

(** Which of two failures of a level [Run] returns is decided by the
    interleaving: B's when the goroutines finish in the order they were
    spawned, C's when C finishes first. *)
Example failing_error_by_interleaving :
  (λ r, r.1.1) <$> Run 0 Examples.orders [] (New Examples.failing)
    = Some (Returned (Some (ErrNodeFailed "B" "boom B"))) ∧
  (λ r, r.1.1) <$> Run 0 Examples.orders Examples.lastFirst (New Examples.failing)
    = Some (Returned (Some (ErrNodeFailed "C" "boom C"))).
Proof. split; vm_compute; reflexivity. Qed.

(** Outside the data model: a map that keys a node under another name than
    its ID.  The counters are kept under the IDs, the level loop places
    both names and the count differs from the size of the map. *)
Example unkeyed_levels :
  topoSortLevels Examples.orders (<["a" := mkNode "b" [] (Examples.ok "b")]> ∅)
    = Some (inr ErrCycle).
Proof. vm_compute. reflexivity. Qed.


(** * Further properties of the engine and of the programs around it *)

(** ** More on the planner *)
Section planner_more.
Context {any : Type}.
Implicit Types (ns : gmap string (Node any)) (levels : list (list string)).
Implicit Types (o : MapOrders).

(** The ids the level loop appends as the next level were counted down by
    the current level. *)
Lemma processLevel_next dependents (m : gmap string Z) level k :
  k ∈ (processLevel dependents m level).2 →
  ∃ id, id ∈ level ∧ k ∈ default [] (dependents !! id).
Proof.
  rewrite processLevel_fanout.
  destruct (foldl_decrement (fanout dependents level) m []) as [_ (new & -> & _ & Hnew)].
  cbn [app]. intros [Hk1 Hk2]%Hnew.
  assert (Hk : k ∈ fanout dependents level) by (apply occ_pos; lia).
  unfold fanout in Hk. apply list_elem_of_bind in Hk as (id & ? & ?). by exists id.
Qed.

(** The level loop never appends an empty level, and whatever it appends
    after another level was counted down by that level. *)
Lemma levelLoop_tight (P : string → string → Prop) dependents fuel :
  (∀ k d, k ∈ default [] (dependents !! d) → P k d) →
  ∀ (m : gmap string Z) level levels processed levels' processed',
  Forall (λ l, l ≠ []) levels →
  (∀ i k, inLevel levels (S i) k → ∃ d, P k d ∧ inLevel levels i d) →
  (∀ i k, length levels = S i → k ∈ level → ∃ d, P k d ∧ inLevel levels i d) →
  levelLoop fuel dependents m level levels processed = Some (levels', processed') →
  Forall (λ l, l ≠ []) levels' ∧
  ∀ i k, inLevel levels' (S i) k → ∃ d, P k d ∧ inLevel levels' i d.
Proof.
  intros Hdep. induction fuel as [|fuel IH];
    intros m level levels processed levels' processed' Hne Htight Hlevel Hloop.
  - destruct level; [ | done]. cbn in Hloop. by simplify_eq.
  - destruct level as [|id level]; [cbn in Hloop; by simplify_eq | ].
    cbn [levelLoop] in Hloop. revert Hloop. apply IH.
    + apply Forall_app. split; [done | ]. by repeat constructor.
    + intros i k [Hk|[Hi Hk]]%inLevel_snoc.
      * destruct (Htight i k Hk) as (d & ? & ?). exists d. split; [done | ].
        apply inLevel_snoc. by left.
      * destruct (Hlevel i k) as (d & ? & ?); [done | done | ]. exists d.
        split; [done | ]. apply inLevel_snoc. by left.
    + intros i k Hi Hk. rewrite length_app in Hi. cbn in Hi.
      apply processLevel_next in Hk as (d & Hd & Hk). exists d. split; [by apply Hdep | ].
      apply inLevel_snoc. right. split; [lia | done].
Qed.

(** The levels of a plan are never empty: [Run] may index [level[0]] and
    spawns at least one goroutine per level. *)
Lemma levels_nonempty o ns levels :
  topoSortLevels o ns = Some (inl levels) → Forall (λ level, level ≠ []) levels.
Proof.
  unfold topoSortLevels. destruct (checkDeps _ _ _) as [inDegree|]; [ | done].
  destruct (levelLoop _ _ _ _ _ _) as [[levels' processed]|] eqn:Hloop; [ | done].
  destruct (bool_decide _); [done | ]. intros [= ->].
  eapply (levelLoop_tight (λ _ _, True)) in Hloop as [? _]; try done.
  - intros i k (l & Hl & _). done.
Qed.

(** Every node of a level after the first has a dependency in the level
    just before: no node waits longer than its dependencies make it. *)
Lemma levels_tight o ns levels :
  keyed ns → topoSortLevels o ns = Some (inl levels) →
  ∀ i k, inLevel levels (S i) k → ∃ d, dependsOn ns k d ∧ inLevel levels i d.
Proof.
  intros Hkey. unfold topoSortLevels. destruct (checkDeps _ _ _) as [inDegree|]; [ | done].
  destruct (levelLoop _ _ _ _ _ _) as [[levels' processed]|] eqn:Hloop; [ | done].
  destruct (bool_decide _); [done | ]. intros [= ->].
  eapply (levelLoop_tight (dependsOn ns)) in Hloop as [_ ?]; try done.
  - intros k d Hk%occ_pos. rewrite (dependents_keyed _ ns k d Hkey) in Hk.
    destruct (ns !! k) as [n|] eqn:Hn; cbn in Hk; [ | lia].
    exists n. split; [done | ]. by apply occ_pos.
  - intros i k (l & Hl & _). done.
Qed.

(** Two plans of a node set that both place every node as early as its
    dependencies allow have the same levels, up to the order within. *)
Lemma tight_plans_agree ns levels1 levels2 :
  planOf ns levels1 → planOf ns levels2 →
  (∀ i k, inLevel levels1 (S i) k → ∃ d, dependsOn ns k d ∧ inLevel levels1 i d) →
  (∀ i k, inLevel levels2 (S i) k → ∃ d, dependsOn ns k d ∧ inLevel levels2 i d) →
  ∀ i k, inLevel levels1 i k → inLevel levels2 i k.
Proof.
  intros [Hnd1 Hnodes1 Horder1 _] [Hnd2 Hnodes2 Horder2 _] Htight1 Htight2 i.
  induction (lt_wf i) as [i _ IH]. intros k Hk.
  assert (Hk2 : k ∈ mjoin levels2).
  { apply Hnodes2, Hnodes1, inLevel_join. by exists i. }
  apply inLevel_join in Hk2 as [j Hj].
  assert (Hle : j ≤ i).
  { destruct j as [|j]; [lia | ].
    destruct (Htight2 j k Hj) as (d & Hd & Hdj).
    destruct (Horder1 i k d Hk Hd) as (j' & Hlt & Hdj').
    apply IH in Hdj'; [ | done].
    rewrite (inLevel_unique levels2 j j' d Hnd2 Hdj Hdj'). lia. }
  assert (Hge : i ≤ j).
  { destruct i as [|i]; [lia | ].
    destruct (Htight1 i k Hk) as (d & Hd & Hdi).
    apply IH in Hdi; [ | lia].
    destruct (Horder2 j k d Hj Hd) as (j' & Hlt & Hdj').
    rewrite (inLevel_unique levels2 i j' d Hnd2 Hdi Hdj'). lia. }
  by replace i with j by lia.
Qed.

Lemma NoDup_join_lookup levels i level :
  NoDup (mjoin levels) → levels !! i = Some level → NoDup level.
Proof.
  intros Hnd Hi. apply list_elem_of_split_length in Hi as (l1 & l2 & -> & _).
  rewrite join_app in Hnd. cbn in Hnd.
  apply NoDup_app in Hnd as (_ & _ & Hnd). by apply NoDup_app in Hnd as (? & _).
Qed.

Lemma sorted_levels_eq (level1 level2 : list string) :
  level1 ≡ₚ level2 → merge_sort String.le level1 = merge_sort String.le level2.
Proof.
  intros Hperm. apply (Sorted_unique String.le).
  - apply Sorted_merge_sort, _.
  - apply Sorted_merge_sort, _.
  - by rewrite !merge_sort_Permutation.
Qed.

(** Levels that hold the same ids, none of them empty, are as many. *)
Lemma agree_length levels1 levels2 :
  Forall (λ l, l ≠ []) levels1 →
  (∀ i k, inLevel levels1 i k → inLevel levels2 i k) →
  length levels1 ≤ length levels2.
Proof.
  intros Hne Hsub. destruct (decide (length levels1 ≤ length levels2)) as [|Hgt]; [done | ].
  destruct (lookup_lt_is_Some_2 levels1 (length levels2)) as [l Hl]; [lia | ].
  rewrite Forall_forall in Hne. specialize (Hne l (list_elem_of_lookup_2 _ _ _ Hl)).
  destruct l as [|k l]; [done | ].
  assert (Hk : inLevel levels1 (length levels2) k) by (exists (k :: l); split; [done | left]).
  apply Hsub, inLevel_lt in Hk. lia.
Qed.

(** Whatever the order in which the maps are visited, planning succeeds
    or fails alike, and the plans have the same ids in the same levels. *)
Lemma plans_agree o1 o2 ns levels1 :
  keyed ns → topoSortLevels o1 ns = Some (inl levels1) →
  ∃ levels2,
    topoSortLevels o2 ns = Some (inl levels2) ∧ planOf ns levels1 ∧ planOf ns levels2 ∧
    (∀ i k, inLevel levels1 i k ↔ inLevel levels2 i k) ∧
    length levels1 = length levels2.
Proof.
  intros Hkey Hplan1.
  destruct (topoSortLevels_inl o1 ns levels1 Hkey Hplan1) as (Hclosed & Hacyclic & Hp1).
  destruct (topoSortLevels_acyclic o2 ns Hkey Hclosed Hacyclic) as (levels2 & Hplan2 & Hp2).
  exists levels2. split_and!; [done | done | done | | ].
  - intros i k. split; apply (tight_plans_agree ns); eauto using levels_tight.
  - apply Nat.le_antisymm; apply agree_length; eauto using levels_nonempty;
      apply (tight_plans_agree ns); eauto using levels_tight.
Qed.

(** X4. The plan does not depend on the order in which the maps are
    visited, but for the order within each level, which [Run] and
    [PrettyPrint] sort away: planning under another order succeeds as
    well, with the same ids in every level and the same sorted levels. *)
Theorem topoSortLevels_order_independent o1 o2 ns levels1 :
  keyed ns → topoSortLevels o1 ns = Some (inl levels1) →
  ∃ levels2,
    topoSortLevels o2 ns = Some (inl levels2) ∧
    (∀ i k, inLevel levels1 i k ↔ inLevel levels2 i k) ∧
    merge_sort String.le <$> levels1 = merge_sort String.le <$> levels2.
Proof.
  intros Hkey Hplan1.
  destruct (plans_agree o1 o2 ns levels1 Hkey Hplan1) as (levels2 & Hplan2 & Hp1 & Hp2 & Hiff & Hlen).
  exists levels2. split_and!; [done | done | ].
  apply list_eq_same_length with (length levels1).
  - by rewrite length_fmap.
  - by rewrite length_fmap.
  - intros i x y _. rewrite !list_lookup_fmap.
    destruct (levels1 !! i) as [l1|] eqn:Hl1; [ | done].
    destruct (levels2 !! i) as [l2|] eqn:Hl2; [ | done].
    cbn. intros [= <-] [= <-]. apply sorted_levels_eq.
    apply NoDup_Permutation.
    + eapply NoDup_join_lookup; [apply Hp1 | done].
    + eapply NoDup_join_lookup; [apply Hp2 | done].
    + intros k. split; intros Hk.
      * destruct (Hiff i k) as [(l & Hl & ?) _]; [by exists l1 | ]. congruence.
      * destruct (Hiff i k) as [_ (l & Hl & ?)]; [by exists l2 | ]. congruence.
Qed.

(** A missing dependency is reported before anything else is looked at,
    cycles among them: the error names the ID of a node that declares a
    missing dependency, and of that node the first one missing. *)
Lemma checkDeps_first ns (es : list (string * Node any)) : ∀ inDegree err,
  checkDeps ns es inDegree = inr err →
  ∃ k n dep before after,
    (k, n) ∈ es ∧ DependsOn n = before ++ dep :: after ∧
    ns !! dep = None ∧ Forall (λ d, is_Some (ns !! d)) before ∧
    err = ErrUnknownDependency (ID n) dep.
Proof.
  induction es as [|[k n] es IH]; intros inDegree err; [done | ]. cbn [checkDeps].
  destruct (list_find _ _) as [[i dep]|] eqn:Hfind.
  - intros [= <-]. apply list_find_Some in Hfind as (Hi & Hdep & Hbefore).
    apply list_elem_of_split_length in Hi as (before & after & Heq & ->).
    exists k, n, dep, before, after. split_and!; [left | done | done | | done].
    apply Forall_forall. intros d Hd. apply list_elem_of_lookup in Hd as [j Hj].
    apply not_eq_None_Some, (Hbefore j).
    + rewrite Heq. by apply lookup_app_l_Some.
    + by eapply lookup_lt_Some.
  - intros (k' & n' & dep & before & after & ? & ?)%IH.
    exists k', n', dep, before, after. split; [by right | done].
Qed.

Lemma planner_open o ns :
  ¬ closed ns →
  ∃ k n dep before after,
    topoSortLevels o ns = Some (inr (ErrUnknownDependency (ID n) dep)) ∧
    ns !! k = Some n ∧ DependsOn n = before ++ dep :: after ∧
    ns !! dep = None ∧ Forall (λ d, is_Some (ns !! d)) before.
Proof.
  intros Hopen. unfold topoSortLevels.
  pose proof (checkDeps_spec ns (range (ord_check o) ns)
                (initInDegree (range (ord_init o) ns))) as Hcheck.
  destruct (checkDeps _ _ _) as [inDegree|err] eqn:Heq.
  - destruct Hopen. intros k n Hn. apply Forall_forall. intros d Hd.
    destruct Hcheck as [_ Hcheck]. apply (Hcheck k n d); [ | done]. by apply elem_of_range.
  - apply checkDeps_first in Heq as (k & n & dep & before & after & Hkn & ? & ? & ? & ->).
    exists k, n, dep, before, after. split_and!; try done. by apply elem_of_range in Hkn.
Qed.

(** On a closed set the planner reports no unknown dependency. *)
Lemma planner_closed o ns node dep :
  closed ns → topoSortLevels o ns ≠ Some (inr (ErrUnknownDependency node dep)).
Proof.
  intros Hclosed. unfold topoSortLevels.
  pose proof (checkDeps_spec ns (range (ord_check o) ns)
                (initInDegree (range (ord_init o) ns))) as Hcheck.
  destruct (checkDeps _ _ _) as [inDegree|err].
  - destruct (levelLoop _ _ _ _ _ _) as [[levels processed]|]; [ | done].
    by destruct (bool_decide _).
  - destruct Hcheck as (k & n & d & Hkn%elem_of_range & Hd & Hnone & _).
    destruct (closed_dependsOn ns k d Hclosed) as [? ?]; [by exists n | congruence].
Qed.

(** X2. The planner reports an unknown dependency exactly on the sets
    that are not closed, before it looks at anything else, cycles among
    them: the error then names the ID of a node that declares a missing
    dependency and, of that node, the first one missing.  The map need not
    key the nodes by their IDs. *)
Theorem topoSortLevels_unknown_dependency o ns :
  (closed ns → ∀ node dep,
     topoSortLevels o ns ≠ Some (inr (ErrUnknownDependency node dep))) ∧
  (¬ closed ns →
   ∃ k n dep before after,
     topoSortLevels o ns = Some (inr (ErrUnknownDependency (ID n) dep)) ∧
     ns !! k = Some n ∧ DependsOn n = before ++ dep :: after ∧
     ns !! dep = None ∧ Forall (λ d, is_Some (ns !! d)) before).
Proof.
  split.
  - intros Hclosed node dep. by apply planner_closed.
  - apply planner_open.
Qed.

(** The errors of the planner on a keyed set: an unknown dependency when
    the set is not closed, the cycle error when it is closed and has a
    cycle. *)
Lemma topoSortLevels_inr o ns err :
  keyed ns → topoSortLevels o ns = Some (inr err) →
  (∃ k n dep, ns !! k = Some n ∧ dep ∈ DependsOn n ∧ ns !! dep = None ∧
              err = ErrUnknownDependency (ID n) dep) ∨
  (closed ns ∧ ¬ acyclic ns ∧ err = ErrCycle).
Proof.
  intros Hkey Hplan. destruct (decide (closed ns)) as [Hclosed|Hopen].
  - right. destruct (topoSortLevels_keyed o ns Hkey Hclosed) as (levels & inDegree & Hinv & _ & Heq).
    rewrite Hplan in Heq. destruct (decide _); [done | ].
    split_and!; [done | | congruence]. intros Hacyclic.
    destruct (topoSortLevels_acyclic o ns Hkey Hclosed Hacyclic) as (levels' & ? & _).
    congruence.
  - left. destruct (planner_open o ns Hopen)
      as (k & n & dep & before & after & Heq & Hn & Hdeps & Hdep & _).
    exists k, n, dep. split_and!; [done | | done | congruence].
    rewrite Hdeps. set_solver.
Qed.

End planner_more.

(** ** The depth of a node *)
Section depth.
Context {any : Type}.
Implicit Types (ns : gmap string (Node any)) (levels : list (list string)).

(** In a plan a chain of [j] dependencies leads [j] levels down at least. *)
Lemma order_nsteps ns levels j : ∀ i k d,
  (∀ i k d, inLevel levels i k → dependsOn ns k d → ∃ j, j < i ∧ inLevel levels j d) →
  inLevel levels i k → nsteps (dependsOn ns) j k d → j ≤ i.
Proof.
  induction j as [|j IH]; intros i k d Horder Hk Hsteps; [lia | ].
  inversion Hsteps as [|? ? k' ? Hstep Hrest]; subst.
  destruct (Horder i k k' Hk Hstep) as (i' & Hlt & Hk').
  specialize (IH i' k' d Horder Hk' Hrest). lia.
Qed.

(** From a node of level [i] a chain of [i] dependencies starts. *)
Lemma tight_nsteps ns levels i : ∀ k,
  (∀ i k, inLevel levels (S i) k → ∃ d, dependsOn ns k d ∧ inLevel levels i d) →
  inLevel levels i k → ∃ d, nsteps (dependsOn ns) i k d.
Proof.
  induction i as [|i IH]; intros k Htight Hk.
  - exists k. constructor.
  - destruct (Htight i k Hk) as (d & Hd & Hdi).
    destruct (IH d Htight Hdi) as [d' Hsteps]. exists d'. by econstructor.
Qed.

(** X3. The level of a node is the length of its longest chain of
    dependencies: a chain that long starts at the node and none is
    longer, so the plan is as parallel as the dependencies allow. *)
Theorem topoSortLevels_depth o ns levels i k :
  keyed ns → topoSortLevels o ns = Some (inl levels) → inLevel levels i k →
  (∃ d, nsteps (dependsOn ns) i k d) ∧
  (∀ j d, nsteps (dependsOn ns) j k d → j ≤ i).
Proof.
  intros Hkey Hplan Hk.
  destruct (topoSortLevels_inl o ns levels Hkey Hplan) as (_ & _ & [_ _ Horder _]).
  split.
  - apply (tight_nsteps ns levels); [ | done]. by apply (levels_tight o).
  - intros j d. by apply (order_nsteps ns levels).
Qed.

(** X1. A plan has no empty level, so that [Run] spawns at least one
    goroutine per level and [level[0]] exists, and no more levels than
    there are nodes. *)
Theorem topoSortLevels_length o ns levels :
  keyed ns → topoSortLevels o ns = Some (inl levels) →
  Forall (λ level, level ≠ []) levels ∧ length levels ≤ size ns.
Proof.
  intros Hkey Hplan. pose proof (levels_nonempty o ns levels Hplan) as Hne.
  split; [done | ].
  destruct (topoSortLevels_inl o ns levels Hkey Hplan) as (_ & _ & [Hnd Hnodes _ _]).
  assert (Hlen : length levels ≤ length (mjoin levels)).
  { clear -Hne. induction Hne as [|l levels Hl _ IH]; [done | ].
    change (mjoin (l :: levels)) with (l ++ mjoin levels).
    rewrite length_app. destruct l; [done | cbn [length]; lia]. }
  etrans; [apply Hlen | ].
  rewrite (proj2 (placed_size ns levels Hnd (λ k Hk, proj1 (Hnodes k) Hk))); [done | ].
  intros k Hk. by apply Hnodes.
Qed.

End depth.

(** ** More on the executor *)
Section executor_more.
Context {any : Type} (nil : any).
Implicit Types (ns : gmap string (Node any)) (e : Engine any).
Implicit Types (o : MapOrders) (scheds : list (list nat)).
Implicit Types (rs : gmap string (Result any)) (log : list (call any)).
Implicit Types (levels : list (list string)).

(** A successful [Run] leaves a solution, and every other [Run] of the
    same engine finds it. *)
Lemma Run_solves o scheds e e' log :
  keyed (nodes e) → Run nil o scheds e = Some (Returned None, e', log) →
  closed (nodes e) ∧ acyclic (nodes e) ∧ solves nil (nodes e) (results e') ∧
  nodes e' = nodes e ∧
  (∀ k, nodes e !! k = None → results e' !! k = results e !! k).
Proof.
  intros Hkey HRun.
  destruct (Run_keyed nil o scheds e Hkey)
    as [(err & _ & HRun')|(levels & ran & out & rs & log' & Hlevels & Hplan & HRun' & Hpost)];
    rewrite HRun in HRun'; [done | ].
  assert (out = Returned None ∧ e' = mkEngine (nodes e) rs ∧ log' = log) as (-> & -> & ->)
    by (split_and!; congruence).
  destruct (topoSortLevels_inl o (nodes e) levels Hkey Hlevels) as (Hclosed & Hacyclic & _).
  pose proof Hpost as [_ _ Houtside _ [-> _]]. cbn [app results nodes] in *.
  split_and!; [done | done | by eapply runPost_solves | done | ].
  intros k Hk. apply Houtside. rewrite firstn_all.
  intros Hin%(plan_nodes _ _ Hplan). rewrite Hk in Hin. by destruct Hin.
Qed.

(** With run functions that answer a call again as they answered it
    before, a second [Run] of an engine that ran successfully succeeds,
    calls every run function again with the same arguments, and leaves
    the engine as it is. *)
Lemma Run_again_same o1 scheds1 o2 scheds2 e e' log1 :
  keyed (nodes e) → Run nil o1 scheds1 e = Some (Returned None, e', log1) →
  ∃ log2, Run nil o2 scheds2 e' = Some (Returned None, e', log2) ∧ log2 ≡ₚ log1.
Proof.
  intros Hkey HRun1.
  destruct (Run_solves o1 scheds1 e e' log1 Hkey HRun1)
    as (Hclosed & Hacyclic & Hsol & Hnodes & Hout).
  destruct (Run_solution nil o1 scheds1 e _ Hkey Hclosed Hacyclic Hsol)
    as (rs1 & log1' & HRun1' & Hrs1 & Hnd1 & Hlog1).
  rewrite HRun1 in HRun1'.
  assert (e' = mkEngine (nodes e) rs1 ∧ log1' = log1) as [-> ->] by (split; congruence).
  cbn [results nodes] in *.
  destruct (Run_solution nil o2 scheds2 (mkEngine (nodes e) rs1) rs1)
    as (rs2 & log2 & HRun2 & Hrs2 & Hnd2 & Hlog2); try done.
  cbn [results nodes] in *.
  exists log2. assert (rs2 = rs1) as ->.
  { apply map_eq. intros k. rewrite Hrs2. by destruct (decide _). }
  split; [done | ]. apply NoDup_Permutation.
  - by eapply NoDup_fmap_1.
  - by eapply NoDup_fmap_1.
  - intros [id deps]. by rewrite Hlog1, Hlog2.
Qed.

(** On an engine whose map keys every node by its ID, [Run] returns: it
    does not panic, and the error it returns, if any, is a planning error
    or the failure of a node of the engine. *)
Lemma Run_outcome o scheds e :
  keyed (nodes e) →
  ∃ err e' log,
    Run nil o scheds e = Some (Returned err, e', log) ∧ nodes e' = nodes e ∧
    match err with
    | None => True
    | Some (ErrUnknownDependency node dep) =>
        (∃ n, nodes e !! node = Some n ∧ dep ∈ DependsOn n) ∧ nodes e !! dep = None ∧
        e' = e ∧ log = []
    | Some ErrCycle => ¬ acyclic (nodes e) ∧ e' = e ∧ log = []
    | Some (ErrNodeFailed id cause) =>
        ∃ n deps, nodes e !! id = Some n ∧ (id, deps) ∈ log ∧ NodeRun n deps = inr cause
    | Some (ErrUnknownNode _) => False
    end.
Proof.
  intros Hkey.
  destruct (Run_keyed nil o scheds e Hkey)
    as [(err & Hplan & HRun)|(levels & ran & out & rs & log & _ & Hplan & HRun & Hpost)].
  - exists (Some err), e, []. split_and!; [done | done | ].
    destruct (topoSortLevels_inr o (nodes e) err Hkey Hplan)
      as [(k & n & dep & Hn & ? & ? & ->)|(_ & ? & ->)]; [ | done].
    rewrite (Hkey k n Hn). split_and!; [by exists n | done | done | done].
  - destruct Hpost as [_ _ _ _ Hout]. destruct out as [[err|]|]; [ | | done].
    + exists (Some err), (mkEngine (nodes e) rs), log. split_and!; [done | done | ].
      destruct Hout as (i & id & n & cause & _ & _ & Hn & Hin & Hfail & -> & _).
      by exists n, (gatherDeps nil rs (DependsOn n)).
    + by exists None, (mkEngine (nodes e) rs), log.
Qed.

(** The results after [Run]: a call that returned a result left it under
    the ID of its node, every other key holds what it held before. *)
Lemma Run_frame o scheds e out e' log :
  keyed (nodes e) → Run nil o scheds e = Some (out, e', log) →
  NoDup log.*1 ∧
  (∀ id deps, (id, deps) ∈ log →
     ∃ n, nodes e !! id = Some n ∧
       match NodeRun n deps with
       | inl r => Results e' !! id = Some r
       | inr _ => Results e' !! id = Results e !! id
       end) ∧
  (∀ k, k ∉ log.*1 → Results e' !! k = Results e !! k).
Proof.
  intros Hkey HRun.
  destruct (Run_keyed nil o scheds e Hkey)
    as [(err & _ & HRun')|(levels & ran & out' & rs & log' & _ & Hplan & HRun' & Hpost)];
    rewrite HRun in HRun'.
  - assert (e' = e ∧ log = []) as [-> ->] by (split; congruence).
    split_and!; [constructor | by intros ?? ?%elem_of_nil | done].
  - assert (e' = mkEngine (nodes e) rs ∧ log' = log) as (-> & ->) by (split; congruence).
    destruct Hpost as [_ Hcalled Houtside Hcalls _]. cbn [app] in *.
    unfold Results. cbn [results]. split_and!.
    + rewrite Hcalled. pose proof (plan_NoDup _ _ Hplan) as Hnd.
      rewrite <- (take_drop ran levels), join_app in Hnd. by apply NoDup_app in Hnd as [? _].
    + intros id deps Hcall. destruct (Hcalls id deps Hcall) as (n & Hn & _ & Hrun).
      by exists n.
    + intros k Hk. apply Houtside. by rewrite <- Hcalled.
Qed.

(** X6. The results after [Run], whatever its outcome and whatever the
    engine held before: no run function was called twice; under the ID of
    a node whose call returned a result, that result; under the ID of a
    node whose call failed and under every key [Run] did not call, what
    was there before.  A reused engine so keeps the results of an earlier
    run for the nodes that failed or were not reached. *)
Theorem Run_results o scheds e out e' log :
  keyed (nodes e) → Run nil o scheds e = Some (out, e', log) →
  NoDup log.*1 ∧
  (∀ id deps, (id, deps) ∈ log →
     ∃ n, nodes e !! id = Some n ∧
       match NodeRun n deps with
       | inl r => Results e' !! id = Some r
       | inr _ => Results e' !! id = Results e !! id
       end) ∧
  (∀ k, k ∉ log.*1 → Results e' !! k = Results e !! k).
Proof. apply Run_frame. Qed.

End executor_more.

Section determinism.
Context {any : Type} (nil : any).
Implicit Types (ns : gmap string (Node any)) (e : Engine any).
Implicit Types (o : MapOrders) (scheds : list (list nat)).
Implicit Types (rs : gmap string (Result any)) (log : list (call any)).
Implicit Types (levels : list (list string)).

(** A run in which the call of a node of level [j] failed stopped after
    that level, with an error. *)
Lemma runPost_failed ns rs0 levels ran out rs log j id n cause :
  planOf ns levels → runPost nil ns rs0 [] levels ran out rs log →
  inLevel levels j id → j < ran → ns !! id = Some n →
  NodeRun n (gatherDeps nil rs (DependsOn n)) = inr cause →
  ran = S j ∧ out ≠ Returned None.
Proof.
  intros Hplan [_ Hcalled _ Hcalls Hout] Hid Hj Hn Hfail. cbn [app] in *.
  assert (Hin : id ∈ log.*1).
  { rewrite Hcalled. apply join_take_inLevel. by exists j. }
  apply elem_of_log_fst in Hin as [deps Hin].
  destruct (Hcalls id deps Hin) as (n' & Hn' & -> & _).
  assert (n' = n) as -> by congruence.
  destruct out as [[err|]|]; [ | | done].
  - destruct Hout as (i & _ & _ & _ & -> & _ & _ & _ & _ & _ & Hok).
    split; [ | done]. destruct (decide (j = i)) as [->|Hne]; [done | ].
    destruct (Hok id _ n Hin) as [r Hr]; [ | done | congruence].
    apply join_take_inLevel. exists j. split; [lia | done].
  - destruct Hout as [_ Hok]. destruct (Hok id _ n Hin Hn) as [r Hr]. congruence.
Qed.

Lemma sameNodes_sym ns ns' : sameNodes ns ns' → sameNodes ns' ns.
Proof.
  intros H k. destruct (H k) as [n n' (? & ?)|]; constructor. by split.
Qed.

Lemma sameNodes_lookup ns ns' k n :
  sameNodes ns ns' → ns !! k = Some n →
  ∃ n', ns' !! k = Some n' ∧ ID n = ID n' ∧ DependsOn n = DependsOn n'.
Proof.
  intros H Hn. specialize (H k). rewrite Hn in H. inversion H as [? n' ? Heq Hn'|].
  by exists n'.
Qed.

Lemma sameNodes_dependsOn ns ns' k d :
  sameNodes ns ns' → dependsOn ns k d → dependsOn ns' k d.
Proof.
  intros H (n & Hn & Hd). destruct (sameNodes_lookup _ _ _ _ H Hn) as (n' & ? & _ & Hp).
  exists n'. split; [done | ]. by rewrite <- Hp.
Qed.

Lemma sameNodes_keyed ns ns' : sameNodes ns ns' → keyed ns' → keyed ns.
Proof.
  intros H Hkey k n Hn. destruct (sameNodes_lookup _ _ _ _ H Hn) as (n' & Hn' & -> & _).
  by apply (Hkey k n').
Qed.

Lemma sameNodes_closed ns ns' : sameNodes ns ns' → closed ns' → closed ns.
Proof.
  intros H Hclosed k n Hn. apply Forall_forall. intros d Hd.
  destruct (closed_dependsOn ns' k d Hclosed) as [n' Hn'].
  - apply (sameNodes_dependsOn ns); [done | by exists n].
  - destruct (sameNodes_lookup _ _ _ _ (sameNodes_sym _ _ H) Hn') as (? & ? & _). by eexists.
Qed.

Lemma sameNodes_acyclic ns ns' : sameNodes ns ns' → acyclic ns' → acyclic ns.
Proof.
  intros H Hacyclic k Hk. apply (Hacyclic k).
  apply (tc_congruence (λ x, x) (dependsOn ns')) in Hk; [done | ].
  intros x y. by apply sameNodes_dependsOn.
Qed.

Lemma sameNodes_planOf ns ns' levels : sameNodes ns ns' → planOf ns' levels → planOf ns levels.
Proof.
  intros H [Hnd Hnodes Horder Hfirst]. pose proof (sameNodes_sym _ _ H) as H'.
  split; [done | | | ].
  - intros k. rewrite Hnodes. split; intros [n Hn].
    + destruct (sameNodes_lookup _ _ _ _ H' Hn) as (? & ? & _). by eexists.
    + destruct (sameNodes_lookup _ _ _ _ H Hn) as (? & ? & _). by eexists.
  - intros i k d Hk Hd. apply (Horder i k d Hk). by apply (sameNodes_dependsOn ns).
  - intros k. rewrite Hfirst. split; intros (n & Hn & Hd).
    + destruct (sameNodes_lookup _ _ _ _ H' Hn) as (n' & ? & _ & Heq). exists n'.
      split; [done | congruence].
    + destruct (sameNodes_lookup _ _ _ _ H Hn) as (n' & ? & _ & Heq). exists n'.
      split; [done | congruence].
Qed.

Section two_runs.
Context (ns ns' : gmap string (Node any)) (rs0 : gmap string (Result any)).
Context (levels1 levels2 : list (list string)).
Context (Hplan2 : planOf ns' levels2).
Context (Hagree : ∀ i k, inLevel levels1 i k ↔ inLevel levels2 i k).
Context (Hsame : sameNodes ns ns').

(** A second run, by run functions that answer the calls of the first as
    they were answered then, goes no further than the first; it hands
    every node it reaches the dependency results the first run handed it,
    and leaves the same under its ID. *)
Lemma runPost_alike ran1 out1 rs1 log1 ran2 out2 rs2 log2 :
  runPost nil ns rs0 [] levels1 ran1 out1 rs1 log1 →
  runPost nil ns' rs0 [] levels2 ran2 out2 rs2 log2 →
  answersAlike ns ns' log1 →
  ∀ j id n, j < ran2 → inLevel levels2 j id → ns !! id = Some n →
    j < ran1 ∧ gatherDeps nil rs2 (DependsOn n) = gatherDeps nil rs1 (DependsOn n) ∧
    (id, gatherDeps nil rs1 (DependsOn n)) ∈ log1 ∧
    (id, gatherDeps nil rs1 (DependsOn n)) ∈ log2 ∧
    rs2 !! id = rs1 !! id.
Proof.
  intros Hpost1 Hpost2 Halike j.
  pose proof Hpost1 as [Hran1 Hcalled1 _ Hcalls1 Hout1].
  pose proof Hpost2 as [Hran2 Hcalled2 _ Hcalls2 _]. cbn [app] in *.
  pose proof (sameNodes_planOf _ _ _ Hsame Hplan2) as Hplan2'.
  induction (lt_wf j) as [j _ IH]. intros id n Hj2 Hid Hn.
  assert (Hdeps : gatherDeps nil rs2 (DependsOn n) = gatherDeps nil rs1 (DependsOn n)).
  { apply gatherDeps_ext. intros d Hd.
    destruct (plan_order _ _ Hplan2' j id d Hid) as (j' & Hj' & Hdj'); [by exists n | ].
    destruct (plan_nodes _ _ Hplan2' d) as [[n' Hn'] _]; [apply inLevel_join; by exists j' | ].
    apply (IH j' Hj' d n'); [lia | done | done]. }
  assert (Hj1 : j < ran1).
  { destruct (decide (j < ran1)) as [|Hge]; [done | exfalso].
    apply Hagree, inLevel_lt in Hid as Hlt.
    destruct out1 as [[err1|]|]; [ | destruct Hout1; lia | done].
    destruct Hout1 as (i & idf & nf & cause & -> & Hidf & Hnf & Hinf & Hfail & _ & _).
    destruct (IH i ltac:(lia) idf nf) as (_ & Hdepsf & _); [lia | by apply Hagree | done | ].
    destruct (sameNodes_lookup _ _ _ _ Hsame Hnf) as (nf' & Hnf' & _ & Heq).
    destruct (runPost_failed ns' rs0 levels2 ran2 out2 rs2 log2 i idf nf' cause Hplan2 Hpost2)
      as [? _]; [by apply Hagree | lia | done | | lia].
    rewrite <- Heq, Hdepsf. rewrite <- Hfail. by apply (Halike idf _ nf nf'). }
  assert (Hin1 : id ∈ log1.*1).
  { rewrite Hcalled1. apply join_take_inLevel. exists j. split; [done | by apply Hagree]. }
  assert (Hin2 : id ∈ log2.*1).
  { rewrite Hcalled2. apply join_take_inLevel. by exists j. }
  apply elem_of_log_fst in Hin1 as [deps1 Hin1]. apply elem_of_log_fst in Hin2 as [deps2 Hin2].
  destruct (Hcalls1 id deps1 Hin1) as (n1 & Hn1 & -> & Hrun1).
  destruct (Hcalls2 id deps2 Hin2) as (n2 & Hn2 & -> & Hrun2).
  assert (n1 = n) as -> by congruence.
  destruct (sameNodes_lookup _ _ _ _ Hsame Hn) as (n' & Hn' & _ & Heq).
  assert (n2 = n') as -> by congruence.
  rewrite <- Heq, Hdeps in Hrun2, Hin2.
  rewrite (Halike id _ n n' Hin1 Hn Hn') in Hrun2.
  split_and!; [done | done | done | done | ].
  destruct (NodeRun n _); congruence.
Qed.

End two_runs.
(** Two runs of the same nodes, in the second of which the run functions
    answer the calls of the first as they were answered then, leave the
    same results, make the same calls, and succeed or fail together. *)
Lemma Run_alike o1 scheds1 o2 scheds2 ns ns' rs out1 e1 log1 out2 e2 log2 :
  keyed ns → sameNodes ns ns' →
  Run nil o1 scheds1 (mkEngine ns rs) = Some (out1, e1, log1) →
  Run nil o2 scheds2 (mkEngine ns' rs) = Some (out2, e2, log2) →
  answersAlike ns ns' log1 →
  nodes e1 = ns ∧ nodes e2 = ns' ∧ results e2 = results e1 ∧ log2 ≡ₚ log1 ∧
  (out1 = Returned None ↔ out2 = Returned None).
Proof.
  intros Hkey Hsame HRun1 HRun2 Halike.
  pose proof (sameNodes_sym _ _ Hsame) as Hsame'.
  assert (Hkey' : keyed ns') by by apply (sameNodes_keyed _ ns).
  destruct (Run_keyed nil o1 scheds1 (mkEngine ns rs) Hkey)
    as [(err1 & Hl1 & HRun1')|(levels1 & ran1 & out1' & rs1 & log1' & Hl1 & Hplan1 & HRun1' & Hpost1)];
    rewrite HRun1 in HRun1';
  destruct (Run_keyed nil o2 scheds2 (mkEngine ns' rs) Hkey')
    as [(err2 & Hl2 & HRun2')|(levels2 & ran2 & out2' & rs2 & log2' & Hl2 & Hplan2 & HRun2' & Hpost2)];
    rewrite HRun2 in HRun2'; cbn [nodes results] in *.
  - simplify_eq. done.
  - destruct (topoSortLevels_inl o2 ns' levels2 Hkey' Hl2) as (Hclosed & Hacyclic & _).
    destruct (topoSortLevels_acyclic o1 ns Hkey) as (? & ? & _);
      [by apply (sameNodes_closed _ ns') | by apply (sameNodes_acyclic _ ns') | congruence].
  - destruct (topoSortLevels_inl o1 ns levels1 Hkey Hl1) as (Hclosed & Hacyclic & _).
    destruct (topoSortLevels_acyclic o2 ns' Hkey') as (? & ? & _);
      [by apply (sameNodes_closed _ ns) | by apply (sameNodes_acyclic _ ns) | congruence].
  - assert (out1' = out1 ∧ e1 = mkEngine ns rs1 ∧ log1' = log1) as (-> & -> & ->)
      by (split_and!; congruence).
    assert (out2' = out2 ∧ e2 = mkEngine ns' rs2 ∧ log2' = log2) as (-> & -> & ->)
      by (split_and!; congruence).
    clear HRun1' HRun2'. cbn [nodes results].
    pose proof (sameNodes_planOf _ _ _ Hsame Hplan2) as Hplan2'.
    assert (Htight1 : ∀ i k, inLevel levels1 (S i) k →
              ∃ d, dependsOn ns k d ∧ inLevel levels1 i d) by by apply (levels_tight o1).
    assert (Htight2 : ∀ i k, inLevel levels2 (S i) k →
              ∃ d, dependsOn ns k d ∧ inLevel levels2 i d).
    { intros i k Hk. destruct (levels_tight o2 ns' levels2 Hkey' Hl2 i k Hk) as (d & Hd & Hi).
      exists d. split; [by apply (sameNodes_dependsOn ns') | done]. }
    assert (Hagree : ∀ i k, inLevel levels1 i k ↔ inLevel levels2 i k).
    { intros i k. split; by apply (tight_plans_agree ns). }
    assert (Hlen : length levels1 = length levels2).
    { apply Nat.le_antisymm; apply agree_length; eauto using levels_nonempty;
        intros i k; apply Hagree. }
    pose proof (runPost_alike ns ns' rs levels1 levels2 Hplan2 Hagree Hsame
                  _ _ _ _ _ _ _ _ Hpost1 Hpost2 Halike) as Hal.
    pose proof Hpost1 as [Hran1 Hcalled1 Houtside1 Hcalls1 Hout1].
    pose proof Hpost2 as [Hran2 Hcalled2 Houtside2 Hcalls2 Hout2]. cbn [app] in *.
    assert (Hran : ran1 = ran2 ∧ (out1 = Returned None ↔ out2 = Returned None)).
    { destruct out2 as [[err2|]|]; [ | | done].
      - destruct Hout2 as (i2 & id2 & n2' & cause2 & -> & Hid2 & Hn2' & _ & Hfail2 & _ & _).
        destruct (sameNodes_lookup _ _ _ _ Hsame' Hn2') as (n2 & Hn2 & _ & Heq).
        destruct (Hal i2 id2 n2) as (Hlt & Hdeps & Hin1 & _); [lia | done | done | ].
        rewrite Heq, Hdeps, (Halike id2 _ n2 n2' Hin1 Hn2 Hn2') in Hfail2.
        destruct (runPost_failed ns rs levels1 _ _ rs1 log1 i2 id2 n2 cause2 Hplan1 Hpost1)
          as [-> Hne]; [by apply Hagree | done | done | done | ].
        split; [done | ]. split; [done | intros [=]].
      - destruct Hout2 as [-> _]. split; [ | split; [done | ]].
        + apply Nat.le_antisymm; [lia | ].
          destruct (length levels2) as [|j] eqn:Hl; [lia | ].
          destruct (lookup_lt_is_Some_2 levels2 j) as [l Hj]; [lia | ].
          pose proof (levels_nonempty o2 ns' levels2 Hl2) as Hne.
          rewrite Forall_forall in Hne. specialize (Hne l (list_elem_of_lookup_2 _ _ _ Hj)).
          destruct l as [|k l]; [done | ].
          assert (Hk : inLevel levels2 j k) by (exists (k :: l); split; [done | left]).
          destruct (plan_nodes _ _ Hplan2' k) as [[n Hn] _]; [apply inLevel_join; by exists j | ].
          destruct (Hal j k n) as (? & _); [lia | done | done | lia].
        + intros _. destruct out1 as [[err1|]|]; [ | done | done]. exfalso.
          destruct Hout1 as (i & id & n & cause & -> & Hid & Hn & Hin1 & Hfail & _ & _).
          destruct (sameNodes_lookup _ _ _ _ Hsame Hn) as (n' & Hn' & _ & Heq).
          destruct (Hal i id n) as (_ & Hdeps & _); [lia | by apply Hagree | done | ].
          destruct (runPost_failed ns' rs levels2 _ _ rs2 log2 i id n' cause Hplan2 Hpost2)
            as [_ Hne]; [by apply Hagree | lia | done | | done].
          rewrite <- Heq, Hdeps. rewrite <- Hfail. by apply (Halike id _ n n'). }
    destruct Hran as [-> Hout].
    assert (Hin : ∀ k, k ∈ mjoin (take ran2 levels1) ↔ k ∈ mjoin (take ran2 levels2)).
    { intros k. rewrite !join_take_inLevel. by setoid_rewrite Hagree. }
    split_and!; [done | done | | | done].
    + apply map_eq. intros k.
      destruct (decide (k ∈ mjoin (take ran2 levels2))) as [Hk|Hk].
      * apply join_take_inLevel in Hk as (j & Hj & Hk).
        destruct (plan_nodes _ _ Hplan2' k) as [[n Hn] _]; [apply inLevel_join; by exists j | ].
        by apply (Hal j k n).
      * rewrite Houtside2 by done. symmetry. apply Houtside1. by rewrite Hin.
    + assert (Hnd : ∀ levels, planOf ns levels → NoDup (mjoin (take ran2 levels))).
      { intros levels Hplan. pose proof (plan_NoDup _ _ Hplan) as Hnd.
        rewrite <- (take_drop ran2 levels), join_app in Hnd. by apply NoDup_app in Hnd as [? _]. }
      apply NoDup_Permutation.
      * apply (NoDup_fmap_1 fst). rewrite Hcalled2. by apply Hnd.
      * apply (NoDup_fmap_1 fst). rewrite Hcalled1. by apply Hnd.
      * intros [id deps]. split; intros Hx.
        -- assert (Hid : id ∈ log2.*1) by (apply elem_of_log_fst; by exists deps).
           rewrite Hcalled2 in Hid. apply join_take_inLevel in Hid as (j & Hj & Hid).
           destruct (Hcalls2 id deps Hx) as (n' & Hn' & -> & _).
           destruct (sameNodes_lookup _ _ _ _ Hsame' Hn') as (n & Hn & _ & Heq).
           destruct (Hal j id n) as (_ & Hdeps & Hin1 & _); [lia | done | done | ].
           by rewrite Heq, Hdeps.
        -- assert (Hid : id ∈ log1.*1) by (apply elem_of_log_fst; by exists deps).
           rewrite Hcalled1 in Hid. apply join_take_inLevel in Hid as (j & Hj & Hid).
           destruct (Hcalls1 id deps Hx) as (n & Hn & -> & _).
           by destruct (Hal j id n) as (_ & _ & _ & Hin2 & _); [lia | by apply Hagree | done | ].
Qed.

Lemma sameNodes_refl ns : sameNodes ns ns.
Proof. intros k. by destruct (ns !! k); constructor. Qed.

Lemma answersAlike_refl ns log : answersAlike ns ns log.
Proof. intros id deps n n' _ Hn Hn'. congruence. Qed.

(** X7. [Run] is deterministic but for the failure it reports, as far as
    the run functions are.  Take two runs of an engine keyed by node ID,
    from the same results, whatever the interleavings of the goroutines
    and the orders in which the maps are visited; the run functions may
    be closures that answer a call of the second run otherwise than they
    would have in the first ([ns'] has the nodes of the engine with the
    run functions as they are in the second run).  If in the second run
    they answer the calls of the first as they were answered then, the
    two runs leave the same results, make the same calls with the same
    arguments, and succeed or fail together.  A run function that is
    nil, panics or does not return has no counterpart here. *)
Theorem Run_deterministic o1 scheds1 o2 scheds2 e ns' out1 e1 log1 out2 e2 log2 :
  keyed (nodes e) → sameNodes (nodes e) ns' →
  Run nil o1 scheds1 e = Some (out1, e1, log1) →
  Run nil o2 scheds2 (mkEngine ns' (results e)) = Some (out2, e2, log2) →
  answersAlike (nodes e) ns' log1 →
  nodes e1 = nodes e ∧ nodes e2 = ns' ∧ results e2 = results e1 ∧ log2 ≡ₚ log1 ∧
  (out1 = Returned None ↔ out2 = Returned None).
Proof.
  destruct e as [ns rs]. cbn [nodes results]. apply Run_alike.
Qed.

(** X8. A second [Run] of an engine keyed by node ID that ran
    successfully, in which the run functions (closures, which [ns'] has
    as they are in the second run) answer the calls of the first run as
    they were answered then, succeeds, calls every run function again
    with the same arguments, and leaves the results as they are.  A run
    function that is nil, panics or does not return has no counterpart
    here. *)
Theorem Run_again o1 scheds1 o2 scheds2 e ns' e' log1 :
  keyed (nodes e) → sameNodes (nodes e) ns' →
  Run nil o1 scheds1 e = Some (Returned None, e', log1) →
  answersAlike (nodes e) ns' log1 →
  nodes e' = nodes e ∧
  ∃ log2, Run nil o2 scheds2 (mkEngine ns' (results e'))
            = Some (Returned None, mkEngine ns' (results e'), log2) ∧ log2 ≡ₚ log1.
Proof.
  intros Hkey Hsame HRun1 Halike.
  destruct (Run_again_same nil o1 scheds1 o2 scheds2 e e' log1 Hkey HRun1)
    as (log2' & HRun2' & Hlog2').
  destruct (Run_solves nil o1 scheds1 e e' log1 Hkey HRun1) as (_ & _ & _ & Hnodes & _).
  split; [done | ].
  assert (Hkey' : keyed ns') by by apply (sameNodes_keyed _ (nodes e)); [apply sameNodes_sym | ].
  destruct (Run_outcome nil o2 scheds2 (mkEngine ns' (results e')) Hkey')
    as (err & e2 & log2 & HRun2 & _).
  destruct e' as [ns1 rs1]. cbn [nodes results] in *. subst ns1.
  destruct (Run_alike o2 scheds2 o2 scheds2 (nodes e) ns' rs1 _ _ _ _ _ _
              Hkey Hsame HRun2' HRun2) as (_ & Hn2 & Hrs2 & Hlog2 & Hout).
  { intros id deps n n' Hin. apply Halike. by rewrite <- Hlog2'. }
  destruct Hout as [Hout _]. specialize (Hout eq_refl). injection Hout as ->.
  exists log2. split; [ | by rewrite Hlog2].
  rewrite HRun2. destruct e2 as [ns2 rs2]. cbn [nodes results] in *. by subst.
Qed.

End determinism.

Section same_graph.
Context {any : Type} (nil : any).
Implicit Types (ns : gmap string (Node any)) (e : Engine any).
Implicit Types (rs : gmap string (Result any)).

Lemma sameGraph_sym ns ns' : sameGraph ns ns' → sameGraph ns' ns.
Proof.
  intros H k. destruct (H k) as [n n' (? & ? & ?)|]; constructor. by split_and!.
Qed.

Lemma sameGraph_lookup ns ns' k n :
  sameGraph ns ns' → ns !! k = Some n →
  ∃ n', ns' !! k = Some n' ∧ ID n = ID n' ∧ NodeRun n = NodeRun n' ∧
        DependsOn n ≡ₚ DependsOn n'.
Proof.
  intros H Hn. specialize (H k). rewrite Hn in H. inversion H as [? n' ? Heq Hn'|].
  by exists n'.
Qed.

Lemma sameGraph_dependsOn ns ns' k d :
  sameGraph ns ns' → dependsOn ns k d → dependsOn ns' k d.
Proof.
  intros H (n & Hn & Hd). destruct (sameGraph_lookup _ _ _ _ H Hn) as (n' & ? & _ & _ & Hp).
  exists n'. split; [done | ]. by rewrite <- Hp.
Qed.

Lemma sameGraph_keyed ns ns' : sameGraph ns ns' → keyed ns' → keyed ns.
Proof.
  intros H Hkey k n Hn. destruct (sameGraph_lookup _ _ _ _ H Hn) as (n' & Hn' & -> & _).
  by apply (Hkey k n').
Qed.

Lemma sameGraph_closed ns ns' : sameGraph ns ns' → closed ns' → closed ns.
Proof.
  intros H Hclosed k n Hn. apply Forall_forall. intros d Hd.
  destruct (closed_dependsOn ns' k d Hclosed) as [n' Hn'].
  - apply (sameGraph_dependsOn ns); [done | by exists n].
  - destruct (sameGraph_lookup _ _ _ _ (sameGraph_sym _ _ H) Hn') as (? & ? & _). by eexists.
Qed.

Lemma sameGraph_acyclic ns ns' : sameGraph ns ns' → acyclic ns' → acyclic ns.
Proof.
  intros H Hacyclic k Hk. apply (Hacyclic k).
  apply (tc_congruence (λ x, x) (dependsOn ns')) in Hk; [done | ].
  intros x y. by apply sameGraph_dependsOn.
Qed.

Lemma gatherDeps_Permutation rs (deps deps' : list string) :
  deps ≡ₚ deps' → gatherDeps nil rs deps = gatherDeps nil rs deps'.
Proof.
  intros Hp. apply map_eq. intros d. rewrite !gatherDeps_lookup.
  destruct (decide (d ∈ deps)) as [Hd|Hd]; rewrite Hp in Hd.
  - by rewrite decide_True.
  - by rewrite decide_False.
Qed.

Lemma sameGraph_solves ns ns' rs : sameGraph ns ns' → solves nil ns' rs → solves nil ns rs.
Proof.
  intros H Hsol id n Hn.
  destruct (sameGraph_lookup _ _ _ _ H Hn) as (n' & Hn' & _ & Hrun & Hp).
  destruct (Hsol id n' Hn') as (r & Hr & ?). exists r. split; [ | done].
  by rewrite Hrun, (gatherDeps_Permutation rs _ _ Hp).
Qed.

(** A successful [Run] is as successful, with the same results, on an
    engine whose nodes list their dependencies in another order. *)
Lemma Run_sameGraph o scheds o' scheds' e e' rs log :
  keyed (nodes e) → sameGraph (nodes e) (nodes e') → results e' = results e →
  Run nil o scheds e = Some (Returned None, mkEngine (nodes e) rs, log) →
  ∃ log', Run nil o' scheds' e' = Some (Returned None, mkEngine (nodes e') rs, log').
Proof.
  intros Hkey Hsame Hres HRun.
  destruct (Run_solves nil o scheds e _ log Hkey HRun)
    as (Hclosed & Hacyclic & Hsol & _ & Hout). cbn [results] in *.
  pose proof (sameGraph_sym _ _ Hsame) as Hsame'.
  destruct (Run_solution nil o' scheds' e' rs) as (rs' & log' & HRun' & Hrs' & _).
  - by apply (sameGraph_keyed _ (nodes e)).
  - by apply (sameGraph_closed _ (nodes e)).
  - by apply (sameGraph_acyclic _ (nodes e)).
  - by apply (sameGraph_solves _ (nodes e)).
  - exists log'. rewrite HRun'. repeat f_equal. apply map_eq. intros k. rewrite Hrs'.
    destruct (decide _) as [Hk|Hk]; [done | ]. rewrite Hres. symmetry. apply Hout.
    destruct (nodes e !! k) as [n|] eqn:Hn; [ | done]. destruct Hk.
    destruct (sameGraph_lookup _ _ _ _ Hsame Hn) as (? & ? & _). by eexists.
Qed.

End same_graph.

(** ** More on [PrettyPrint] *)
Section pretty_more.
Context {any : Type} (nil : any).
Implicit Types (ns : gmap string (Node any)) (e : Engine any).

Lemma PrettyPrint_sameGraph e : sameGraph (nodes e) (nodes (PrettyPrint e)).
Proof.
  intros k. destruct (PrettyPrint_nodes e k) as [_ ->].
  destruct (nodes e !! k) as [n|]; constructor.
  destruct (printed_frame n) as (? & ? & ? & _). by split_and!.
Qed.

Lemma printed_sorted (n : Node any) :
  Sorted String.le (DependsOn n) → printed n = n.
Proof.
  intros Hsorted. unfold printed. destruct (bool_decide _); [ | done].
  destruct n as [id deps run]. cbn in *. f_equal.
  apply (Sorted_unique String.le); [apply Sorted_merge_sort, _ | done | ].
  apply merge_sort_Permutation.
Qed.

(** [e.PrettyPrint(); e.Run()] on nodes that have their dependencies to
    themselves: [Run] succeeds after [PrettyPrint] exactly when it
    succeeds without, and leaves the same results. *)
Lemma PrettyPrint_then_Run o1 scheds1 o2 scheds2 e :
  keyed (nodes e) →
  (∀ e1 log1, Run nil o1 scheds1 e = Some (Returned None, e1, log1) →
     ∃ log2, Run nil o2 scheds2 (PrettyPrint e) = Some (Returned None, PrettyPrint e1, log2)) ∧
  (∀ e2 log2, Run nil o2 scheds2 (PrettyPrint e) = Some (Returned None, e2, log2) →
     ∃ e1 log1, Run nil o1 scheds1 e = Some (Returned None, e1, log1) ∧
                e2 = PrettyPrint e1).
Proof.
  intros Hkey. pose proof (PrettyPrint_sameGraph e) as Hsame. split.
  - intros e1 log1 HRun. pose proof (Run_nodes nil _ _ _ _ _ _ HRun) as Hnodes.
    destruct e1 as [ns1 rs1]. cbn in Hnodes. subst ns1.
    destruct (Run_sameGraph nil o1 scheds1 o2 scheds2 e (PrettyPrint e) rs1 log1)
      as [log2 HRun2]; try done.
    by exists log2.
  - intros e2 log2 HRun. pose proof (Run_nodes nil _ _ _ _ _ _ HRun) as Hnodes.
    destruct e2 as [ns2 rs2]. cbn [nodes] in Hnodes. subst ns2.
    destruct (Run_sameGraph nil o2 scheds2 o1 scheds1 (PrettyPrint e) e rs2 log2)
      as [log1 HRun1]; try done.
    + by apply (sameGraph_keyed _ (nodes e)); [apply sameGraph_sym | ].
    + by apply sameGraph_sym.
    + by exists (mkEngine (nodes e) rs2), log1.
Qed.

End pretty_more.

(** ** [PrettyPrint] on the slices in memory *)
Section slices.
Implicit Types (m : gmap nat (list string)) (s t : Slice) (a w : list string).

(** An array with the window replaced, outside the window. *)
Lemma splice_lookup a w lo n j :
  length w = n → lo + n ≤ length a → (j < lo ∨ lo + n ≤ j) →
  (take lo a ++ w ++ drop (lo + n) a) !! j = a !! j.
Proof.
  intros Hw Hlen Hj. destruct (decide (j < lo)) as [Hlt|Hge].
  - rewrite lookup_app_l by (rewrite length_take; lia). rewrite lookup_take_lt; [done | lia].
  - rewrite lookup_app_r by (rewrite length_take; lia). rewrite length_take, Nat.min_l by lia.
    rewrite lookup_app_r by lia. rewrite lookup_drop. f_equal. lia.
Qed.

Lemma splice_length a w lo n :
  length w = n → lo + n ≤ length a → length (take lo a ++ w ++ drop (lo + n) a) = length a.
Proof.
  intros Hw Hlen. rewrite !length_app, length_take, length_drop, Nat.min_l; lia.
Qed.

Lemma length_elements m s :
  sliceLow s + sliceLen s ≤ length (default [] (m !! sliceArray s)) →
  length (elements m s) = sliceLen s.
Proof. intros Hlen. unfold elements. rewrite length_take, length_drop, Nat.min_l; lia. Qed.

(** [sort.Strings] on its own window. *)
Lemma elements_sortStrings m s :
  sliceLow s + sliceLen s ≤ length (default [] (m !! sliceArray s)) →
  elements (sortStrings s m) s = merge_sort String.le (elements m s).
Proof.
  intros Hlen. unfold elements, sortStrings.
  destruct (m !! sliceArray s) as [a|] eqn:Ha; cbn [default id] in *; cbv beta iota.
  - rewrite lookup_insert_eq. cbn [default id].
    rewrite drop_app_length' by (rewrite length_take; lia).
    rewrite take_app_length'; [done | ].
    rewrite (Permutation_length (merge_sort_Permutation _ _)), length_take, length_drop.
    rewrite Nat.min_l; lia.
  - rewrite Ha. cbn in Hlen. assert (sliceLen s = 0) as -> by lia. done.
Qed.

(** [sort.Strings] on a window apart. *)
Lemma elements_sortStrings_apart m s t :
  sliceLow s + sliceLen s ≤ length (default [] (m !! sliceArray s)) →
  apart s t → 0 < sliceLen s →
  elements (sortStrings s m) t = elements m t.
Proof.
  intros Hlen Hapart Hpos. unfold elements, sortStrings.
  destruct (m !! sliceArray s) as [a|] eqn:Ha; cbn [default id] in *; cbv beta iota; [ | done].
  destruct (decide (sliceArray s = sliceArray t)) as [Heq|Hne].
  2:{ by rewrite lookup_insert_ne. }
  rewrite <- Heq, lookup_insert_eq, Ha. cbn [default id].
  destruct Hapart as [?|[Hzero|[?|Hapart]]]; [lia | by rewrite Hzero | done | ].
  apply list_eq. intros i.
  destruct (decide (i < sliceLen t)) as [Hi|Hi].
  2:{ rewrite !lookup_take_ge by lia. done. }
  rewrite !lookup_take_lt, !lookup_drop by lia.
  apply splice_lookup; [ | done | lia].
  rewrite (Permutation_length (merge_sort_Permutation _ _)), length_take, length_drop.
    rewrite Nat.min_l; lia.
Qed.

(** [sort.Strings] keeps the arrays their lengths. *)
Lemma length_sortStrings m s addr :
  sliceLow s + sliceLen s ≤ length (default [] (m !! sliceArray s)) →
  length (default [] (sortStrings s m !! addr)) = length (default [] (m !! addr)).
Proof.
  intros Hlen. unfold sortStrings.
  destruct (m !! sliceArray s) as [a|] eqn:Ha; cbn [default id] in *; cbv beta iota; [ | done].
  destruct (decide (sliceArray s = addr)) as [<-|Hne].
  - rewrite lookup_insert_eq, Ha. cbn [default id]. apply splice_length; [ | done].
    rewrite (Permutation_length (merge_sort_Permutation _ _)), length_take, length_drop.
    rewrite Nat.min_l; lia.
  - by rewrite lookup_insert_ne.
Qed.

(** [sort.Strings] on a sorted window changes nothing. *)
Lemma sortStrings_sorted m s :
  sliceLow s + sliceLen s ≤ length (default [] (m !! sliceArray s)) →
  Sorted String.le (elements m s) → sortStrings s m = m.
Proof.
  intros Hlen Hsorted. unfold sortStrings, elements in *.
  destruct (m !! sliceArray s) as [a|] eqn:Ha; cbn [default id] in *; cbv beta iota; [ | done].
  rewrite (Sorted_unique String.le (merge_sort String.le _) (take (sliceLen s) (drop (sliceLow s) a)));
    [ | apply Sorted_merge_sort, _ | done | apply merge_sort_Permutation].
  rewrite <- (drop_drop a (sliceLen s) (sliceLow s)), take_drop, take_drop.
  by apply insert_id.
Qed.

End slices.

Section stored.
Context {any : Type}.
Implicit Types (ns all : gmap string (StoredNode any)) (m : gmap nat (list string)).
Implicit Types (n : StoredNode any).

(** What [printed] does to the node of a window. *)
Lemma printed_load m n :
  printed (load m n) =
    mkNode (StoredID n) (merge_sort String.le (elements m (StoredDependsOn n))) (StoredRun n).
Proof.
  unfold printed, load. cbn [DependsOn ID NodeRun].
  destruct (bool_decide_reflect (0 < length (elements m (StoredDependsOn n)))) as [?|Hlen];
    [done | ].
  by destruct (elements m (StoredDependsOn n)); [ | cbn in Hlen; lia].
Qed.

(** One turn of the loop: the node printed has its dependencies sorted,
    all others are as before. *)
Lemma printStored_load all ns m id :
  validSlices all m → separate all → ns ⊆ all →
  validSlices all (printStored ns m id) ∧
  ∀ k n, all !! k = Some n →
    load (printStored ns m id) n =
      if decide (k = id ∧ is_Some (ns !! k)) then printed (load m n) else load m n.
Proof.
  intros Hvalid Hsep Hsub. unfold printStored.
  destruct (ns !! id) as [node|] eqn:Hnode.
  2:{ split; [done | ]. intros k n Hn. destruct (decide _) as [[-> [? ?]]|?]; [congruence | done]. }
  pose proof (lookup_weaken _ _ _ _ Hnode Hsub) as Hnode'.
  pose proof (Hvalid id node Hnode') as Hlen. cbn beta in Hlen.
  destruct (bool_decide_reflect (0 < sliceLen (StoredDependsOn node))) as [Hpos|Hzero].
  - split.
    + intros k n Hn. cbn beta. rewrite length_sortStrings by done. by apply (Hvalid k n).
    + intros k n Hn. destruct (decide _) as [[-> _]|Hne].
      * assert (n = node) as -> by congruence. rewrite printed_load. unfold load. f_equal.
        by apply elements_sortStrings.
      * unfold load. f_equal. apply elements_sortStrings_apart; [done | | done].
        destruct (Hsep id node Hnode' k n Hn) as [->|?]; [ | done].
        destruct Hne. split; [done | by eexists].
  - split; [done | ]. intros k n Hn. destruct (decide _) as [[-> _]|Hne]; [ | done].
    assert (n = node) as -> by congruence. rewrite printed_load. unfold load. f_equal.
    unfold elements. assert (sliceLen (StoredDependsOn node) = 0) as -> by lia. done.
Qed.

Lemma foldl_printStored all ns ids : ∀ m,
  validSlices all m → separate all → ns ⊆ all → NoDup ids →
  validSlices all (foldl (printStored ns) m ids) ∧
  ∀ k n, all !! k = Some n →
    load (foldl (printStored ns) m ids) n =
      if decide (k ∈ ids ∧ is_Some (ns !! k)) then printed (load m n) else load m n.
Proof.
  induction ids as [|id ids IH]; intros m Hvalid Hsep Hsub Hnd; cbn [foldl].
  { split; [done | ]. intros k n Hn. destruct (decide _) as [[?%elem_of_nil _]|?]; done. }
  apply NoDup_cons in Hnd as [Hid Hnd].
  destruct (printStored_load all ns m id Hvalid Hsep Hsub) as [Hvalid1 Hload1].
  destruct (IH _ Hvalid1 Hsep Hsub Hnd) as [Hvalid' Hload'].
  split; [done | ]. intros k n Hn. rewrite (Hload' k n Hn), (Hload1 k n Hn).
  destruct (decide (k ∈ ids ∧ is_Some (ns !! k))) as [[Hk Hsome]|Hno].
  - rewrite decide_False by (intros [-> _]; done).
    rewrite decide_True; [done | ]. split; [by right | done].
  - destruct (decide (k = id ∧ is_Some (ns !! k))) as [[-> Hsome]|Hno'].
    + rewrite decide_True; [done | ]. split; [left | done].
    + rewrite decide_False; [done | ].
      intros [[->|Hk]%elem_of_cons Hsome]; [by destruct Hno' | by destruct Hno].
Qed.

(** [PrettyPrint] in memory, on the nodes of the engine and on every
    other node [all] holds, [all] being the catalog the engine was built
    from, or the engine's own nodes: the dependencies of the nodes of the
    engine are sorted, nothing else has changed. *)
Lemma PrettyPrintStored_load all ns m :
  validSlices all m → separate all → ns ⊆ all →
  validSlices all (PrettyPrintStored ns m) ∧
  ∀ k n, all !! k = Some n →
    load (PrettyPrintStored ns m) n =
      if decide (is_Some (ns !! k)) then printed (load m n) else load m n.
Proof.
  intros Hvalid Hsep Hsub. unfold PrettyPrintStored.
  destruct (foldl_printStored all ns (merge_sort String.le (map_to_list ns).*1) m)
    as [Hvalid' Hload]; [done.. | | ].
  { rewrite merge_sort_Permutation. apply NoDup_fst_map_to_list. }
  split; [done | ]. intros k n Hn. rewrite (Hload k n Hn).
  destruct (decide (is_Some (ns !! k))) as [Hk|Hk].
  - rewrite decide_True; [done | ]. split; [ | done].
    rewrite merge_sort_Permutation. destruct Hk as [n' Hn'].
    apply list_elem_of_fmap. exists (k, n'). split; [done | by apply elem_of_map_to_list].
  - rewrite decide_False; [done | ]. by intros [_ ?].
Qed.

(** On windows that lie apart, [PrettyPrint] in memory is [PrettyPrint]
    on the nodes. *)
Lemma PrettyPrintStored_PrettyPrint ns m rs :
  validSlices ns m → separate ns →
  mkEngine (load (PrettyPrintStored ns m) <$> ns) rs
    = PrettyPrint (mkEngine (load m <$> ns) rs).
Proof.
  intros Hvalid Hsep.
  destruct (PrettyPrintStored_load ns ns m Hvalid Hsep) as [_ Hload]; [done | ].
  unfold PrettyPrint. cbn [nodes results]. f_equal. apply map_eq. intros k.
  pose proof (PrettyPrint_nodes (mkEngine (load m <$> ns) rs) k) as [_ Hk].
  unfold PrettyPrint in Hk. cbn [nodes] in Hk. rewrite Hk, !lookup_fmap.
  destruct (ns !! k) as [n|] eqn:Hn; [ | done]. cbn. f_equal.
  rewrite (Hload k n Hn), decide_True; [done | by eexists].
Qed.

Lemma foldl_printStored_sorted ns m ids :
  validSlices ns m →
  (∀ k n, ns !! k = Some n → Sorted String.le (elements m (StoredDependsOn n))) →
  foldl (printStored ns) m ids = m.
Proof.
  intros Hvalid Hsorted. induction ids as [|id ids IH]; [done | ]. cbn [foldl].
  assert (printStored ns m id = m) as ->; [ | done].
  unfold printStored. destruct (ns !! id) as [node|] eqn:Hnode; [ | done].
  destruct (bool_decide _); [ | done].
  apply sortStrings_sorted; [apply (Hvalid id node Hnode) | by apply (Hsorted id)].
Qed.

End stored.

Section stored_engine.
Context {any : Type} (nil : any).
Implicit Types (ns all : gmap string (StoredNode any)) (m : gmap nat (list string)).
Implicit Types (o : MapOrders) (scheds : list (list nat)).

(** X9. [PrettyPrint] a second time changes nothing in memory, when the
    [DependsOn] slices of the nodes lie within their arrays and no two of
    them share an element: the dependencies it has sorted stay as they
    are.  (With slices that overlap it does not hold, see
    [PrettyPrintStored_overlap].) *)
Theorem PrettyPrintStored_idempotent ns m :
  validSlices ns m → separate ns →
  PrettyPrintStored ns (PrettyPrintStored ns m) = PrettyPrintStored ns m.
Proof.
  intros Hvalid Hsep.
  destruct (PrettyPrintStored_load ns ns m Hvalid Hsep) as [Hvalid' Hload]; [done | ].
  unfold PrettyPrintStored at 1. apply foldl_printStored_sorted; [done | ].
  intros k n Hn. specialize (Hload k n Hn). rewrite decide_True in Hload by (by eexists).
  change (elements (PrettyPrintStored ns m) (StoredDependsOn n))
    with (DependsOn (load (PrettyPrintStored ns m) n)).
  rewrite Hload. by destruct (printed_frame (load m n)) as (_ & _ & _ & ?).
Qed.

(** X10. What [PrettyPrint] changes and what it keeps, for slices that
    lie within their arrays and share no element, in the engine and in
    every catalog [all] that holds the nodes of the engine: every node of
    the engine has its dependencies sorted in memory, so also where the
    catalog holds it; every other node of the catalog is as before; IDs
    and run functions are as before; and the nodes read from memory are
    keyed, closed and acyclic after [PrettyPrint] exactly when they were
    before, with the same dependencies as sets.  The order of the
    dependencies is not kept, and so neither is which of several unknown
    dependencies of a node the planner names. *)
Theorem PrettyPrintStored_well_formed all ns m :
  validSlices all m → separate all → ns ⊆ all →
  (∀ k n, all !! k = Some n →
     load (PrettyPrintStored ns m) n =
       mkNode (StoredID n)
         (if decide (is_Some (ns !! k))
          then merge_sort String.le (elements m (StoredDependsOn n))
          else elements m (StoredDependsOn n))
         (StoredRun n)) ∧
  (keyed (load (PrettyPrintStored ns m) <$> all) ↔ keyed (load m <$> all)) ∧
  (closed (load (PrettyPrintStored ns m) <$> all) ↔ closed (load m <$> all)) ∧
  (acyclic (load (PrettyPrintStored ns m) <$> all) ↔ acyclic (load m <$> all)) ∧
  (∀ k d, dependsOn (load (PrettyPrintStored ns m) <$> all) k d ↔
          dependsOn (load m <$> all) k d).
Proof.
  intros Hvalid Hsep Hsub.
  destruct (PrettyPrintStored_load all ns m Hvalid Hsep Hsub) as [_ Hload].
  assert (Hnodes : ∀ k n, all !! k = Some n →
     load (PrettyPrintStored ns m) n =
       mkNode (StoredID n)
         (if decide (is_Some (ns !! k))
          then merge_sort String.le (elements m (StoredDependsOn n))
          else elements m (StoredDependsOn n))
         (StoredRun n)).
  { intros k n Hn. rewrite (Hload k n Hn). destruct (decide _); [ | done].
    by rewrite printed_load. }
  assert (Hsame : sameGraph (load m <$> all) (load (PrettyPrintStored ns m) <$> all)).
  { intros k. rewrite !lookup_fmap. destruct (all !! k) as [n|] eqn:Hn; [ | constructor].
    constructor. rewrite (Hnodes k n Hn). cbn. split_and!; [done | done | ].
    destruct (decide _); [ | done]. symmetry. apply merge_sort_Permutation. }
  pose proof (sameGraph_sym _ _ Hsame) as Hsame'.
  split_and!; [done | | | | ].
  - split; by apply sameGraph_keyed.
  - split; by apply sameGraph_closed.
  - split; by apply sameGraph_acyclic.
  - intros k d. split; by apply sameGraph_dependsOn.
Qed.

(** X11. [e.PrettyPrint(); e.Run()], as the programs call them, on an
    engine keyed by node ID whose [DependsOn] slices lie within their
    arrays and share no element: [Run] succeeds after [PrettyPrint]
    exactly when it succeeds without, and leaves the same results,
    whatever the interleavings and the map orders of the two runs.  The
    two runs are alternatives from the same state of the program, with
    the same run functions: [PrettyPrint] calls none. *)
Theorem PrettyPrintStored_Run o1 scheds1 o2 scheds2 ns m rs :
  keyed (load m <$> ns) → validSlices ns m → separate ns →
  (∀ e1 log1,
     Run nil o1 scheds1 (mkEngine (load m <$> ns) rs) = Some (Returned None, e1, log1) →
     ∃ log2,
       Run nil o2 scheds2 (mkEngine (load (PrettyPrintStored ns m) <$> ns) rs)
         = Some (Returned None,
                 mkEngine (load (PrettyPrintStored ns m) <$> ns) (results e1), log2)) ∧
  (∀ e2 log2,
     Run nil o2 scheds2 (mkEngine (load (PrettyPrintStored ns m) <$> ns) rs)
       = Some (Returned None, e2, log2) →
     ∃ log1,
       Run nil o1 scheds1 (mkEngine (load m <$> ns) rs)
         = Some (Returned None, mkEngine (load m <$> ns) (results e2), log1)).
Proof.
  intros Hkey Hvalid Hsep.
  destruct (PrettyPrint_then_Run nil o1 scheds1 o2 scheds2 (mkEngine (load m <$> ns) rs) Hkey)
    as [Hthere Hback].
  rewrite (PrettyPrintStored_PrettyPrint ns m rs) by done. split.
  - intros e1 log1 HRun. destruct (Hthere e1 log1 HRun) as [log2 HRun2].
    exists log2. rewrite HRun2. do 3 f_equal.
    pose proof (Run_nodes nil _ _ _ _ _ _ HRun) as Hnodes. cbn [nodes] in Hnodes.
    destruct e1 as [ns1 rs1]. cbn [nodes results] in *. subst ns1.
    symmetry. by apply PrettyPrintStored_PrettyPrint.
  - intros e2 log2 HRun. destruct (Hback e2 log2 HRun) as (e1 & log1 & HRun1 & ->).
    exists log1. rewrite HRun1. do 3 f_equal.
    pose proof (Run_nodes nil _ _ _ _ _ _ HRun1) as Hnodes. cbn [nodes] in Hnodes.
    destruct e1 as [ns1 rs1]. cbn [nodes results] in *. subst ns1.
    by destruct (PrettyPrint_nodes (mkEngine (load m <$> ns) rs1) "") as [-> _].
Qed.

End stored_engine.

(** ** More on [BuildFor] *)
Section builder_more.
Context {any : Type} (nil : any).
Implicit Types (cat : gmap string (Node any)) (b : Builder any) (e : Engine any).

(** What [BuildFor] returns, in one: the node map is the part of the
    catalog the targets reach. *)
Lemma BuildFor_inl b targets e :
  BuildFor b targets = Some (inl e) →
  results e = ∅ ∧
  ∀ k n, nodes e !! k = Some n ↔ reachable (catalog b) targets k ∧ catalog b !! k = Some n.
Proof.
  unfold BuildFor, BuildForDepth.
  destruct (BuildFor_resolved (catalog b) targets) as ([needed|err] & -> & Hr); [ | done].
  intros [= <-]. split; [done | ]. cbn [nodes New]. intros k n.
  pose proof Hr as (_ & Hsub & _ & Hreach & _). split.
  - intros Hn. split.
    + apply Hreach; [by eexists | apply lookup_empty].
    + by eapply lookup_weaken.
  - intros [Hk Hn]. destruct (reachable_resolved _ _ _ _ Hr Hk) as [n' Hn'].
    pose proof (lookup_weaken _ _ _ _ Hn' Hsub). congruence.
Qed.

Lemma dependsOn_reachable cat targets k d :
  reachable cat targets k → dependsOn cat k d → reachable cat targets d.
Proof. intros (t & ? & ?) ?. exists t. split; [done | ]. by eapply rtc_r. Qed.

(** The engine [BuildFor] builds is closed under dependencies, and keyed
    and acyclic when the catalog is. *)
Lemma BuildFor_closed b targets e :
  BuildFor b targets = Some (inl e) →
  closed (nodes e) ∧ nodes e ⊆ catalog b ∧
  (keyed (catalog b) → keyed (nodes e)) ∧
  (∀ k d, dependsOn (nodes e) k d → dependsOn (catalog b) k d).
Proof.
  intros Hbuild. pose proof (BuildFor_nodes b targets e Hbuild) as Hsub.
  destruct (BuildFor_inl b targets e Hbuild) as [_ Hnodes].
  assert (Hdep : ∀ k d, dependsOn (nodes e) k d → dependsOn (catalog b) k d).
  { intros k d (n & Hn & Hd). exists n. split; [ | done]. by apply Hnodes in Hn as [_ ?]. }
  split_and!; [ | done | | done].
  - intros k n Hn. apply Forall_forall. intros d Hd.
    apply Hnodes in Hn as Hk. destruct Hk as [Hk Hcat].
    assert (Hd' : reachable (catalog b) targets d).
    { apply (dependsOn_reachable _ _ k); [done | by exists n]. }
    unfold BuildFor, BuildForDepth in Hbuild.
    destruct (BuildFor_resolved (catalog b) targets) as ([needed|err] & Heq & Hr);
      rewrite Heq in Hbuild; [ | done].
    injection Hbuild as <-. by apply (reachable_resolved _ _ _ _ Hr).
  - intros Hkey k n Hn. apply (Hkey k n). by eapply lookup_weaken.
Qed.

(** X12. The engine [BuildFor] builds is fresh and closed under
    dependencies, whatever the catalog; its nodes are catalog entries;
    it is keyed when the catalog is and acyclic when the catalog is. *)
Theorem BuildFor_well_formed b targets e :
  BuildFor b targets = Some (inl e) →
  results e = ∅ ∧ closed (nodes e) ∧ nodes e ⊆ catalog b ∧
  (keyed (catalog b) → keyed (nodes e)) ∧
  (acyclic (catalog b) → acyclic (nodes e)).
Proof.
  intros Hbuild. destruct (BuildFor_closed b targets e Hbuild) as (? & ? & ? & Hdep).
  destruct (BuildFor_inl b targets e Hbuild) as [? _].
  split_and!; [done | done | done | done | ]. intros Hacyclic k Hk. apply (Hacyclic k).
  apply (tc_congruence (λ x, x) (dependsOn (catalog b))) in Hk; [done | ].
  intros x y. apply Hdep.
Qed.

(** X14. [BuildFor] looks at the targets as a set: their order and
    repetitions among them do not change the engine built. *)
Theorem BuildFor_targets b targets1 targets2 e :
  (∀ k, k ∈ targets1 ↔ k ∈ targets2) →
  BuildFor b targets1 = Some (inl e) → BuildFor b targets2 = Some (inl e).
Proof.
  intros Hsame Hbuild. destruct (BuildFor_inl b targets1 e Hbuild) as [Hres Hnodes].
  assert (Hreach : ∀ k, reachable (catalog b) targets2 k → reachable (catalog b) targets1 k).
  { intros k (t & Ht & Hk). exists t. split; [by apply Hsame | done]. }
  assert (Hreach' : ∀ k, reachable (catalog b) targets1 k → reachable (catalog b) targets2 k).
  { intros k (t & Ht & Hk). exists t. split; [by apply Hsame | done]. }
  unfold BuildFor, BuildForDepth in *.
  destruct (BuildFor_resolved (catalog b) targets1) as (r1 & Heq1 & Hr1).
  rewrite Heq1 in Hbuild. destruct r1 as [needed1|]; [ | done].
  cbn in Hbuild. injection Hbuild as <-.
  destruct (BuildFor_resolved (catalog b) targets2) as ([needed2|err] & -> & Hr2).
  - do 3 f_equal. apply map_eq. intros k. apply option_eq. intros n.
    cbn [nodes New] in Hnodes. rewrite Hnodes.
    pose proof Hr2 as (_ & Hsub & _ & Hin & _). split.
    + intros Hn. split; [ | by eapply lookup_weaken].
      apply Hreach, Hin; [by eexists | apply lookup_empty].
    + intros [Hk Hn]. destruct (reachable_resolved _ _ _ _ Hr2 (Hreach' k Hk)) as [n' Hn'].
      pose proof (lookup_weaken _ _ _ _ Hn' Hsub). congruence.
  - destruct Hr2 as (x & Hx%Hreach & Hnone & _).
    destruct (reachable_resolved _ _ _ _ Hr1 Hx) as [n Hn].
    destruct Hr1 as (_ & Hsub & _). pose proof (lookup_weaken _ _ _ _ Hn Hsub). congruence.
Qed.

End builder_more.

(** ** Run functions that are nil or panic *)
Section nilable_facts.
Context {any : Type} (nil : any).
Implicit Types (ns : gmap string (GoNode any)) (e : GoEngine any).
Implicit Types (o : MapOrders) (scheds : list (list nat)).
Implicit Types (rs : gmap string (Result any)) (log : list (call any)).

Lemma returning_ofNode (n : Node any) : returning (ofNode n) = n.
Proof. by destruct n. Qed.

Lemma ofNode_returns (n : Node any) : returns (ofNode n).
Proof. intros deps. by eexists. Qed.

Lemma goroutineStepGo_returning ns st i :
  map_Forall (λ _ n, returns n) ns →
  goroutineStepGo nil ns st i = goroutineStep nil (returning <$> ns) st i.
Proof.
  intros Hret. unfold goroutineStepGo, goroutineStep.
  destruct (goroutines st !! i) as [[nodeID|nodeID depResults|]|]; [ | | done | done];
    rewrite lookup_fmap; destruct (ns !! nodeID) as [node|] eqn:Hn; cbn; try done.
  destruct (Hret nodeID node Hn depResults) as [x ->]. by destruct x.
Qed.

Lemma goroutineStepsGo_returning ns st picks :
  map_Forall (λ _ n, returns n) ns →
  goroutineStepsGo nil ns st picks = goroutineSteps nil (returning <$> ns) st picks.
Proof.
  intros Hret. revert st. induction picks as [|i picks IH]; intros st; [done | ].
  cbn [goroutineStepsGo goroutineSteps]. rewrite goroutineStepGo_returning by done.
  by destruct (goroutineStep _ _ _ _).
Qed.

Lemma runLevelsGo_returning ns scheds levels rs log :
  map_Forall (λ _ n, returns n) ns →
  runLevelsGo nil ns scheds levels rs log = runLevels nil (returning <$> ns) scheds levels rs log.
Proof.
  intros Hret. revert scheds rs log.
  induction levels as [|level levels IH]; intros scheds rs log; [done | ].
  cbn [runLevelsGo runLevels]. unfold runLevelGo, runLevel.
  rewrite goroutineStepsGo_returning by done.
  destruct (goroutineSteps _ _ _ _) as [st|]; [ | done]. by destruct (errCh st).
Qed.

(** With run functions that are there and return, [RunGo] is [Run] on
    the nodes with what their run functions return. *)
Lemma RunGo_returning o scheds e :
  map_Forall (λ _ n, returns n) (goNodes e) →
  RunGo nil o scheds e =
    (λ x, (x.1.1, mkGoEngine (goNodes e) (results x.1.2), x.2))
      <$> Run nil o scheds (mkEngine (returning <$> goNodes e) (goResults e)).
Proof.
  intros Hret. unfold RunGo, Run. cbn [nodes results].
  destruct (topoSortLevels o _) as [[levels|err]|]; [ | by destruct e | done].
  rewrite runLevelsGo_returning by done.
  by destruct (runLevels _ _ _ _ _ _) as [[out rs] log].
Qed.


Lemma ofNode_fmap_keyed (m : gmap string (Node any)) :
  keyed m → map_Forall (λ k n, GoID n = k) (ofNode <$> m).
Proof.
  intros Hkey k n. rewrite lookup_fmap. destruct (m !! k) as [n'|] eqn:Hn; [ | done].
  intros [= <-]. by apply (Hkey k n').
Qed.


Lemma ofNode_fmap_returns (m : gmap string (Node any)) :
  map_Forall (λ _ n, returns n) (ofNode <$> m).
Proof.
  intros k n. rewrite lookup_fmap. destruct (m !! k); [ | done].
  intros [= <-]. apply ofNode_returns.
Qed.

Lemma returning_ofNode_fmap (m : gmap string (Node any)) : returning <$> (ofNode <$> m) = m.
Proof.
  rewrite <- map_fmap_compose. rewrite <- (map_fmap_id m) at 2.
  apply map_fmap_ext. intros k n _. apply returning_ofNode.
Qed.

(** X5. On an engine whose map keys every node by its ID and whose run
    functions are all there and return from every call (no [Run] is nil,
    none panics), [Run] returns under every interleaving: its own code
    does not panic (no level is empty when it reads [level[0]], every id
    of a level is a key of the map), it keeps the nodes, and the error
    it returns, if any, is an unknown dependency of one of the nodes
    (nothing was run), the cycle error (nothing was run), or the failure
    of a call it made; never an unknown-node error.  Without the
    condition on the run functions [Run] may panic:
    [RunGo_nil_panics]. *)
Theorem Run_returns o scheds e :
  map_Forall (λ k n, GoID n = k) (goNodes e) →
  map_Forall (λ _ n, returns n) (goNodes e) →
  ∃ err rs log,
    RunGo nil o scheds e = Some (Returned err, mkGoEngine (goNodes e) rs, log) ∧
    match err with
    | None => True
    | Some (ErrUnknownDependency node dep) =>
        (∃ n, goNodes e !! node = Some n ∧ dep ∈ GoDependsOn n) ∧ goNodes e !! dep = None ∧
        rs = goResults e ∧ log = []
    | Some ErrCycle => ¬ acyclic (returning <$> goNodes e) ∧ rs = goResults e ∧ log = []
    | Some (ErrNodeFailed id cause) =>
        ∃ n deps, goNodes e !! id = Some n ∧ (id, deps) ∈ log ∧
          callRun (GoRun n) deps = Some (inr cause)
    | Some (ErrUnknownNode _) => False
    end.
Proof.
  intros Hkey Hret. rewrite RunGo_returning by done.
  destruct (Run_outcome nil o scheds (mkEngine (returning <$> goNodes e) (goResults e)))
    as (err & e' & log & -> & Hnodes & Herr).
  { intros k n. cbn [nodes]. rewrite lookup_fmap.
    destruct (goNodes e !! k) as [gn|] eqn:Hgn; [ | done].
    intros [= <-]. by apply (Hkey k gn). }
  exists err, (results e'), log. split; [done | ]. cbn [nodes results] in *.
  destruct err as [[node dep| |id|id cause]|]; [ | | done | | done].
  - destruct Herr as ((n & Hn & Hdep) & Hnone & -> & ->).
    rewrite lookup_fmap in Hn, Hnone.
    destruct (goNodes e !! node) as [gn|] eqn:Hgn; [ | done]. injection Hn as <-.
    split_and!; [by exists gn | by destruct (goNodes e !! dep) | done | done].
  - by destruct Herr as (? & -> & ->).
  - destruct Herr as (n & deps & Hn & Hin & Hrun). rewrite lookup_fmap in Hn.
    destruct (goNodes e !! id) as [gn|] eqn:Hgn; [ | done]. injection Hn as <-.
    exists gn, deps. split_and!; [done | done | ]. cbn in Hrun.
    destruct (Hret id gn Hgn deps) as [x Hx]. rewrite Hx in Hrun |- *. cbn in Hrun.
    by rewrite Hrun.
Qed.

(** X13. Planning and running a built engine: on a catalog that keys its
    nodes by their IDs, the only planning error left is the cycle error,
    for a cycle of the catalog among the nodes built; and [Run], when
    the run functions of the nodes built ([gns] has them as Go does) are
    there and return from every call, returns, having called nothing but
    nodes the targets reach, each at most once. *)
Theorem BuildFor_Run (b : Builder any) targets (e : Engine any) gns o scheds :
  keyed (catalog b) → BuildFor b targets = Some (inl e) →
  returning <$> gns = nodes e → map_Forall (λ _ n, returns n) gns →
  ((∃ levels, topoSortLevels o (nodes e) = Some (inl levels)) ∨
   (topoSortLevels o (nodes e) = Some (inr ErrCycle) ∧
    ¬ acyclic (nodes e) ∧ ¬ acyclic (catalog b))) ∧
  ∃ out rs log,
    RunGo nil o scheds (mkGoEngine gns (results e))
      = Some (Returned out, mkGoEngine gns rs, log) ∧
    NoDup log.*1 ∧ ∀ id, id ∈ log.*1 → reachable (catalog b) targets id.
Proof.
  intros Hkey Hbuild Hgns Hret.
  destruct (BuildFor_closed b targets e Hbuild) as (Hclosed & Hsub & Hkeyed & Hdep).
  destruct (BuildFor_inl b targets e Hbuild) as [_ Hnodes].
  specialize (Hkeyed Hkey). split.
  - destruct (topoSortLevels_total o (nodes e)) as [[levels|err] Hplan];
      [left; by eexists | right].
    destruct (topoSortLevels_inr o (nodes e) err Hkeyed Hplan)
      as [(k & n & dep & Hn & Hd & Hnone & _)|(_ & Hcyc & ->)].
    { destruct (closed_dependsOn (nodes e) k dep Hclosed) as [? ?]; [by exists n | congruence]. }
    split_and!; [done | done | ]. intros Hacyclic. apply Hcyc. intros k Hk.
    apply (Hacyclic k).
    apply (tc_congruence (λ x, x) (dependsOn (catalog b))) in Hk; [done | ].
    intros x y. apply Hdep.
  - rewrite RunGo_returning by done. cbn [goNodes goResults]. rewrite Hgns.
    assert (He : mkEngine (nodes e) (results e) = e) by by destruct e.
    rewrite He.
    destruct (Run_outcome nil o scheds e Hkeyed) as (out & e' & log & HRun & _).
    exists out, (results e'), log. rewrite HRun. split; [done | ].
    destruct (Run_frame nil o scheds e _ e' log Hkeyed HRun) as (Hnd & Hcalls & _).
    split; [done | ]. intros id [deps Hin]%elem_of_log_fst.
    destruct (Hcalls id deps Hin) as (n & Hn & _). by apply Hnodes in Hn as [? _].
Qed.


End nilable_facts.

Section catalog_facts.
Context {any : Type}.
Implicit Types (node n : Node any) (nodes cat : gmap string (Node any)).
Implicit Types (inits : list (Node any)).

(** What the [init] functions leave, started from any catalog: either
    all IDs were new and distinct and the catalog has grown by the nodes,
    each under its ID; or there is a first node whose ID is taken, and the
    panic names it. *)
Lemma initAll_spec inits : ∀ nodes,
  match catalog.initAll inits nodes with
  | inl cat =>
      NoDup (ID <$> inits) ∧ (∀ n, n ∈ inits → nodes !! ID n = None) ∧
      ∀ k, cat !! k = match list_find (λ n, ID n = k) inits with
                      | Some (_, n) => Some n
                      | None => nodes !! k
                      end
  | inr panic =>
      ∃ before n after, inits = before ++ n :: after ∧
        panic = "duplicate node registration: " +:+ ID n ∧
        (is_Some (nodes !! ID n) ∨ ID n ∈ ID <$> before)
  end.
Proof.
  induction inits as [|n inits IH]; intros nodes; cbn [catalog.initAll].
  - split_and!; [constructor | by intros ? ?%elem_of_nil | done].
  - unfold catalog.Register. destruct (nodes !! ID n) as [old|] eqn:Hold.
    { exists [], n, inits. split_and!; [done | done | left; by eexists]. }
    specialize (IH (<[ID n := n]> nodes)).
    destruct (catalog.initAll inits _) as [cat|panic].
    + destruct IH as (Hnd & Hnew & Hcat). split_and!.
      * cbn. apply NoDup_cons. split; [ | done]. intros (n' & Heq & Hn')%list_elem_of_fmap.
        specialize (Hnew n' Hn'). by rewrite <- Heq, lookup_insert_eq in Hnew.
      * intros n' [->|Hn']%elem_of_cons; [done | ].
        specialize (Hnew n' Hn'). apply lookup_insert_None in Hnew. by destruct Hnew.
      * intros k. rewrite Hcat. cbn [list_find]. destruct (decide (ID n = k)) as [<-|Hne].
        -- destruct (list_find _ inits) as [[i n']|] eqn:Hfind; cbn.
           ++ apply list_find_Some in Hfind as (Hi%list_elem_of_lookup_2 & Heq & _).
              specialize (Hnew n' Hi). by rewrite Heq, lookup_insert_eq in Hnew.
           ++ by rewrite lookup_insert_eq.
        -- destruct (list_find _ inits) as [[i n']|]; cbn; [done | ].
           by rewrite lookup_insert_ne.
    + destruct IH as (before & n' & after & -> & -> & Hdup).
      exists (n :: before), n', after. split_and!; [done | done | ].
      destruct Hdup as [Hdup|Hdup]; [ | right; cbn; by right].
      destruct (decide (ID n = ID n')) as [Heq|Hne].
      * right. cbn. rewrite Heq. left.
      * left. by rewrite lookup_insert_ne in Hdup.
Qed.

(** Registration succeeds exactly when the IDs are pairwise distinct; the
    catalog then keys every node by its ID and holds the nodes registered
    and nothing else. *)
Lemma initAll_catalog inits :
  (NoDup (ID <$> inits) ↔ ∃ cat, catalog.initAll inits ∅ = inl cat) ∧
  ∀ cat, catalog.initAll inits ∅ = inl cat →
    keyed (catalog.All cat) ∧
    (∀ n, n ∈ inits → catalog.Get (ID n) cat = Some n) ∧
    (∀ k n, catalog.Get k cat = Some n → n ∈ inits) ∧
    size cat = length inits.
Proof.
  pose proof (initAll_spec inits ∅) as Hspec.
  destruct (catalog.initAll inits ∅) as [cat|panic].
  - destruct Hspec as (Hnd & _ & Hcat).
    assert (Hget : ∀ n, n ∈ inits → cat !! ID n = Some n).
    { intros n Hn. rewrite Hcat.
      destruct (list_find _ inits) as [[i n']|] eqn:Hfind.
      - apply list_find_Some in Hfind as (Hi & Heq & _).
        apply list_elem_of_lookup in Hn as [j Hj].
        assert (i = j) as ->; [ | congruence].
        apply (NoDup_lookup (ID <$> inits) i j (ID n)); [done | | ];
          rewrite list_lookup_fmap; [by rewrite Hi, <- Heq | by rewrite Hj].
      - apply list_find_None in Hfind. rewrite Forall_forall in Hfind. by destruct (Hfind n). }
    assert (Hin : ∀ k n, cat !! k = Some n → n ∈ inits ∧ ID n = k).
    { intros k n. rewrite Hcat. destruct (list_find _ inits) as [[i n']|] eqn:Hfind; [ | done].
      intros [= <-]. apply list_find_Some in Hfind as (Hi%list_elem_of_lookup_2 & Heq & _).
      done. }
    split; [split; [by eexists | done] | ].
    intros cat' [= <-]. unfold catalog.All, catalog.Get. split_and!.
    + intros k n Hn. by apply Hin in Hn as [_ ?].
    + done.
    + intros k n Hn. by apply Hin in Hn as [? _].
    + rewrite <- (length_fmap ID inits), <- size_dom, <- (size_list_to_set (C := gset string)) by done.
      f_equal. apply set_eq. intros k. rewrite elem_of_dom, elem_of_list_to_set, list_elem_of_fmap.
      split.
      * intros [n Hn]. exists n. by apply Hin in Hn as [? ?].
      * intros (n & -> & Hn). exists n. by apply Hget.
  - split; [ | done]. split; [ | by intros [? ?]].
    destruct Hspec as (before & n & after & -> & _ & [[? Hdup]|Hdup]); [done | ].
    rewrite fmap_app, fmap_cons. intros (_ & Hnd & _)%NoDup_app.
    destruct (Hnd (ID n)); [done | left].
Qed.

(** X16. Registration by the [init] functions succeeds exactly when the
    IDs are pairwise distinct, and panics otherwise; the catalog it leaves
    keys every node by its ID, as the engine needs it, and holds the nodes
    registered and nothing else. *)
Theorem initAll_keyed inits :
  (NoDup (ID <$> inits) ↔ ∃ cat, catalog.initAll inits ∅ = inl cat) ∧
  ∀ cat, catalog.initAll inits ∅ = inl cat →
    keyed (catalog.All cat) ∧
    (∀ n, n ∈ inits → catalog.Get (ID n) cat = Some n) ∧
    (∀ k n, catalog.Get k cat = Some n → n ∈ inits) ∧
    size cat = length inits.
Proof. apply initAll_catalog. Qed.

(** X17. The order in which the [init] functions run, which the imports
    decide, does not change the catalog they leave. *)
Theorem initAll_Permutation inits inits' cat :
  inits ≡ₚ inits' → catalog.initAll inits ∅ = inl cat → catalog.initAll inits' ∅ = inl cat.
Proof.
  intros Hperm Hinit.
  destruct (initAll_catalog inits) as [Hiff Hcat].
  destruct (Hcat cat Hinit) as (Hkey & Hget & Hin & _).
  destruct (initAll_catalog inits') as [Hiff' Hcat'].
  destruct Hiff' as [(cat' & Hinit') _].
  { rewrite <- Hperm. apply Hiff. by eexists. }
  destruct (Hcat' cat' Hinit') as (Hkey' & Hget' & Hin' & _).
  rewrite Hinit'. f_equal. apply map_eq. intros k. apply option_eq. intros n.
  unfold catalog.Get, catalog.All in *. split.
  - intros Hn. pose proof (Hkey' k n Hn) as <-. apply Hget. rewrite Hperm. by eapply Hin'.
  - intros Hn. pose proof (Hkey k n Hn) as <-. apply Hget'. rewrite <- Hperm. by eapply Hin.
Qed.

(** [Register] and [Get]: a node registered under a new ID is found
    under it, every other ID gives what it gave before, and a keyed
    catalog stays keyed; the registration of an ID that is taken panics
    with a message naming the ID, whatever the node registered under it. *)
Lemma Register_Get node nodes :
  match catalog.Register node nodes with
  | inl nodes' =>
      catalog.Get (ID node) nodes = None ∧
      catalog.Get (ID node) nodes' = Some node ∧
      (∀ k, k ≠ ID node → catalog.Get k nodes' = catalog.Get k nodes) ∧
      (keyed nodes → keyed nodes')
  | inr panic =>
      is_Some (catalog.Get (ID node) nodes) ∧
      panic = "duplicate node registration: " +:+ ID node
  end.
Proof.
  unfold catalog.Register, catalog.Get. destruct (nodes !! ID node) as [old|] eqn:Hold.
  - split; [by eexists | done].
  - split_and!; [done | by rewrite lookup_insert_eq | | ].
    + intros k Hk. by rewrite lookup_insert_ne.
    + intros Hkey. by apply map_Forall_insert_2.
Qed.

End catalog_facts.

(** ** [splitAndTrim] *)

Section strings.
Implicit Types (s a b p : string) (c : ascii).

Lemma string_app_cons c a b : String c a +:+ b = String c (a +:+ b).
Proof. done. Qed.

Lemma string_app_nil b : "" +:+ b = b.
Proof. done. Qed.

Lemma string_length_app a b : String.length (a +:+ b) = String.length a + String.length b.
Proof. induction a as [|c a IH]; [done | ]. rewrite string_app_cons. cbn. by rewrite IH. Qed.

Lemma app_nil_r_string a : a +:+ "" = a.
Proof. induction a as [|c a IH]; [done | ]. by rewrite string_app_cons, IH. Qed.

Lemma app_assoc_string a b d : (a +:+ b) +:+ d = a +:+ (b +:+ d).
Proof. induction a as [|c a IH]; [done | ]. by rewrite !string_app_cons, IH. Qed.

Lemma get_app_r a b n : String.get (String.length a + n) (a +:+ b) = String.get n b.
Proof. induction a as [|c a IH]; [done | ]. rewrite string_app_cons. cbn. done. Qed.

Lemma substring_app_r a b n m :
  String.substring (String.length a + n) m (a +:+ b) = String.substring n m b.
Proof. induction a as [|c a IH]; [done | ]. rewrite string_app_cons. cbn. done. Qed.

Lemma substring_0_app a b : String.substring 0 (String.length a) (a +:+ b) = a.
Proof.
  induction a as [|c a IH]; [by destruct b | ]. rewrite string_app_cons. cbn. by rewrite IH.
Qed.

Lemma chars_app a b : chars (a +:+ b) = chars a ++ chars b.
Proof.
  unfold chars. induction a as [|c a IH]; [done | ]. rewrite string_app_cons. cbn. by rewrite IH.
Qed.

Lemma chars_snoc a c : chars (a +:+ String c "") = chars a ++ [c].
Proof. by rewrite chars_app. Qed.

Lemma chars_nil s : chars s = [] ↔ s = "".
Proof. by destruct s. Qed.

Lemma chars_length s : length (chars s) = String.length s.
Proof. unfold chars. induction s as [|c s IH]; cbn; [done | by rewrite IH]. Qed.

(** A string is empty or ends with a character. *)
Lemma string_snoc s : s = "" ∨ ∃ a c, s = a +:+ String c "".
Proof.
  induction s as [|c s IH]; [by left | right].
  destruct IH as [->|(a & c' & ->)].
  - by exists "", c.
  - by exists (String c a), c'.
Qed.

Lemma slice_app pre cur rest :
  slice (pre +:+ cur +:+ rest) (String.length pre) (String.length pre + String.length cur)
    = Some cur.
Proof.
  unfold slice. rewrite !string_length_app.
  rewrite andb_true_intro; [ | split; apply Nat.leb_le; lia].
  f_equal. rewrite <- (Nat.add_0_r (String.length pre)) at 1.
  rewrite substring_app_r. replace (_ + _ - _) with (String.length cur) by lia.
  apply substring_0_app.
Qed.

(** *** Trimming *)

Lemma trimLeft_spaces n p : trimLeft (spaces n +:+ p) = trimLeft p.
Proof. induction n as [|n IH]; [done | ]. cbn [spaces]. by rewrite string_app_cons. Qed.

Lemma spaces_snoc n : spaces n +:+ String " " "" = String " " (spaces n).
Proof. induction n as [|n IH]; [done | ]. cbn [spaces]. by rewrite string_app_cons, IH. Qed.

Lemma length_spaces n : String.length (spaces n) = n.
Proof. induction n as [|n IH]; cbn; [done | by rewrite IH]. Qed.

Lemma trimLeft_head p : head (chars p) ≠ Some " "%char → trimLeft p = p.
Proof.
  destruct p as [|c p]; cbn; [done | ]. intros Hc.
  destruct (Ascii.eqb_spec c " ") as [->|]; [by destruct Hc | done].
Qed.

(** What [trimLeft] returns has no space in front and is the end of its
    argument. *)
Lemma trimLeft_spec p :
  head (chars (trimLeft p)) ≠ Some " "%char ∧ ∃ n, p = spaces n +:+ trimLeft p.
Proof.
  induction p as [|c p [IH1 [n IH2]]]; cbn.
  - split; [done | by exists 0].
  - destruct (Ascii.eqb_spec c " ") as [->|Hc].
    + split; [done | ]. exists (S n). cbn [spaces]. by rewrite string_app_cons, <- IH2.
    + split; [cbn; congruence | by exists 0].
Qed.

Lemma trimRight_snoc turns a c :
  trimRight (S turns) (a +:+ String c "") =
    if Ascii.eqb c " " then trimRight turns a else a +:+ String c "".
Proof.
  cbn [trimRight]. rewrite string_length_app. cbn [String.length].
  replace (String.length a + 1 - 1) with (String.length a + 0) by lia.
  rewrite get_app_r. cbn [String.get].
  replace (0 <? String.length a + 1) with true by (symmetry; apply Nat.ltb_lt; lia).
  cbn [andb]. rewrite Nat.add_0_r, substring_0_app. done.
Qed.

Lemma trimRight_nil turns : trimRight turns "" = "".
Proof. by destruct turns. Qed.

Lemma trimRight_spaces n : ∀ turns p,
  String.length p + n ≤ turns + n →
  trimRight (turns + n) (p +:+ spaces n) = trimRight turns p.
Proof.
  induction n as [|n IH]; intros turns p Hlen.
  - by rewrite Nat.add_0_r, app_nil_r_string.
  - replace (p +:+ spaces (S n)) with ((p +:+ spaces n) +:+ String " " "").
    + replace (turns + S n) with (S (turns + n)) by lia.
      rewrite trimRight_snoc. cbn. apply IH. lia.
    + rewrite app_assoc_string. f_equal. apply spaces_snoc.
Qed.

Lemma trimRight_last turns p : last (chars p) ≠ Some " "%char → trimRight turns p = p.
Proof.
  destruct turns as [|turns]; [done | ].
  destruct (string_snoc p) as [->|(a & c & ->)]; [done | ].
  rewrite trimRight_snoc, chars_snoc, last_snoc. intros Hc.
  destruct (Ascii.eqb_spec c " ") as [->|]; [by destruct Hc | done].
Qed.

(** What [trimRight] returns, given turns enough, has no space at the end
    and is the start of its argument. *)
Lemma trimRight_spec turns : ∀ p,
  String.length p ≤ turns →
  last (chars (trimRight turns p)) ≠ Some " "%char ∧
  ∃ n, p = trimRight turns p +:+ spaces n.
Proof.
  induction turns as [|turns IH]; intros p Hlen.
  - destruct p; [ | cbn in Hlen; lia]. split; [done | by exists 0].
  - destruct (string_snoc p) as [->|(a & c & ->)].
    { split; [done | by exists 0]. }
    rewrite trimRight_snoc. rewrite string_length_app in Hlen. cbn in Hlen.
    destruct (Ascii.eqb_spec c " ") as [->|Hc].
    + destruct (IH a) as [IH1 [n IH2]]; [lia | ]. split; [done | ].
      exists (S n). rewrite IH2 at 1. rewrite app_assoc_string. f_equal.
      apply spaces_snoc.
    + split; [ | exists 0; by rewrite app_nil_r_string].
      rewrite chars_snoc, last_snoc. congruence.
Qed.

Lemma chars_spaces n : chars (spaces n) = replicate n " "%char.
Proof. induction n as [|n IH]; cbn; [done | by rewrite <- IH]. Qed.

(** What the two loops leave of a part. *)
Lemma trimSpaces_spec q :
  ∃ l r, q = spaces l +:+ trimSpaces q +:+ spaces r ∧
    head (chars (trimSpaces q)) ≠ Some " "%char ∧
    last (chars (trimSpaces q)) ≠ Some " "%char.
Proof.
  unfold trimSpaces. destruct (trimLeft_spec q) as [Hhead [l Hl]].
  destruct (trimRight_spec (String.length (trimLeft q)) (trimLeft q)) as [Hlast [r Hr]]; [done | ].
  exists l, r. split_and!; [ | | done].
  - by rewrite <- Hr.
  - intros Hsp. apply Hhead. rewrite Hr, chars_app.
    destruct (chars (trimRight _ _)); [done | done].
Qed.

Lemma trimSpaces_pad l r p :
  head (chars p) ≠ Some " "%char → last (chars p) ≠ Some " "%char →
  trimSpaces (spaces l +:+ p +:+ spaces r) = p.
Proof.
  intros Hhead Hlast. unfold trimSpaces. rewrite trimLeft_spaces.
  destruct (decide (p = "")) as [->|Hne].
  - rewrite string_app_nil. destruct (trimLeft_spec (spaces r)) as [Hh [n Hn]].
    assert (Hall : Forall (λ c, c = " "%char) (chars (trimLeft (spaces r)))).
    { assert (Hall : Forall (λ c, c = " "%char) (chars (spaces r))).
      { rewrite chars_spaces. apply Forall_replicate. done. }
      rewrite Hn, chars_app in Hall. by apply Forall_app in Hall as [_ ?]. }
    destruct (trimLeft (spaces r)) as [|c t]; [done | ].
    cbn in Hh, Hall. apply Forall_cons in Hall as [-> _]. done.
  - rewrite trimLeft_head.
    + rewrite string_length_app, (Nat.add_comm (String.length p)).
      rewrite length_spaces, Nat.add_comm, trimRight_spaces by lia.
      by apply trimRight_last.
    + rewrite chars_app. destruct (chars p) eqn:Hp; [by apply chars_nil in Hp | done].
Qed.

(** *** Fields *)

Lemma fields_cons c s :
  fields (String c s) =
    if Ascii.eqb c ","
    then "" :: fields s
    else match fields s with f :: fs => String c f :: fs | [] => [String c ""] end.
Proof. done. Qed.

Lemma fields_free cur rest :
  ","%char ∉ chars cur →
  fields (cur +:+ rest) =
    match fields rest with f :: fs => (cur +:+ f) :: fs | [] => [cur] end.
Proof.
  induction cur as [|c cur IH].
  - intros _. rewrite string_app_nil. destruct (fields rest) as [|f fs] eqn:Hf; [ | done].
    destruct rest as [|c rest]; [done | ]. rewrite fields_cons in Hf.
    by destruct (Ascii.eqb _ _), (fields rest).
  - intros Hfree. apply not_elem_of_cons in Hfree as [Hc Hfree].
    rewrite string_app_cons, fields_cons.
    destruct (Ascii.eqb_spec c ",") as [->|_]; [done | ].
    rewrite (IH Hfree). by destruct (fields rest).
Qed.

Lemma fields_one cur : ","%char ∉ chars cur → fields cur = [cur].
Proof.
  intros Hfree. rewrite <- (app_nil_r_string cur) at 1.
  rewrite fields_free by done. cbn [fields]. by rewrite app_nil_r_string.
Qed.

Lemma fields_nonempty s : fields s ≠ [].
Proof.
  destruct s as [|c s]; [done | ]. rewrite fields_cons.
  by destruct (Ascii.eqb _ _), (fields s).
Qed.

Lemma fields_commaFree s : Forall (λ f, ","%char ∉ chars f) (fields s).
Proof.
  induction s as [|c s IH]; cbn.
  - repeat constructor. by intros ?%elem_of_nil.
  - destruct (Ascii.eqb_spec c ",") as [->|Hc].
    + constructor; [by intros ?%elem_of_nil | done].
    + destruct (fields s) as [|f fs].
      * repeat constructor. cbn. by intros [?|?%elem_of_nil]%elem_of_cons.
      * apply Forall_cons in IH as [Hf Hfs]. constructor; [ | done].
        cbn. by intros [?|?]%elem_of_cons.
Qed.

Lemma fields_concat qs :
  qs ≠ [] → Forall (λ f, ","%char ∉ chars f) qs → fields (String.concat "," qs) = qs.
Proof.
  induction qs as [|q qs IH]; [done | ]. intros _ [Hq Hqs]%Forall_cons.
  destruct qs as [|q' qs].
  - cbn [String.concat]. rewrite <- (app_nil_r_string q) at 1.
    rewrite fields_free by done. cbn [fields]. by rewrite app_nil_r_string.
  - cbn [String.concat] in *. change (q ++ "," ++ ?x)%string with (q +:+ String "," x).
    rewrite fields_free, fields_cons by done. cbn [Ascii.eqb Bool.eqb].
    rewrite IH by done. by rewrite app_nil_r_string.
Qed.

(** *** The loop *)

(** The loop at index [i], with [cur] the characters read since the last
    comma and [rest] those still to read. *)
Lemma splitLoop_fields s : ∀ rest pre cur result,
  s = pre +:+ cur +:+ rest → ","%char ∉ chars cur →
  splitLoop s (String.length rest + 1) (String.length pre + String.length cur)
            (String.length pre) result
    = Some (result ++ filter (λ p, p ≠ "") (trimSpaces <$> fields (cur +:+ rest))).
Proof.
  intros rest. induction rest as [|c rest IH]; intros pre cur result Hs Hfree.
  - cbn [String.length Nat.add splitLoop]. rewrite app_nil_r_string in *.
    assert (Hlen : String.length s = String.length pre + String.length cur).
    { by rewrite Hs, string_length_app. }
    rewrite Hlen, Nat.eqb_refl. cbn [mbind option_bind].
    assert (Hslice : slice s (String.length pre) (String.length pre + String.length cur)
                       = Some cur).
    { rewrite Hs, <- (app_nil_r_string cur) at 1. apply slice_app. }
    rewrite Hslice. cbn [mbind option_bind].
    rewrite fields_one by done.
    cbn [fmap list_fmap]. rewrite filter_cons, filter_nil.
    destruct (bool_decide_reflect (trimSpaces cur ≠ "")) as [Hp|Hp].
    + by rewrite decide_True.
    + rewrite decide_False; [by rewrite app_nil_r | done].
  - cbn [String.length]. replace (S (String.length rest) + 1) with (S (String.length rest + 1)) by lia.
    cbn [splitLoop].
    assert (Hlen : String.length s = String.length pre + String.length cur + S (String.length rest)).
    { rewrite Hs, !string_length_app. cbn. lia. }
    replace (String.length pre + String.length cur =? String.length s) with false
      by (symmetry; apply Nat.eqb_neq; lia).
    assert (Hget : String.get (String.length pre + String.length cur) s = Some c).
    { rewrite Hs, <- app_assoc_string, <- string_length_app.
      rewrite <- (Nat.add_0_r (String.length (pre +:+ cur))). by rewrite get_app_r. }
    rewrite Hget. cbn [fmap option_fmap option_map mbind option_bind].
    destruct (Ascii.eqb_spec c ",") as [->|Hc].
    + rewrite fields_free, fields_cons by done. cbn [Ascii.eqb Bool.eqb].
      rewrite Hs at 1. rewrite slice_app. cbn [mbind option_bind].
      specialize (IH (pre +:+ cur +:+ ",") "" (if bool_decide (trimSpaces cur ≠ "")
                        then result ++ [trimSpaces cur] else result)).
      rewrite !string_length_app in IH. cbn [String.length String.append] in IH.
      replace (String.length pre + (String.length cur + 1) + 0)
        with (String.length pre + String.length cur + 1) in IH by lia.
      replace (String.length pre + (String.length cur + 1))
        with (String.length pre + String.length cur + 1) in IH by lia.
      rewrite IH.
      * f_equal. rewrite app_nil_r_string. cbn [fmap list_fmap]. rewrite filter_cons.
        destruct (bool_decide_reflect (trimSpaces cur ≠ "")) as [Hp|Hp].
        -- rewrite decide_True by done. by rewrite <- app_assoc.
        -- by rewrite decide_False.
      * rewrite Hs, !app_assoc_string. done.
      * by intros ?%elem_of_nil.
    + specialize (IH pre (cur +:+ String c "") result).
      rewrite !string_length_app in IH. cbn [String.length] in IH.
      replace (String.length pre + (String.length cur + 1))
        with (String.length pre + String.length cur + 1) in IH by lia.
      rewrite IH.
      * by rewrite app_assoc_string, string_app_cons, string_app_nil.
      * rewrite Hs, !app_assoc_string. done.
      * rewrite chars_snoc. intros [?|[?|?%elem_of_nil]%elem_of_cons]%elem_of_app; done.
Qed.

(** [splitAndTrim] never slices or indexes out of range: it returns the
    fields between the commas, trimmed, the empty ones left out. *)
Lemma splitAndTrim_fields s :
  splitAndTrim s = Some (filter (λ p, p ≠ "") (trimSpaces <$> fields s)).
Proof.
  unfold splitAndTrim. apply (splitLoop_fields s s "" "" []); [done | by intros ?%elem_of_nil].
Qed.


(** X18. [splitAndTrim] never indexes or slices out of range; every part
    it returns is non-empty, free of commas and without a space at either
    end, so the test [n != ""] that [handleCustomGraph] applies to the
    parts never drops one. *)
Theorem splitAndTrim_trimmed s :
  ∃ parts, splitAndTrim s = Some parts ∧ Forall trimmed parts ∧
           filter (λ n, n ≠ "") parts = parts.
Proof.
  rewrite splitAndTrim_fields. eexists. split; [done | ].
  assert (Hparts : Forall trimmed (filter (λ p, p ≠ "") (trimSpaces <$> fields s))).
  { apply Forall_forall. intros p [Hne (f & -> & Hf)%list_elem_of_fmap]%list_elem_of_filter.
    destruct (trimSpaces_spec f) as (l & r & Heq & Hhead & Hlast).
    split_and!; [done | | done | done]. intros Hcomma.
    pose proof (fields_commaFree s) as Hfree. rewrite Forall_forall in Hfree.
    apply (Hfree f Hf). rewrite Heq, !chars_app, !elem_of_app. auto. }
  split; [done | ]. apply filter_all. eapply Forall_impl; [apply Hparts | ].
  by intros p [? _].
Qed.

(** X19. Round trip: take any pieces without a comma and without a space
    at either end, empty ones among them, put any number of spaces before
    and after each, a number of its own for each piece and each side, and
    join them by commas: of the joined string [splitAndTrim] returns the
    pieces that are not empty, in their order. *)
Theorem splitAndTrim_concat (pieces : list (nat * string * nat)) :
  Forall (λ x, (","%char ∉ chars x.1.2) ∧ (head (chars x.1.2) ≠ Some " "%char) ∧
               (last (chars x.1.2) ≠ Some " "%char)) pieces →
  splitAndTrim (String.concat "," ((λ x, spaces x.1.1 +:+ x.1.2 +:+ spaces x.2) <$> pieces))
    = Some (filter (λ p, p ≠ "") ((λ x, x.1.2) <$> pieces)).
Proof.
  intros Hpieces. rewrite splitAndTrim_fields. f_equal.
  destruct (decide (pieces = [])) as [->|Hne]; [done | ].
  rewrite fields_concat.
  - rewrite <- list_fmap_compose. f_equal. apply list_fmap_ext.
    intros i x Hx%list_elem_of_lookup_2. rewrite Forall_forall in Hpieces.
    destruct (Hpieces x Hx) as (_ & ? & ?). cbn. by apply trimSpaces_pad.
  - by destruct pieces.
  - apply Forall_fmap, Forall_forall. intros x Hx. rewrite Forall_forall in Hpieces.
    destruct (Hpieces x Hx) as (Hfree & _). cbn.
    rewrite !chars_app, !chars_spaces, !elem_of_app.
    intros [Hc%elem_of_replicate|[?|Hc%elem_of_replicate]]; [by destruct Hc | done | by destruct Hc].
Qed.

Lemma all_spaces f : Forall (λ c, c = " "%char) (chars f) → f = spaces (String.length f).
Proof.
  induction f as [|c f IH]; [done | ]. intros [-> Hf]%Forall_cons. cbn. by rewrite <- IH.
Qed.

Lemma trimSpaces_nil f : trimSpaces f = "" ↔ Forall (λ c, c = " "%char) (chars f).
Proof.
  split.
  - intros Hnil. destruct (trimSpaces_spec f) as (l & r & Heq & _).
    rewrite Heq, Hnil, !chars_app, !chars_spaces. cbn [chars list_ascii_of_string app].
    apply Forall_app. split; by apply Forall_replicate.
  - intros Hf%all_spaces. rewrite Hf.
    pose proof (trimSpaces_pad (String.length f) 0 "") as Hpad.
    cbn [spaces] in Hpad. rewrite string_app_nil, app_nil_r_string in Hpad. by apply Hpad.
Qed.

Lemma fields_spaces s :
  Forall (λ f, Forall (λ c, c = " "%char) (chars f)) (fields s) ↔
  Forall (λ c, c = " "%char ∨ c = ","%char) (chars s).
Proof.
  induction s as [|c s IH]; [by split; repeat constructor | ].
  rewrite fields_cons. change (chars (String c s)) with (c :: chars s).
  rewrite Forall_cons, <- IH. destruct (Ascii.eqb_spec c ",") as [->|Hc].
  - rewrite Forall_cons. split; [intros [_ ?]; auto | intros [_ ?]; by split].
  - pose proof (fields_nonempty s) as Hne. destruct (fields s) as [|f fs]; [done | ].
    rewrite !Forall_cons. change (chars (String c f)) with (c :: chars f).
    rewrite Forall_cons. split.
    + intros [[? ?] ?]. auto.
    + intros [[?|?] [? ?]]; [auto | done].
Qed.

(** Of a string of spaces and commas [splitAndTrim] returns no part. *)
Lemma splitAndTrim_blank s :
  Forall (λ c, c = " "%char ∨ c = ","%char) (chars s) → splitAndTrim s = Some [].
Proof.
  rewrite splitAndTrim_fields, <- fields_spaces.
  intros Hall. f_equal. apply filter_none, Forall_fmap.
  eapply Forall_impl; [apply Hall | ]. intros f Hf%trimSpaces_nil Hne. by apply Hne.
Qed.

(** X20. [splitAndTrim] returns no part at all exactly of the strings made
    of spaces and commas only, the empty string among them. *)
Theorem splitAndTrim_nil s :
  splitAndTrim s = Some [] ↔ Forall (λ c, c = " "%char ∨ c = ","%char) (chars s).
Proof.
  split; [ | apply splitAndTrim_blank].
  rewrite splitAndTrim_fields, <- fields_spaces.
  intros [= Hnil]. apply Forall_forall. intros f Hf. apply trimSpaces_nil.
  destruct (decide (trimSpaces f = "")) as [ | Hne]; [done | ].
  assert (Hin : trimSpaces f ∈ filter (λ p, p ≠ "") (trimSpaces <$> fields s)).
  { apply list_elem_of_filter. split; [done | ]. by apply list_elem_of_fmap_2. }
  rewrite Hnil in Hin. by apply elem_of_nil in Hin.
Qed.

End strings.

(** ** The failure [Run] reports *)
Section failure_explained.
Context {any : Type} (nil : any).
Implicit Types (ns : gmap string (Node any)) (e : Engine any).
Implicit Types (o : MapOrders) (scheds : list (list nat)).


End failure_explained.

(** ** The graph an engine is built for *)
Section built_graph.
Context {any : Type}.
Implicit Types (cat : gmap string (Node any)) (b : Builder any) (e : Engine any).


End built_graph.

(** ** The handlers: what they answer *)
Section answers.
Implicit Types (b : Builder payload) (e : Engine payload) (cat : gmap string (Node payload)).
Implicit Types (o : MapOrders) (scheds : list (list nat)).




End answers.

Section handlers_answer.
Implicit Types (b : Builder payload) (e : Engine payload) (cat : gmap string (Node payload)).
Implicit Types (o : MapOrders) (scheds : list (list nat)).





End handlers_answer.

(** ** The handlers: the query and the fixed answers *)

Section handlers.
Implicit Types (b : Builder payload) (e : Engine payload).
Implicit Types (o : MapOrders) (scheds : list (list nat)).

(** X21. [FromDeps] on what the engine gathers for a node: a dependency
    the node does not declare is not found, whatever the results hold; a
    declared one gives the message of the result stored for it when that
    is an [Output] of its own package, and the type error otherwise, also
    when no result is stored. *)
Theorem FromDeps_gatherDeps ID rs deps :
  FromDeps ID (gatherDeps Nil rs deps) =
    if decide (ID ∈ deps)
    then match Data <$> rs !! ID with
         | Some (Output pkg Message) =>
             if bool_decide (pkg = ID) then inl Message
             else inr ("invalid data type for " +:+ ID)
         | _ => inr ("invalid data type for " +:+ ID)
         end
    else inr (ID +:+ " result not found in deps").
Proof.
  unfold FromDeps. rewrite gatherDeps_lookup. destruct (decide (ID ∈ deps)); [ | done].
  by destruct (rs !! ID) as [[id [|pkg msg]]|].
Qed.

(** X23. A request whose parameter names no node, like [?nodes=,], is
    answered with status 200 and no results, whatever the catalog. *)
Theorem handleCustomGraph_no_names b nodesParam o scheds :
  nodesParam ≠ "" → Forall (λ c, c = " "%char ∨ c = ","%char) (chars nodesParam) →
  handleCustomGraph b nodesParam o scheds = Some (JSON ∅).
Proof.
  intros Hne Hall%splitAndTrim_blank. unfold handleCustomGraph.
  rewrite bool_decide_eq_false_2 by done. rewrite Hall.
  assert (Hplan : topoSortLevels o (∅ : gmap string (Node payload)) = Some (inl [])).
  { unfold topoSortLevels. rewrite !range_empty. cbn. by rewrite range_empty. }
  cbn [mbind option_bind filter list_filter BuildFor BuildForDepth resolveEach].
  unfold runAndRespond.
  assert (PrettyPrint (New (∅ : gmap string (Node payload))) = New ∅) as -> by done.
  unfold Run. cbn [nodes New]. by rewrite Hplan.
Qed.

End handlers.

Section small_graph.
Implicit Types (b : Builder payload) (e : Engine payload).
Implicit Types (o : MapOrders) (scheds : list (list nat)).

Lemma BuildFor_small b :
  catalog b !! node1.ID = Some node1.node → catalog b !! node4.ID = Some node4.node →
  BuildFor b [node4.ID] = Some (inl (New smallGraph)).
Proof.
  intros H1 H4. unfold BuildFor, BuildForDepth.
  assert (Hres : resolveEach (resolve 2 (catalog b)) [node4.ID] ∅ = Some (inl smallGraph)).
  { cbn [resolveEach resolve]. rewrite lookup_empty, H4.
    cbn [DependsOn node4.node resolveEach resolve].
    rewrite lookup_insert_ne by done. rewrite lookup_empty, H1. done. }
  assert (Hsize : 2 ≤ S (size (catalog b))).
  { destruct (decide (size (catalog b) = 0)) as [Hz%map_size_empty_inv | ]; [ | lia].
    by rewrite Hz, lookup_empty in H1. }
  rewrite (resolveEach_mono (resolve 2 (catalog b)) (resolve (S (size (catalog b))) (catalog b))
             (λ id needed r, resolve_mono (catalog b) 2 _ id needed r Hsize) _ _ _ Hres).
  done.
Qed.

Lemma smallGraph_keyed : keyed smallGraph.
Proof. by_evaluation. Qed.

Lemma smallGraph_closed : closed smallGraph.
Proof. by_evaluation. Qed.

Lemma smallGraph_acyclic : acyclic smallGraph.
Proof.
  apply (topoSortLevels_inl Examples.orders smallGraph [["node1"]; ["node4"]]);
    [apply smallGraph_keyed | ]. vm_compute. reflexivity.
Qed.

Lemma smallGraph_solves : solves Nil smallGraph smallResults.
Proof.
  assert (H : map_Forall (λ id n,
    ∃ r, NodeRun n (gatherDeps Nil smallResults (DependsOn n)) = inl r ∧
         smallResults !! id = Some r) smallGraph).
  { unfold smallGraph. apply map_Forall_insert_2; [ | apply map_Forall_insert_2].
    - eexists. split; vm_compute; reflexivity.
    - eexists. split; vm_compute; reflexivity.
    - apply map_Forall_empty. }
  intros id n Hn. by apply (H id n).
Qed.

(** X25. [/graph/small]: on every catalog that holds the nodes node1 and
    node4 of the packages, whatever else it holds, the answer is status
    200 with the results of exactly these two nodes, under every
    interleaving and every map order. *)
Theorem handleSmallGraph_ok b o scheds :
  catalog b !! node1.ID = Some node1.node → catalog b !! node4.ID = Some node4.node →
  handleSmallGraph b o scheds = Some (JSON smallResults).
Proof.
  intros H1 H4. unfold handleSmallGraph. rewrite (BuildFor_small b H1 H4).
  unfold runAndRespond.
  assert (PrettyPrint (New smallGraph) = New smallGraph) as -> by (vm_compute; reflexivity).
  destruct (Run_solution Nil o scheds (New smallGraph) smallResults)
    as (rs & log & -> & Hrs & _).
  - apply smallGraph_keyed.
  - apply smallGraph_closed.
  - apply smallGraph_acyclic.
  - apply smallGraph_solves.
  - do 2 f_equal. unfold Results. cbn [results nodes New] in *. apply map_eq. intros k.
    rewrite Hrs. destruct (decide _) as [ | Hk]; [done | ]. rewrite lookup_empty.
    unfold smallGraph, smallResults in *.
    destruct (decide (k = node1.ID)) as [->|Hn1].
    { destruct Hk. rewrite lookup_insert_eq. by eexists. }
    destruct (decide (k = node4.ID)) as [->|Hn4].
    { destruct Hk. rewrite lookup_insert_ne, lookup_insert_eq by done. by eexists. }
    by rewrite !lookup_insert_ne.
Qed.

End small_graph.


(** ** The texts of the errors *)

(** X15. The text of the cycle error and the text of an unknown-node
    error are the text of no other error, and an unknown-node text tells
    the id; a text of one of the two other kinds belongs to no error of
    the first two. *)
Theorem Error_text e e' :
  Error e = Error e' →
  match e with
  | ErrCycle | ErrUnknownNode _ => e' = e
  | ErrUnknownDependency _ _ | ErrNodeFailed _ _ =>
      match e' with
      | ErrUnknownDependency _ _ | ErrNodeFailed _ _ => True
      | _ => False
      end
  end.
Proof.
  destruct e, e'; intros H; try done; vm_compute in H; try discriminate H.
  by simplify_eq.
Qed.

(** The texts of an unknown-dependency error and of a node failure can
    coincide, when IDs or causes contain the words of the format. *)
Example Error_text_ambiguous :
  Error (ErrUnknownDependency "A" "B failed: c") =
  Error (ErrNodeFailed "A depends on unknown node B" "c").
Proof. reflexivity. Qed.

(** ** The integrity test *)

Section chains.
Context {A : Type} (R : relation A).
Implicit Types (l : list A).

Lemma chain_cons a l :
  chain R (a :: l) ↔ (∀ b, head l = Some b → R a b) ∧ chain R l.
Proof.
  destruct l as [|b l]; cbn [chain head].
  - split; [by split | done].
  - split.
    + intros [? ?]. split; [by intros ? [= <-] | done].
    + intros [Hb ?]. split; [by apply Hb | done].
Qed.

Lemma chain_app l1 l2 :
  chain R (l1 ++ l2) ↔
  chain R l1 ∧ chain R l2 ∧ ∀ a b, last l1 = Some a → head l2 = Some b → R a b.
Proof.
  induction l1 as [|a l1 IH].
  - cbn. split; [by intros ? | by intros (_ & ? & _)].
  - rewrite <- app_comm_cons, !chain_cons, IH. destruct l1 as [|a' l1].
    + cbn [app last head]. split.
      * intros (Hh & _ & Hl2 & _). split_and!; [done | done | done | ].
        intros ? b [= <-] Hb. by apply Hh.
      * intros ((_ & _) & Hl2 & Hl). split_and!; [ | done | done | done].
        intros b Hb. by apply Hl.
    + rewrite last_cons_cons. cbn [app head]. tauto.
Qed.

Lemma chain_tc a mid b : chain R (a :: mid ++ [b]) → tc R a b.
Proof.
  revert a. induction mid as [|c mid IH]; intros a.
  - cbn. intros [? _]. by apply tc_once.
  - cbn [app]. rewrite chain_cons. intros [Hc Hrest].
    eapply tc_l; [by apply Hc | by apply IH].
Qed.

End chains.

Section integrity_facts.
Import integrity.
Context {any : Type}.
Implicit Types (nodes : gmap string (Node any)) (st : search) (k d id : string).

Lemma flag_insert (m : gmap string bool) k b k' :
  flag (<[k := b]> m) k' = if decide (k = k') then b else flag m k'.
Proof.
  unfold flag. destruct (decide (k = k')) as [->|Hne].
  - by rewrite lookup_insert_eq.
  - by rewrite lookup_insert_ne.
Qed.

Lemma dependsOn_deps nodes id d :
  dependsOn nodes id d ↔ d ∈ from_option DependsOn [] (nodes !! id).
Proof.
  unfold dependsOn. destruct (nodes !! id) as [n|]; cbn.
  - split; [by intros (? & [= <-] & ?) | by exists n].
  - split; [by intros (? & ? & ?) | by intros ?%elem_of_nil].
Qed.

Lemma dependsOn_ids nodes k d : dependsOn nodes k d → k ∈ ids nodes ∧ d ∈ ids nodes.
Proof.
  intros (n & Hn & Hd). unfold ids. split.
  - apply elem_of_union_l, elem_of_dom. by eexists.
  - apply elem_of_union_r, elem_of_list_to_set, list_elem_of_bind.
    exists (k, n). split; [done | by apply elem_of_map_to_list].
Qed.

Lemma searchOn_refl nodes st : searchInv nodes st → searchOn nodes st st.
Proof. by split. Qed.

Lemma searchOn_trans nodes st1 st2 st3 :
  searchOn nodes st1 st2 → searchOn nodes st2 st3 → searchOn nodes st1 st3.
Proof.
  intros [Hp1 Hs1 Hv1 _] [Hp2 Hs2 Hv2 Hinv]. split; [congruence | | auto | done].
  intros k. by rewrite Hs2.
Qed.

Lemma black_on nodes st st' k : searchOn nodes st st' → black st k → black st' k.
Proof. intros [_ Hs Hv _] [? ?]. split; [by apply Hv | by rewrite Hs]. Qed.

Lemma black_rtc nodes st k d :
  searchInv nodes st → black st k → rtc (dependsOn nodes) k d → black st d.
Proof.
  intros Hinv Hk Hkd. induction Hkd as [|k k' d Hstep _ IH]; [done | ].
  apply IH. by apply (search_closed _ _ Hinv k).
Qed.

Lemma unvisited_on nodes st st' :
  searchOn nodes st st' → size (unvisited nodes st') ≤ size (unvisited nodes st).
Proof.
  intros [_ _ Hv _]. apply subseteq_size. intros k.
  unfold unvisited. rewrite !elem_of_filter. intros [Hk ?]. split; [ | done].
  destruct (flag (visited st) k) eqn:Hf; [ | done]. by rewrite (Hv k Hf) in Hk.
Qed.

(** The loop over the dependencies of [id], for any function [rec] that
    searches from an unvisited node as [hasCycle] is to. *)
Lemma visit_spec nodes rec depth id p :
  (∀ d st, searchInv nodes st → flag (visited st) d = false → d ∈ ids nodes →
     (∀ k, last (cyclePath st) = Some k → dependsOn nodes k d) →
     size (unvisited nodes st) ≤ depth →
     ∃ b st', rec d st = Some (b, st') ∧
       if b : bool then cycleFound nodes (cyclePath st')
       else searchOn nodes st st' ∧ black st' d) →
  ∀ deps st, searchInv nodes st → cyclePath st = p ++ [id] →
    (∀ d, d ∈ deps → dependsOn nodes id d) →
    size (unvisited nodes st) ≤ depth →
    ∃ b st', visit rec deps st = Some (b, st') ∧
      if b : bool then cycleFound nodes (cyclePath st')
      else searchOn nodes st st' ∧ ∀ d, d ∈ deps → black st' d.
Proof.
  intros Hrec. induction deps as [|dep deps IH]; intros st Hinv Hpath Hdeps Hsize.
  { exists false, st. split; [done | ]. split; [by apply searchOn_refl | ].
    by intros ? ?%elem_of_nil. }
  assert (Hdep : dependsOn nodes id dep) by (apply Hdeps; left).
  assert (Hrest : ∀ d, d ∈ deps → dependsOn nodes id d) by (intros; apply Hdeps; by right).
  cbn [visit]. destruct (flag (visited st) dep) eqn:Hv; cbn [negb].
  - destruct (flag (recStack st) dep) eqn:Hs.
    + eexists true, _. split; [done | ]. cbn [cyclePath].
      apply (search_stack _ _ Hinv), list_elem_of_split in Hs as (pre & mid & Hsplit).
      exists pre, dep, mid. split_and!.
      * by rewrite Hsplit, <- app_assoc.
      * rewrite chain_app. split_and!; [by apply Hinv | done | ].
        rewrite Hpath, last_snoc. by intros ? ? [= <-] [= <-].
      * rewrite <- Hsplit. by apply Hinv.
    + destruct (IH st Hinv Hpath Hrest Hsize) as (b & st' & -> & Hpost).
      exists b, st'. split; [done | ]. destruct b; [done | ].
      destruct Hpost as [Hon Hblack]. split; [done | ].
      intros d [->|Hd]%elem_of_cons; [ | by apply Hblack].
      by apply (black_on nodes st).
  - destruct (Hrec dep st Hinv Hv) as (b & st1 & -> & Hpost); [ | | done | ].
    { by apply (dependsOn_ids nodes id). }
    { rewrite Hpath, last_snoc. by intros ? [= <-]. }
    destruct b; [by exists true, st1 | ].
    destruct Hpost as [Hon1 Hblack1].
    destruct (IH st1) as (b & st2 & -> & Hpost); [by apply Hon1 | | done | | ].
    { by rewrite (on_path _ _ _ Hon1). }
    { pose proof (unvisited_on _ _ _ Hon1). lia. }
    exists b, st2. split; [done | ]. destruct b; [done | ].
    destruct Hpost as [Hon2 Hblack2]. split; [by eapply searchOn_trans | ].
    intros d [->|Hd]%elem_of_cons; [ | by apply Hblack2].
    by apply (black_on nodes st1).
Qed.

(** [hasCycle], called for a node not visited yet that the last node of
    the path depends on, returns when the depth left is at least the
    number of ids still to visit: with [true] and a path that closes a
    cycle, or with [false], the node done, and the path and the stack as
    they were. *)
Lemma hasCycle_spec nodes depth : ∀ id st,
  searchInv nodes st → flag (visited st) id = false → id ∈ ids nodes →
  (∀ k, last (cyclePath st) = Some k → dependsOn nodes k id) →
  size (unvisited nodes st) ≤ depth →
  ∃ b st', hasCycle depth nodes id st = Some (b, st') ∧
    if b : bool then cycleFound nodes (cyclePath st')
    else searchOn nodes st st' ∧ black st' id.
Proof.
  induction depth as [|depth IH]; intros id st Hinv Hv Hid Hlast Hsize.
  { assert (id ∈ unvisited nodes st) as Hin by (by apply elem_of_filter).
    assert (unvisited nodes st ≡ ∅) as Hempty by (apply size_empty_iff; lia).
    by apply Hempty in Hin. }
  set (st1 := mkSearch (<[id := true]> (visited st)) (<[id := true]> (recStack st))
                (cyclePath st ++ [id])).
  assert (Hstack0 : flag (recStack st) id = false).
  { destruct (flag (recStack st) id) eqn:Hs; [ | done].
    apply (search_stack _ _ Hinv), (search_visited _ _ Hinv) in Hs. congruence. }
  assert (Hnew : id ∉ cyclePath st).
  { intros Hin%(search_visited _ _ Hinv). congruence. }
  assert (Hblack1 : ∀ k, black st1 k → k ≠ id ∧ black st k).
  { intros k [Hk1 Hk2]. cbn in Hk1, Hk2. rewrite flag_insert in Hk1, Hk2.
    destruct (decide (id = k)) as [->|Hne]; [done | ]. by split; [ | split]. }
  assert (Hinv1 : searchInv nodes st1).
  { split; cbn [st1 visited recStack cyclePath].
    - intros k. rewrite flag_insert, elem_of_app, list_elem_of_singleton.
      destruct (decide (id = k)) as [->|Hne]; [by split; auto | ].
      rewrite (search_stack _ _ Hinv). split; [by left | by intros [?|?]].
    - intros k. rewrite flag_insert, elem_of_app, list_elem_of_singleton.
      destruct (decide (id = k)) as [->|Hne]; [done | ].
      intros [Hk|?]; [by apply Hinv | done].
    - intros k. rewrite flag_insert. destruct (decide (id = k)) as [<-|Hne]; [done | ].
      by apply Hinv.
    - rewrite chain_app. split_and!; [by apply Hinv | done | ].
      intros a b Ha [= <-]. by apply Hlast.
    - apply NoDup_app. split_and!; [by apply Hinv | | by apply NoDup_singleton].
      by intros k Hk ->%list_elem_of_singleton.
    - intros k d [Hne Hk]%Hblack1 Hkd.
      destruct (search_closed _ _ Hinv k d Hk Hkd) as [Hd1 Hd2].
      assert (id ≠ d) by (intros ->; congruence).
      split; cbn; rewrite flag_insert; by destruct (decide (id = d)).
    - intros k [_ Hk]%Hblack1. by apply Hinv. }
  assert (Hsize1 : size (unvisited nodes st1) ≤ depth).
  { assert (unvisited nodes st ∖ {[id]} ⊂ unvisited nodes st) as Hsub%subset_size.
    { apply subset_difference_elem_of. by apply elem_of_filter. }
    assert (unvisited nodes st1 ⊆ unvisited nodes st ∖ {[id]}) as Hsub'%subseteq_size;
      [ | lia].
    intros k. unfold unvisited. rewrite elem_of_difference, !elem_of_filter.
      cbn. rewrite flag_insert, not_elem_of_singleton.
    destruct (decide (id = k)) as [->|Hne]; [by intros [? ?] | by intros [? ?]]. }
  cbn [hasCycle]. fold st1.
  destruct (visit_spec nodes (hasCycle depth nodes) depth id (cyclePath st) IH
              (from_option DependsOn [] (nodes !! id)) st1 Hinv1 eq_refl)
    as (b & st2 & -> & Hpost); [ | done | ].
  { intros d. by rewrite dependsOn_deps. }
  destruct b; [by exists true, st2 | ].
  destruct Hpost as [[Hpath2 Hstack2 Hvis2 Hinv2] Hdeps].
  cbn [st1 visited recStack cyclePath] in Hpath2, Hstack2, Hvis2.
  eexists false, _. split; [done | ].
  assert (Hid2 : flag (visited st2) id = true).
  { apply Hvis2. rewrite flag_insert. by destruct (decide (id = id)). }
  assert (Hgrey2 : flag (recStack st2) id = true).
  { rewrite Hstack2, flag_insert. by destruct (decide (id = id)). }
  assert (Hsame : ∀ k, flag (<[id := false]> (recStack st2)) k = flag (recStack st) k).
  { intros k. rewrite flag_insert. destruct (decide (id = k)) as [<-|Hne]; [done | ].
    rewrite Hstack2, flag_insert. by destruct (decide (id = k)). }
  assert (Hpop : take (length (cyclePath st2) - 1) (cyclePath st2) = cyclePath st).
  { rewrite Hpath2, length_app. cbn [length].
    replace (length (cyclePath st) + 1 - 1) with (length (cyclePath st)) by lia.
    by rewrite take_app_length. }
  assert (Hblack3 : ∀ k,
    black (mkSearch (visited st2) (<[id := false]> (recStack st2)) (cyclePath st)) k ↔
    k = id ∨ black st2 k).
  { intros k. unfold black. cbn. rewrite flag_insert.
    destruct (decide (id = k)) as [<-|Hne].
    - split; [by left | done].
    - split; [by right | ]. intros [->|?]; [done | done]. }
  assert (Hclosed2 : ∀ d, dependsOn nodes id d → black st2 d).
  { intros d. rewrite dependsOn_deps. apply Hdeps. }
  rewrite Hpop. split; [ | by apply Hblack3; left].
  split; cbn [visited recStack cyclePath]; [done | done | | ].
  { intros k Hk. apply Hvis2. rewrite flag_insert. by destruct (decide (id = k)). }
  split; cbn [visited recStack cyclePath].
  - intros k. rewrite Hsame. apply Hinv.
  - intros k Hk%(search_visited _ _ Hinv). apply Hvis2. rewrite flag_insert.
    by destruct (decide (id = k)).
  - apply Hinv2.
  - apply Hinv.
  - apply Hinv.
  - intros k d Hk Hkd. apply Hblack3. right. apply Hblack3 in Hk as [->|Hk].
    + by apply Hclosed2.
    + by apply (search_closed _ _ Hinv2 k).
  - intros k Hk Hcycle. apply Hblack3 in Hk as [->|Hk]; [ | by apply (search_acyclic _ _ Hinv2 k)].
    assert (black st2 id) as [_ ?]; [ | congruence].
    assert (∃ d, dependsOn nodes id d ∧ rtc (dependsOn nodes) d id) as (d & Hd & Hback).
    { inversion Hcycle as [? ? Hd|? d ? Hd Hback]; subst.
      - by exists id.
      - exists d. split; [done | by apply tc_rtc]. }
    apply (black_rtc nodes st2 d); [done | by apply Hclosed2 | done].
Qed.

(** The loop over the keys, started off the recursion. *)
Lemma searchAll_spec nodes depth :
  size (ids nodes) ≤ depth →
  ∀ keys st, searchInv nodes st → cyclePath st = [] →
    (∀ k, k ∈ keys → k ∈ ids nodes) →
    ∃ failures, searchAll depth nodes keys st = Some failures ∧
      ((failures = [] ∧ ∃ st', searchOn nodes st st' ∧ ∀ k, k ∈ keys → black st' k) ∨
       ∃ path, failures = [CycleDetected path] ∧ cycleFound nodes path).
Proof.
  intros Hdepth. induction keys as [|id keys IH]; intros st Hinv Hpath Hkeys.
  { exists []. split; [done | ]. left. split; [done | ]. exists st.
    split; [by apply searchOn_refl | by intros ? ?%elem_of_nil]. }
  assert (Hrest : ∀ k, k ∈ keys → k ∈ ids nodes) by (intros; apply Hkeys; by right).
  assert (Hoff : ∀ st' k, searchOn nodes st st' → flag (recStack st') k = false).
  { intros st' k Hon. destruct (flag (recStack st') k) eqn:Hs; [ | done].
    apply (search_stack _ _ (on_inv _ _ _ Hon)) in Hs.
    rewrite (on_path _ _ _ Hon), Hpath in Hs. by apply elem_of_nil in Hs. }
  cbn [searchAll]. destruct (flag (visited st) id) eqn:Hv.
  - destruct (IH st Hinv Hpath Hrest) as (failures & -> & Hpost).
    exists failures. split; [done | ].
    destruct Hpost as [(-> & st' & Hon & Hblack)|?]; [left | by right].
    split; [done | ]. exists st'. split; [done | ].
    intros k [->|Hk]%elem_of_cons; [ | by apply Hblack].
    split; [by apply (on_visited _ _ _ Hon) | by apply Hoff].
  - destruct (hasCycle_spec nodes depth id st Hinv Hv) as (b & st1 & -> & Hpost).
    { apply Hkeys. left. }
    { by rewrite Hpath. }
    { etrans; [ | done]. apply subseteq_size. intros k. unfold unvisited.
      rewrite elem_of_filter. by intros [_ ?]. }
    destruct b.
    { eexists. split; [done | ]. right. by eexists. }
    destruct Hpost as [Hon1 Hblack1].
    destruct (IH st1) as (failures & -> & Hpost);
      [by apply Hon1 | by rewrite (on_path _ _ _ Hon1) | done | ].
    exists failures. split; [done | ].
    destruct Hpost as [(-> & st' & Hon & Hblack)|?]; [left | by right].
    split; [done | ]. exists st'. split; [by eapply searchOn_trans | ].
    intros k [->|Hk]%elem_of_cons; [ | by apply Hblack].
    by apply (black_on nodes st1).
Qed.

(** A path as the search returns it closes a cycle. *)
Lemma cycleFound_cycle nodes path : cycleFound nodes path → ¬ acyclic nodes.
Proof.
  intros (pre & a & mid & -> & Hchain & _) Hacyclic. apply (Hacyclic a).
  apply chain_app in Hchain as (_ & Hchain & _). by apply chain_tc in Hchain.
Qed.

(** The subtest [no_cycles] returns, with nothing to report and no cycle
    among the nodes, or with the path of a cycle. *)
Lemma no_cycles_spec hint nodes :
  ∃ failures, no_cycles hint nodes = Some failures ∧
    ((failures = [] ∧ acyclic nodes) ∨
     ∃ path, failures = [CycleDetected path] ∧ cycleFound nodes path).
Proof.
  assert (Hflag : ∀ k, flag ∅ k = false) by (intros k; unfold flag; by rewrite lookup_empty).
  assert (Hinv : searchInv nodes (mkSearch ∅ ∅ [])).
  { split; cbn [visited recStack cyclePath].
    - intros k. rewrite Hflag. split; [done | by intros ?%elem_of_nil].
    - by intros k ?%elem_of_nil.
    - intros k. by rewrite Hflag.
    - done.
    - constructor.
    - intros k d [Hk _]. cbn in Hk. by rewrite Hflag in Hk.
    - intros k [Hk _]. cbn in Hk. by rewrite Hflag in Hk. }
  destruct (searchAll_spec nodes (size (ids nodes)) (le_n _) (rangeKeys hint nodes)
              _ Hinv eq_refl) as (failures & Hsearch & Hpost).
  { intros k ?%elem_of_rangeKeys. unfold ids. by apply elem_of_union_l, elem_of_dom. }
  exists failures. split; [done | ].
  destruct Hpost as [(-> & st' & Hon & Hblack)|?]; [left | by right].
  split; [done | ]. intros k Hcycle. apply (search_acyclic _ _ (on_inv _ _ _ Hon) k); [ | done].
  apply Hblack, elem_of_rangeKeys.
  assert (∃ d, dependsOn nodes k d) as (d & n & Hn & _); [ | by eexists].
  inversion Hcycle; by eexists.
Qed.

(** What the subtest [dependencies_exist] reports. *)
Lemma dependencies_exist_spec hint nodes f :
  f ∈ dependencies_exist hint nodes ↔
  ∃ id dep, f = MissingDependency id dep ∧ dependsOn nodes id dep ∧ nodes !! dep = None.
Proof.
  unfold dependencies_exist. rewrite list_elem_of_bind. split.
  - intros ([id n] & (dep & Hf & Hdep)%list_elem_of_bind & Hn%elem_of_range).
    destruct (nodes !! dep) eqn:Hnone; [by apply elem_of_nil in Hf | ].
    apply list_elem_of_singleton in Hf. exists id, dep. split_and!; [done | | done].
    by exists n.
  - intros (id & dep & -> & (n & Hn & Hdep) & Hnone). exists (id, n).
    split; [ | by apply elem_of_range]. apply list_elem_of_bind. exists dep.
    split; [ | done]. rewrite Hnone. left.
Qed.

Lemma dependencies_exist_closed hint nodes :
  dependencies_exist hint nodes = [] ↔ closed nodes.
Proof.
  split.
  - intros Hnone k n Hn. apply Forall_forall. intros dep Hdep.
    destruct (nodes !! dep) eqn:Hlook; [by eexists | ].
    assert (MissingDependency k dep ∈ dependencies_exist hint nodes) as Hin.
    { apply dependencies_exist_spec. exists k, dep. split_and!; [done | by exists n | done]. }
    rewrite Hnone in Hin. by apply elem_of_nil in Hin.
  - intros Hclosed. destruct (dependencies_exist hint nodes) as [|f l] eqn:Heq; [done | ].
    assert (f ∈ dependencies_exist hint nodes) as Hin by (rewrite Heq; left).
    apply dependencies_exist_spec in Hin as (id & dep & _ & Hdep & Hnone).
    destruct (closed_dependsOn _ id dep Hclosed Hdep) as [? ?]. congruence.
Qed.

(** The test as a whole: it returns, and reports nothing exactly for a
    catalog that is not empty, closed and free of cycles. *)
Lemma TestGraphIntegrity_spec hint1 hint2 nodes :
  ∃ failures, TestGraphIntegrity hint1 hint2 nodes = Some failures ∧
    (failures = [] ↔ nodes ≠ ∅ ∧ closed nodes ∧ acyclic nodes).
Proof.
  unfold TestGraphIntegrity. destruct (decide (size nodes = 0)) as [Hsize|Hsize].
  { eexists. split; [done | ]. split; [done | ]. intros [Hne _].
    by apply map_size_empty_iff in Hsize. }
  destruct (no_cycles_spec hint2 nodes) as (failures & -> & Hpost).
  eexists. split; [done | ].
  assert (nodes ≠ ∅) by (by rewrite <- map_size_empty_iff).
  rewrite <- (dependencies_exist_closed hint1). split.
  - intros [Hdeps ->]%app_eq_nil. split_and!; [done | done | ].
    by destruct Hpost as [[_ ?]|(? & ? & _)].
  - intros (_ & -> & Hacyclic). destruct Hpost as [[-> _]|(? & _ & Hcycle)]; [done | ].
    by apply cycleFound_cycle in Hcycle.
Qed.

End integrity_facts.

Section integrity_test.
Import integrity.
Context {any : Type}.
Implicit Types (nodes : gmap string (Node any)).

(** X26. The subtest [no_cycles] always returns, whatever the order in
    which the map is visited; it reports nothing exactly when no node
    reaches itself along dependencies; what it reports is one cycle, by a
    path that is a chain of dependencies, on which no node repeats but
    the last, which closes the cycle. *)
Theorem no_cycles_acyclic hint nodes :
  ∃ failures, no_cycles hint nodes = Some failures ∧
    (failures = [] ↔ acyclic nodes) ∧
    ∀ f, f ∈ failures →
      ∃ path, failures = [CycleDetected path] ∧ cycleFound nodes path.
Proof.
  destruct (no_cycles_spec hint nodes) as (failures & Hrun & Hpost).
  exists failures. split; [done | ].
  destruct Hpost as [[-> Hacyclic]|(path & -> & Hcycle)].
  - split; [done | ]. by intros f ?%elem_of_nil.
  - split.
    + split; [done | ]. intros Hacyclic. by apply cycleFound_cycle in Hcycle.
    + intros f _. by exists path.
Qed.

(** X27. [TestGraphIntegrity], its subtests on the catalog: the test
    returns; it passes exactly for a catalog that is not empty, in which
    every dependency is registered and no node reaches itself; it
    reports an empty catalog, every dependency that is not registered
    with the node that declares it, and a cycle only by a path that
    closes one. *)
Theorem TestGraphIntegrity_passes hint1 hint2 nodes :
  ∃ failures, TestGraphIntegrity hint1 hint2 nodes = Some failures ∧
    (failures = [] ↔ nodes ≠ ∅ ∧ closed nodes ∧ acyclic nodes) ∧
    (NoNodes ∈ failures ↔ nodes = ∅) ∧
    (∀ id dep, MissingDependency id dep ∈ failures ↔
               dependsOn nodes id dep ∧ nodes !! dep = None) ∧
    (∀ path, CycleDetected path ∈ failures → cycleFound nodes path).
Proof.
  destruct (TestGraphIntegrity_spec hint1 hint2 nodes) as (failures & Htest & Hpass).
  exists failures. split; [done | ]. split; [done | ].
  unfold TestGraphIntegrity in Htest.
  destruct (decide (size nodes = 0)) as [Hsize|Hsize].
  { apply map_size_empty_iff in Hsize as ->. injection Htest as <-. split_and!.
    - split; [done | ]. intros _. left.
    - intros id dep. split.
      + by intros [=]%list_elem_of_singleton.
      + intros [(n & Hn & _) _]. by rewrite lookup_empty in Hn.
    - by intros path [=]%list_elem_of_singleton. }
  assert (Hne : nodes ≠ ∅) by (by rewrite <- map_size_empty_iff).
  destruct (no_cycles_spec hint2 nodes) as (found & Hrun & Hpost).
  rewrite Hrun in Htest. injection Htest as <-.
  assert (Hfound : ∀ f, f ∈ found → ∃ path, f = CycleDetected path ∧ cycleFound nodes path).
  { intros f Hf. destruct Hpost as [[-> _]|(path & -> & Hcycle)].
    - by apply elem_of_nil in Hf.
    - apply list_elem_of_singleton in Hf. by exists path. }
  split_and!.
  - split; [ | done]. rewrite elem_of_app, dependencies_exist_spec.
    intros [(? & ? & [=] & _)|(? & [=] & _)%Hfound].
  - intros id dep. rewrite elem_of_app, dependencies_exist_spec. split.
    + intros [(? & ? & [= <- <-] & ?)|(? & [=] & _)%Hfound]. done.
    + intros [? ?]. left. by exists id, dep.
  - intros path. rewrite elem_of_app, dependencies_exist_spec.
    intros [(? & ? & [=] & _)|(? & [= <-] & ?)%Hfound]. done.
Qed.

End integrity_test.


(** ** The further properties on the concrete graphs *)

Lemma diamond_run :
  ∃ e' log,
    Run 0 Examples.orders Examples.lastFirst (New Examples.diamond)
      = Some (Returned None, e', log).
Proof. do 2 eexists. vm_compute. reflexivity. Qed.

Lemma failing_run_in_order :
  ∃ e' log,
    Run 0 Examples.orders [] (New Examples.failing)
      = Some (Returned (Some (ErrNodeFailed "B" "boom B")), e', log).
Proof. do 2 eexists. vm_compute. reflexivity. Qed.

Lemma diamond_built :
  ∃ e, BuildFor (NewBuilder Examples.diamond) ["B"; "A"] = Some (inl e).
Proof. eexists. vm_compute. reflexivity. Qed.


Lemma registered_inits : catalog.initAll Server.inits ∅ = inl Server.registered.
Proof. vm_compute. reflexivity. Qed.

Lemma Run_succeeds_witness :
  ∃ e' log,
    Run Nil Examples.orders Examples.lastFirst (New smallGraph)
      = Some (Returned None, e', log) ∧
    dom (Results e') =@{gset string} dom smallGraph ∧
    log.*1 ≡ₚ (map_to_list smallGraph).*1.
Proof.
  destruct (Run_succeeds Nil Examples.orders Examples.lastFirst smallGraph smallResults
              smallGraph_keyed smallGraph_closed smallGraph_acyclic smallGraph_solves)
    as (e' & log & Hrun & Hdom & Hlog & _).
  exists e', log. split_and!; assumption.
Defined.

Lemma topoSortLevels_length_witness :
  Forall (λ level, level ≠ []) [["A"]; ["C"; "B"]; ["D"]] ∧
  length [["A"]; ["C"; "B"]; ["D"]] ≤ size Examples.diamond.
Proof.
  exact (topoSortLevels_length Examples.orders Examples.diamond _ diamond_keyed diamond_levels).
Defined.

Lemma topoSortLevels_depth_witness :
  (∃ d, nsteps (dependsOn Examples.diamond) 2 "D" d) ∧
  (∀ j d, nsteps (dependsOn Examples.diamond) j "D" d → j ≤ 2).
Proof.
  apply (topoSortLevels_depth Examples.orders Examples.diamond [["A"]; ["C"; "B"]; ["D"]] 2 "D"
           diamond_keyed diamond_levels).
  exists ["D"]. split; [reflexivity | left].
Defined.

Lemma topoSortLevels_order_independent_witness :
  ∃ levels2,
    topoSortLevels (mkOrders [] [] [] []) Examples.diamond = Some (inl levels2) ∧
    (∀ i k, inLevel [["A"]; ["C"; "B"]; ["D"]] i k ↔ inLevel levels2 i k) ∧
    merge_sort String.le <$> [["A"]; ["C"; "B"]; ["D"]] = merge_sort String.le <$> levels2.
Proof.
  exact (topoSortLevels_order_independent Examples.orders (mkOrders [] [] [] [])
           Examples.diamond _ diamond_keyed diamond_levels).
Defined.

(** A run function that is nil or panics, once called, takes the program
    down: the diamond with such a C. *)
Example RunGo_nil_panics :
  (∃ e' log, RunGo 0 Examples.orders [] (mkGoEngine Examples.nilC ∅) = Some (Panicked, e', log)) ∧
  (∃ e' log, RunGo 0 Examples.orders [] (mkGoEngine Examples.panickingC ∅)
               = Some (Panicked, e', log)).
Proof. split; do 2 eexists; vm_compute; reflexivity. Qed.


Lemma Run_returns_witness :
  ∃ err rs log,
    RunGo 0 Examples.orders Examples.lastFirst (mkGoEngine (ofNode <$> Examples.failing) ∅)
      = Some (Returned err, mkGoEngine (ofNode <$> Examples.failing) rs, log).
Proof.
  destruct (Run_returns 0 Examples.orders Examples.lastFirst
              (mkGoEngine (ofNode <$> Examples.failing) ∅)
              (ofNode_fmap_keyed _ failing_keyed) (ofNode_fmap_returns _))
    as (err & rs & log & HRun & _).
  by exists err, rs, log.
Defined.

Lemma Run_results_witness :
  ∃ e' log,
    Run 0 Examples.orders Examples.lastFirst (New Examples.failing)
      = Some (Returned (Some (ErrNodeFailed "C" "boom C")), e', log) ∧
    NoDup log.*1 ∧
    (∀ k, k ∉ log.*1 → Results e' !! k = Results (New Examples.failing) !! k).
Proof.
  destruct failing_run as (e' & log & _ & _ & HRun & _).
  destruct (Run_results 0 Examples.orders Examples.lastFirst (New Examples.failing)
              _ e' log failing_keyed HRun) as (Hnd & _ & Hout).
  exists e', log. split_and!; assumption.
Defined.

Lemma failingAgain_same : sameNodes Examples.failing Examples.failingAgain.
Proof.
  unfold sameNodes, Examples.failing, Examples.failingAgain.
  cbn [list_to_map foldr fst snd].
  repeat (apply (map_Forall2_insert_2 (λ _ n n', ID n = ID n' ∧ DependsOn n = DependsOn n'));
          [done | ]).
  apply (map_Forall2_empty (λ _ n n', ID n = ID n' ∧ DependsOn n = DependsOn n')).
Qed.

Lemma diamondAgain_same : sameNodes Examples.diamond Examples.diamondAgain.
Proof.
  unfold sameNodes, Examples.diamond, Examples.diamondAgain.
  cbn [list_to_map foldr fst snd].
  repeat (apply (map_Forall2_insert_2 (λ _ n n', ID n = ID n' ∧ DependsOn n = DependsOn n'));
          [done | ]).
  apply (map_Forall2_empty (λ _ n n', ID n = ID n' ∧ DependsOn n = DependsOn n')).
Qed.

Ltac alike_by_cases :=
  let Hin := fresh "Hin" in let Hn := fresh "Hn" in let Hn' := fresh "Hn'" in
  intros ? ? ? ? Hin Hn Hn';
  repeat (apply elem_of_cons in Hin as [Hin|Hin];
          [injection Hin as -> ->; vm_compute in Hn, Hn';
           injection Hn as <-; injection Hn' as <-; vm_compute; reflexivity | ]);
  by apply elem_of_nil in Hin.

Lemma failingAgain_runs :
  ∃ e1 log1 e2 log2,
    Run 0 Examples.orders Examples.lastFirst (New Examples.failing)
      = Some (Returned (Some (ErrNodeFailed "C" "boom C")), e1, log1) ∧
    Run 0 Examples.orders [] (mkEngine Examples.failingAgain ∅)
      = Some (Returned (Some (ErrNodeFailed "B" "boom B")), e2, log2) ∧
    answersAlike Examples.failing Examples.failingAgain log1.
Proof.
  do 4 eexists. split; [vm_compute; reflexivity | ]. split; [vm_compute; reflexivity | ].
  alike_by_cases.
Qed.

Lemma diamondAgain_runs :
  ∃ e' log1,
    Run 0 Examples.orders Examples.lastFirst (New Examples.diamond)
      = Some (Returned None, e', log1) ∧
    answersAlike Examples.diamond Examples.diamondAgain log1.
Proof.
  do 2 eexists. split; [vm_compute; reflexivity | ].
  alike_by_cases.
Qed.

Lemma Run_deterministic_witness :
  ∃ e1 log1 e2 log2,
    Run 0 Examples.orders Examples.lastFirst (New Examples.failing)
      = Some (Returned (Some (ErrNodeFailed "C" "boom C")), e1, log1) ∧
    Run 0 Examples.orders [] (mkEngine Examples.failingAgain ∅)
      = Some (Returned (Some (ErrNodeFailed "B" "boom B")), e2, log2) ∧
    results e2 = results e1 ∧ log2 ≡ₚ log1.
Proof.
  destruct failingAgain_runs as (e1 & log1 & e2 & log2 & HRun1 & HRun2 & Halike).
  destruct (Run_deterministic 0 Examples.orders Examples.lastFirst Examples.orders []
              (New Examples.failing) Examples.failingAgain _ e1 log1 _ e2 log2
              failing_keyed failingAgain_same HRun1 HRun2 Halike)
    as (_ & _ & Heq & Hlog & _).
  exists e1, log1, e2, log2. split_and!; assumption.
Defined.

Lemma Run_again_witness :
  ∃ e' log1 log2,
    Run 0 Examples.orders Examples.lastFirst (New Examples.diamond)
      = Some (Returned None, e', log1) ∧
    Run 0 Examples.orders [] (mkEngine Examples.diamondAgain (results e'))
      = Some (Returned None, mkEngine Examples.diamondAgain (results e'), log2) ∧
    log2 ≡ₚ log1.
Proof.
  destruct diamondAgain_runs as (e' & log1 & HRun & Halike).
  destruct (Run_again 0 Examples.orders Examples.lastFirst Examples.orders []
              (New Examples.diamond) Examples.diamondAgain e' log1
              diamond_keyed diamondAgain_same HRun Halike) as (_ & log2 & HRun2 & Hlog).
  exists e', log1, log2. split_and!; assumption.
Defined.

Lemma stored_valid : validSlices StoredExamples.stored StoredExamples.memory.
Proof. by_evaluation. Qed.

Lemma stored_separate : separate StoredExamples.stored.
Proof. by_evaluation. Qed.

Lemma stored_keyed : keyed (load StoredExamples.memory <$> StoredExamples.stored).
Proof. by_evaluation. Qed.

Lemma PrettyPrintStored_idempotent_witness :
  PrettyPrintStored StoredExamples.stored
      (PrettyPrintStored StoredExamples.stored StoredExamples.memory)
    = PrettyPrintStored StoredExamples.stored StoredExamples.memory.
Proof.
  apply (PrettyPrintStored_idempotent StoredExamples.stored StoredExamples.memory).
  - exact stored_valid.
  - exact stored_separate.
Defined.

Lemma PrettyPrintStored_well_formed_witness :
  acyclic (load (PrettyPrintStored StoredExamples.stored StoredExamples.memory)
             <$> StoredExamples.stored)
  ↔ acyclic (load StoredExamples.memory <$> StoredExamples.stored).
Proof.
  destruct (PrettyPrintStored_well_formed StoredExamples.stored StoredExamples.stored
              StoredExamples.memory stored_valid stored_separate) as (_ & _ & _ & H & _).
  - reflexivity.
  - exact H.
Defined.

Lemma PrettyPrintStored_Run_witness :
  ∃ e1 log1 log2,
    Run 0 Examples.orders Examples.lastFirst
        (mkEngine (load StoredExamples.memory <$> StoredExamples.stored) ∅)
      = Some (Returned None, e1, log1) ∧
    Run 0 Examples.orders []
        (mkEngine (load (PrettyPrintStored StoredExamples.stored StoredExamples.memory)
                     <$> StoredExamples.stored) ∅)
      = Some (Returned None,
              mkEngine (load (PrettyPrintStored StoredExamples.stored StoredExamples.memory)
                          <$> StoredExamples.stored) (results e1), log2).
Proof.
  assert (∃ e1 log1,
    Run 0 Examples.orders Examples.lastFirst
        (mkEngine (load StoredExamples.memory <$> StoredExamples.stored) ∅)
      = Some (Returned None, e1, log1)) as (e1 & log1 & HRun).
  { do 2 eexists. vm_compute. reflexivity. }
  destruct (PrettyPrintStored_Run 0 Examples.orders Examples.lastFirst Examples.orders []
              StoredExamples.stored StoredExamples.memory ∅
              stored_keyed stored_valid stored_separate) as [Hthere _].
  destruct (Hthere e1 log1 HRun) as [log2 HRun2].
  exists e1, log1, log2. split; assumption.
Defined.

(** Slices that overlap: [PrettyPrint] sorts [x.DependsOn], then
    [y.DependsOn], and the second sort moves an element of the first; the
    dependencies of [x] are not what they were, as a set, and a second
    [PrettyPrint] changes them again. *)
Example PrettyPrintStored_overlap :
  ¬ separate StoredExamples.overlapping ∧
  (λ m, (elements m (mkSlice 0 0 2), elements m (mkSlice 0 1 2))) <$>
    [StoredExamples.base;
     PrettyPrintStored StoredExamples.overlapping StoredExamples.base;
     PrettyPrintStored StoredExamples.overlapping
       (PrettyPrintStored StoredExamples.overlapping StoredExamples.base)]
  = [(["c"; "b"], ["b"; "a"]); (["b"; "a"], ["a"; "c"]); (["a"; "b"], ["b"; "c"])].
Proof.
  split; [ | vm_compute; reflexivity].
  refine (bool_decide_unpack _ _). vm_compute. exact I.
Qed.

Lemma BuildFor_well_formed_witness :
  ∃ e,
    BuildFor (NewBuilder Examples.diamond) ["B"; "A"] = Some (inl e) ∧
    results e = ∅ ∧ closed (nodes e) ∧ nodes e ⊆ Examples.diamond ∧ keyed (nodes e).
Proof.
  destruct diamond_built as [e Hbuild].
  destruct (BuildFor_well_formed (NewBuilder Examples.diamond) ["B"; "A"] e Hbuild)
    as (Hres & Hclosed & Hsub & Hkeyed & _).
  exists e. split_and!; [assumption | assumption | assumption | assumption | ].
  exact (Hkeyed diamond_keyed).
Defined.

Lemma BuildFor_Run_witness :
  ∃ e out rs log,
    BuildFor (NewBuilder Examples.diamond) ["B"; "A"] = Some (inl e) ∧
    RunGo 0 Examples.orders Examples.lastFirst (mkGoEngine (ofNode <$> nodes e) (results e))
      = Some (Returned out, mkGoEngine (ofNode <$> nodes e) rs, log) ∧
    NoDup log.*1 ∧ ∀ id, id ∈ log.*1 → reachable Examples.diamond ["B"; "A"] id.
Proof.
  destruct diamond_built as [e Hbuild].
  destruct (BuildFor_Run 0 (NewBuilder Examples.diamond) ["B"; "A"] e (ofNode <$> nodes e)
              Examples.orders Examples.lastFirst diamond_keyed Hbuild
              (returning_ofNode_fmap _) (ofNode_fmap_returns _))
    as [_ (out & rs & log & HRun & Hnd & Hin)].
  exists e, out, rs, log. split_and!; assumption.
Defined.

Lemma BuildFor_targets_witness :
  ∃ e,
    BuildFor (NewBuilder Examples.diamond) ["B"; "A"] = Some (inl e) ∧
    BuildFor (NewBuilder Examples.diamond) ["A"; "B"; "B"] = Some (inl e).
Proof.
  destruct diamond_built as [e Hbuild]. exists e. split; [assumption | ].
  apply (BuildFor_targets (NewBuilder Examples.diamond) ["B"; "A"] ["A"; "B"; "B"] e);
    [ | assumption].
  intros k. rewrite !elem_of_cons, !elem_of_nil. tauto.
Defined.

Lemma Error_text_witness : ErrUnknownNode "node2a" = ErrUnknownNode "node2a".
Proof.
  exact (Error_text (ErrUnknownNode "node2a") (ErrUnknownNode "node2a") eq_refl).
Defined.

Lemma initAll_Permutation_witness :
  catalog.initAll (reverse Server.inits) ∅ = inl Server.registered.
Proof.
  apply (initAll_Permutation Server.inits (reverse Server.inits) Server.registered).
  - symmetry. apply reverse_Permutation.
  - exact registered_inits.
Defined.

Lemma splitAndTrim_concat_witness :
  splitAndTrim " node2a,node4  ,, x y" = Some ["node2a"; "node4"; "x y"].
Proof.
  apply (splitAndTrim_concat [(1, "node2a", 0); (0, "node4", 2); (0, "", 0); (1, "x y", 0)]).
  refine (bool_decide_unpack _ _). vm_compute. exact I.
Defined.


Lemma handleCustomGraph_no_names_witness :
  handleCustomGraph Server.builder " , ," Examples.orders Examples.lastFirst
    = Some (JSON ∅).
Proof.
  apply (handleCustomGraph_no_names Server.builder " , ," Examples.orders Examples.lastFirst).
  - discriminate.
  - refine (bool_decide_unpack _ _). vm_compute. exact I.
Defined.


Lemma handleSmallGraph_ok_witness :
  handleSmallGraph Server.builder Examples.orders Examples.lastFirst
    = Some (JSON smallResults).
Proof.
  apply (handleSmallGraph_ok Server.builder Examples.orders Examples.lastFirst).
  - vm_compute. reflexivity.
  - vm_compute. reflexivity.
Defined.


(** ** Further evaluations of the server *)

(** The three requests of the client in [main.go] against the catalog of
    the packages at hand, which lacks node2a: the small graph answers with
    its two results, the full graph and the custom graph with the unknown
    node, under status 500 and 400. *)
Example server_requests :
  handleFullGraph Server.builder Examples.orders []
    = Some (HttpError "unknown node: node2a" StatusInternalServerError) ∧
  handleCustomGraph Server.builder "node2a,node4" Examples.orders []
    = Some (HttpError "unknown node: node2a" StatusBadRequest) ∧
  (λ r, match r with JSON data => (map_to_list data).*1 | HttpError _ _ => [] end) <$>
    handleCustomGraph Server.builder "node2b, node4" Examples.orders []
    = Some ["node1"; "node2b"; "node4"].
Proof. split_and!; vm_compute; reflexivity. Qed.

(** Which unknown dependency the planner reports depends on the order in
    which the map is visited. *)
Example unknown_dependency_by_order :
  topoSortLevels (mkOrders [] ["node3"] [] []) Server.registered
    = Some (inr (ErrUnknownDependency "node3" "node2a")) ∧
  topoSortLevels (mkOrders [] ["node3"] [] [])
      (<["x" := mkNode "x" ["y"] node1.run]> Server.registered)
    = Some (inr (ErrUnknownDependency "node3" "node2a")) ∧
  topoSortLevels (mkOrders [] ["x"] [] [])
      (<["x" := mkNode "x" ["y"] node1.run]> Server.registered)
    = Some (inr (ErrUnknownDependency "x" "y")).
Proof. split_and!; vm_compute; reflexivity. Qed.

(** The test on the catalog of the packages at hand, which lacks node2a,
    and on a catalog with a cycle behind a node that is none: the cycle
    is reported from the node the search started at. *)
Example integrity_evaluations :
  integrity.TestGraphIntegrity [] [] Server.registered
    = Some [integrity.MissingDependency "node3" "node2a"] ∧
  integrity.TestGraphIntegrity [] [] (∅ : gmap string (Node payload))
    = Some [integrity.NoNodes] ∧
  integrity.TestGraphIntegrity [] ["S"]
      (list_to_map [("S", mkNode "S" ["A"] node1.run); ("A", mkNode "A" ["B"] node1.run);
                    ("B", mkNode "B" ["A"] node1.run)] : gmap string (Node payload))
    = Some [integrity.CycleDetected ["S"; "A"; "B"; "A"]].
Proof. split_and!; vm_compute; reflexivity. Qed.
